(** * MemPool: a fixed-block-size pool allocator (src/memory_pool.cpp)

    The development embeds class [MemoryPool] over a byte-addressed heap:
    the free list is the intrusive singly linked list that the C++ code
    threads through the first [sizeof(Node)] bytes of every free block, and
    [std::malloc] / [std::free] are the only ways memory becomes valid or
    invalid.  Every operation is an executable function on an explicit
    state (heap contents, live malloc'ed regions, the pool object).

    Modelling choices:
    - addresses and [size_t] values are integers that wrap at
      [2 ^ (8 * sizeof(Node))];
    - an access outside a live region, or a read of bytes that were never
      written, is undefined behaviour and ends the run ([Undefined]);
    - [std::malloc] is a function of the live regions and the size; its
      contract ([malloc_ok]) is a hypothesis, and a concrete allocator is
      supplied to run examples;
    - [std::vector::push_back] is taken to succeed, and the alignment of
      block addresses is not tracked;
    - one thread: a compare-exchange sees the value just loaded and does
      not fail spuriously, so each retry loop runs its body once; several
      threads: an interleaving of the individual accesses to shared
      state;
    - class [Test] is its two [int] members without padding, an [int]
      being [int_bytes] bytes in two's complement, and what the program
      writes to [std::cout] is a list of lines. *)

From Stdlib Require Import ZArith Lia List Permutation.
From stdpp Require Import base tactics option list gmap.

Local Open Scope Z_scope.

(** ** The heap *)

(** [bytes] maps an address to the byte stored there (absent: never
    written, contents indeterminate).  [live] lists the regions
    [(base, size)] handed out by malloc and not yet freed. *)
Record Heap : Type := mkHeap {
  bytes : gmap Z Z;
  live : list (Z * Z)
}.

Definition empty_heap : Heap := mkHeap ∅ [].

(** Little-endian encoding of a value on [n] bytes. *)
Fixpoint encode_le (n : nat) (v : Z) : list Z :=
  match n with
  | O => []
  | S n' => (v mod 256) :: encode_le n' (v / 256)
  end.

Fixpoint decode_le (bs : list Z) : Z :=
  match bs with
  | [] => 0
  | b :: bs' => b + 256 * decode_le bs'
  end.

Fixpoint store_bytes (a : Z) (bs : list Z) (m : gmap Z Z) : gmap Z Z :=
  match bs with
  | [] => m
  | b :: bs' => store_bytes (a + 1) bs' (<[a := b]> m)
  end.

Fixpoint load_bytes (a : Z) (n : nat) (m : gmap Z Z) : option (list Z) :=
  match n with
  | O => Some []
  | S n' =>
      match m !! a, load_bytes (a + 1) n' m with
      | Some b, Some bs => Some (b :: bs)
      | _, _ => None
      end
  end.

(** The access [a .. a+n) lies inside the region [c]. *)
Definition in_chunk (a n : Z) (c : Z * Z) : bool :=
  (c.1 <=? a) && (a + n <=? c.1 + c.2).

(** An access is valid when it lies inside one live region. *)
Definition valid_access (lv : list (Z * Z)) (a n : Z) : bool :=
  existsb (in_chunk a n) lv.

(** ** The pool object *)

(** The four data members of [class MemoryPool] (lines 16-19).  A pointer
    is an address, and [nullptr] is 0. *)
Record MemoryPool : Type := mkPool {
  freeList : Z;
  allocatedChunks : list Z;
  blockSize : Z;
  blockCount : Z
}.

(** Outcome of a member function: normal return with a value, a thrown
    [std::bad_alloc] (with the state at the throw), undefined behaviour
    (an access outside live memory or a read of bytes never written), or
    recursion deeper than the fuel given to the model. *)
Inductive Result (A : Type) : Type :=
| Ok (a : A) (h : Heap) (p : MemoryPool)
| BadAlloc (h : Heap) (p : MemoryPool)
| Undefined
| OutOfFuel.

Arguments Ok {A} a h p.
Arguments BadAlloc {A} h p.
Arguments Undefined {A}.
Arguments OutOfFuel {A}.

(** A caller's view of one pool: the calls it makes. *)
Inductive call : Type :=
| Allocate
| Deallocate (ptr : Z)
| Scribble (addr : Z) (byte : Z).

Section Pool.

(** [sizeof(Node)] in bytes: the size of one pointer.  [size_t] has the
    width of a pointer (flat address space). *)
Variable ptr_bytes : positive.

(** [std::malloc], as a function of the live regions and the requested
    size; 0 is the null pointer. *)
Variable malloc : list (Z * Z) -> Z -> Z.

Definition sizeof_Node : Z := Z.pos ptr_bytes.

Definition SIZE_MAX1 : Z := 2 ^ (8 * sizeof_Node).

(** Unsigned wrap-around of [size_t] and of address arithmetic. *)
Definition wrap (x : Z) : Z := x mod SIZE_MAX1.

(** [node->next] read through a [Node*]. *)
Definition load_ptr (h : Heap) (a : Z) : option Z :=
  if valid_access (live h) a sizeof_Node
  then decode_le <$> load_bytes a (Pos.to_nat ptr_bytes) (bytes h)
  else None.

(** [node->next = v]. *)
Definition store_ptr (h : Heap) (a v : Z) : option Heap :=
  if valid_access (live h) a sizeof_Node
  then Some (mkHeap (store_bytes a (encode_le (Pos.to_nat ptr_bytes) v) (bytes h))
                    (live h))
  else None.

(** [MemoryPool::deallocate] (lines 55-63), run by one thread: the
    compare-exchange finds the head it has just loaded.  A spurious
    failure of [compare_exchange_weak] repeats the body with the same
    [head] and stores the same link again. *)
Definition deallocate (ptr : Z) (h : Heap) (p : MemoryPool) : Result unit :=
  let node := ptr in
  let head := freeList p in
  match store_ptr h node head with
  | None => Undefined
  | Some h' =>
      Ok tt h' (mkPool node (allocatedChunks p) (blockSize p) (blockCount p))
  end.

(** The loop of [allocateChunk] (lines 110-112): [n] iterations starting
    at index [i]. *)
Fixpoint carve (n : nat) (block i : Z) (h : Heap) (p : MemoryPool)
  : Result unit :=
  match n with
  | O => Ok tt h p
  | S n' =>
      match deallocate (wrap (block + wrap (i * blockSize p))) h p with
      | Ok _ h' p' => carve n' block (i + 1) h' p'
      | r => r
      end
  end.

(** [MemoryPool::allocateChunk] (lines 101-113). *)
Definition allocateChunk (h : Heap) (p : MemoryPool) : Result unit :=
  let chunkSize := wrap (blockSize p * blockCount p) in
  let chunk := malloc (live h) chunkSize in
  if chunk =? 0 then BadAlloc h p
  else
    let h1 := mkHeap (bytes h) ((chunk, chunkSize) :: live h) in
    let p1 := mkPool (freeList p) (allocatedChunks p ++ [chunk])
                     (blockSize p) (blockCount p) in
    carve (Z.to_nat (blockCount p1)) chunk 0 h1 p1.

(** [MemoryPool::allocate] (lines 39-52), run by one thread.  [fuel]
    bounds the depth of the recursion [return allocate();]. *)
Fixpoint allocate (fuel : nat) (h : Heap) (p : MemoryPool) : Result Z :=
  match fuel with
  | O => OutOfFuel
  | S fuel' =>
      let head := freeList p in
      if head =? 0 then
        match allocateChunk h p with
        | Ok _ h' p' => allocate fuel' h' p'
        | BadAlloc h' p' => BadAlloc h' p'
        | Undefined => Undefined
        | OutOfFuel => OutOfFuel
        end
      else
        match load_ptr h head with
        | None => Undefined
        | Some next =>
            Ok head h (mkPool next (allocatedChunks p) (blockSize p) (blockCount p))
        end
  end.

(** The constructor (lines 23-29).  The mem-initialisers copy the two
    parameters into the members; inside the body the name [blockSize]
    denotes the parameter, which hides the member, so the assignment on
    line 27 updates the parameter [blockSize_arg] and nothing reads it
    afterwards. *)
Definition MemoryPool_ctor (blockSize_arg blockCount_arg : Z) (h : Heap)
  : Result unit :=
  let this := mkPool 0 [] blockSize_arg blockCount_arg in
  let blockSize_arg :=
    if blockSize_arg <? sizeof_Node then sizeof_Node else blockSize_arg in
  allocateChunk h this.

(** [std::free]: releasing the null pointer does nothing; releasing an
    address that is not the base of a live region is undefined. *)
Definition free_chunk (c : Z) (h : Heap) : option Heap :=
  if c =? 0 then Some h
  else if existsb (fun r => r.1 =? c) (live h)
       then Some (mkHeap (bytes h) (filter (fun r => r.1 ≠ c) (live h)))
       else None.

(** [for (void* chunk : allocatedChunks) std::free(chunk);] *)
Fixpoint free_all (cs : list Z) (h : Heap) : option Heap :=
  match cs with
  | [] => Some h
  | c :: cs' =>
      match free_chunk c h with
      | Some h' => free_all cs' h'
      | None => None
      end
  end.

(** The destructor (lines 32-36). *)
Definition MemoryPool_dtor (h : Heap) (p : MemoryPool) : option Heap :=
  free_all (allocatedChunks p) h.

(** Pool objects are identified by where they live; the store maps the
    identity of an object to its members. *)
Definition moved_from : MemoryPool := mkPool 0 [] 0 0.

(** The move constructor (lines 70-78) builds a new object [this] from
    [other]: the head pointer is copied, the vector is moved out of
    [other] (which leaves it empty), the sizes are copied, and then
    [other] is reset. *)
Definition MemoryPool_move_ctor (this other : nat) (objs : gmap nat MemoryPool)
  : option (gmap nat MemoryPool) :=
  match objs !! this, objs !! other with
  | None, Some o =>
      let new := mkPool (freeList o) (allocatedChunks o) (blockSize o) (blockCount o) in
      let o1 := mkPool (freeList o) [] (blockSize o) (blockCount o) in
      let o2 := mkPool 0 (allocatedChunks o1) (blockSize o1) (blockCount o1) in
      let o3 := mkPool (freeList o2) (allocatedChunks o2) 0 (blockCount o2) in
      let o4 := mkPool (freeList o3) (allocatedChunks o3) (blockSize o3) 0 in
      Some (<[this := new]> (<[other := o4]> objs))
  | _, _ => None
  end.

(** Move assignment (lines 81-97).  The result is [None] when an object
    is missing or when releasing the old chunks is undefined.  The vector
    that was moved from is taken to be empty, as the usual standard
    libraries leave it. *)
Definition MemoryPool_move_assign (this other : nat)
    (st : Heap * gmap nat MemoryPool) : option (Heap * gmap nat MemoryPool) :=
  let '(h, objs) := st in
  match objs !! this, objs !! other with
  | Some t, Some o =>
      if decide (this ≠ other) then
        match free_all (allocatedChunks t) h with
        | None => None
        | Some h' =>
            let t1 := mkPool (freeList t) (allocatedChunks o) (blockSize t) (blockCount t) in
            let o1 := mkPool (freeList o) [] (blockSize o) (blockCount o) in
            let t2 := mkPool (freeList o1) (allocatedChunks t1) (blockSize t1) (blockCount t1) in
            let t3 := mkPool (freeList t2) (allocatedChunks t2) (blockSize o1) (blockCount t2) in
            let t4 := mkPool (freeList t3) (allocatedChunks t3) (blockSize t3) (blockCount o1) in
            let o2 := mkPool 0 (allocatedChunks o1) (blockSize o1) (blockCount o1) in
            let o3 := mkPool (freeList o2) (allocatedChunks o2) 0 (blockCount o2) in
            let o4 := mkPool (freeList o3) (allocatedChunks o3) (blockSize o3) 0 in
            Some (h', <[other := o4]> (<[this := t4]> objs))
        end
      else Some (h, objs)
  | _, _ => None
  end.

(** ** Callers *)

(** Remove the first occurrence of a handle from the handles a caller
    holds. *)
Fixpoint release (ptr : Z) (held : list Z) : list Z :=
  match held with
  | [] => []
  | b :: held' => if decide (b = ptr) then held' else b :: release ptr held'
  end.

(** [addr] is a byte of the block that starts at [b]. *)
Definition in_block (bs addr b : Z) : bool := (b <=? addr) && (addr <? b + bs).

(** A sequence of calls made by one thread on one pool, together with the
    handles the caller holds (most recent first).  The caller keeps the
    contract of section 4.1: it deallocates only handles it holds and
    writes only into blocks it holds; anything else is undefined. *)
Fixpoint exec (fuel : nat) (cs : list call) (h : Heap) (p : MemoryPool)
    (held : list Z) : Result (list Z) :=
  match cs with
  | [] => Ok held h p
  | Allocate :: cs' =>
      match allocate fuel h p with
      | Ok b h' p' => exec fuel cs' h' p' (b :: held)
      | BadAlloc h' p' => BadAlloc h' p'
      | Undefined => Undefined
      | OutOfFuel => OutOfFuel
      end
  | Deallocate ptr :: cs' =>
      if decide (ptr ∈ held) then
        match deallocate ptr h p with
        | Ok _ h' p' => exec fuel cs' h' p' (release ptr held)
        | BadAlloc h' p' => BadAlloc h' p'
        | Undefined => Undefined
        | OutOfFuel => OutOfFuel
        end
      else Undefined
  | Scribble addr byte :: cs' =>
      if existsb (in_block (blockSize p) addr) held
         && (0 <=? byte) && (byte <? 256)
      then exec fuel cs' (mkHeap (<[addr := byte]> (bytes h)) (live h)) p held
      else Undefined
  end.

(** ** Reading the free list *)

(** The blocks reached from [head] by following [next] up to the null
    pointer. *)
Inductive FreeList (h : Heap) : Z -> list Z -> Prop :=
| FreeList_nil : FreeList h 0 []
| FreeList_cons b next l :
    b ≠ 0 -> load_ptr h b = Some next -> FreeList h next l ->
    FreeList h b (b :: l).

(** The same walk as a function, giving up after [n] links. *)
Fixpoint walk (n : nat) (h : Heap) (head : Z) : option (list Z) :=
  if head =? 0 then Some []
  else match n with
       | O => None
       | S n' =>
           match load_ptr h head with
           | Some next => cons head <$> walk n' h next
           | None => None
           end
       end.

(** ** What malloc promises *)

(** Two regions do not overlap. *)
Definition apart (c d : Z * Z) : Prop := c.1 + c.2 <= d.1 \/ d.1 + d.2 <= c.1.

(** A successful malloc returns a non-null region inside the address
    space that overlaps no live region. *)
Definition malloc_ok : Prop :=
  forall lv sz, 0 <= sz ->
    malloc lv sz = 0 \/
    (0 < malloc lv sz /\ malloc lv sz + sz <= SIZE_MAX1 /\
     Forall (apart (malloc lv sz, sz)) lv).

(** Live regions are inside the address space and pairwise apart. *)
Fixpoint regions_ok (lv : list (Z * Z)) : Prop :=
  match lv with
  | [] => True
  | c :: lv' =>
      0 < c.1 /\ 0 <= c.2 /\ c.1 + c.2 <= SIZE_MAX1 /\
      Forall (apart c) lv' /\ regions_ok lv'
  end.

(** The block addresses of the chunk at [c]. *)
Definition blocks_of (bs bc c : Z) : list Z :=
  map (fun i => c + Z.of_nat i * bs) (seq 0 (Z.to_nat bc)).

Definition all_blocks (p : MemoryPool) : list Z :=
  concat (map (blocks_of (blockSize p) (blockCount p)) (allocatedChunks p)).

(** A place-at-the-top allocator used to run the model: it puts every
    region above all live ones, starting at [base], and gives each request
    at least one byte so that results are unique. *)
Definition bump_malloc (base : Z) (lv : list (Z * Z)) (sz : Z) : Z :=
  let top := fold_right (fun c acc => Z.max acc (c.1 + Z.max c.2 1)) base lv in
  if top + Z.max sz 1 <=? SIZE_MAX1 then top else 0.

(** ** Reachable states *)

(** What the construction interface asks for: a sane allocator and heap,
    a positive block size and block count, and a chunk size that fits
    [size_t]. *)
Definition sane_start (bs bc : Z) (h0 : Heap) : Prop :=
  malloc_ok /\ regions_ok (live h0) /\
  0 < bs /\ 1 <= bc /\ bs * bc < SIZE_MAX1.

(** The states of one pool that single-threaded callers can reach: the
    constructor returned, and then a sequence of calls returned. *)
Definition reachable (h : Heap) (p : MemoryPool) (held : list Z) : Prop :=
  exists bs bc h0 h1 p1 fuel cs,
    sane_start bs bc h0 /\
    MemoryPool_ctor bs bc h0 = Ok tt h1 p1 /\
    exec fuel cs h1 p1 [] = Ok held h p.

(** A pool whose constructor has copied its arguments and is about to
    acquire the first chunk. *)
Definition under_construction (h : Heap) (p : MemoryPool) : Prop :=
  exists bs bc, sane_start bs bc h /\ p = mkPool 0 [] bs bc.

(** [n] successive requests of zero bytes succeed. *)
Fixpoint zero_requests_succeed (n : nat) (lv : list (Z * Z)) : Prop :=
  match n with
  | O => True
  | S n' => malloc lv 0 ≠ 0 /\ zero_requests_succeed n' ((malloc lv 0, 0) :: lv)
  end.

(** ** Several threads on one pool *)

(** What a thread still has to do when its current [deallocate] returns:
    go back to its caller, or go on with the carving loop of
    [allocateChunk] at index [i]. *)
Inductive kont : Type :=
| K_return
| K_carve (block i : Z).

(** Where a thread stands inside a member function.  Every constructor
    is the point just before one access to shared state:
    - [A_load]: line 40, [A_test]: the loop test of line 41, [A_read]: the
      read of [head->next] on line 43, [A_cas]: the compare-exchange of
      line 43;
    - [G_malloc]: line 103, [G_push]: line 107, [G_loop]: the loop test of
      line 110 (after the loop comes [return allocate();], line 51);
    - [D_load]: line 57, [D_store]: line 59, [D_cas]: line 60;
    - [Threw]: [std::bad_alloc] has left [allocate]. *)
Inductive pcstate : Type :=
| Idle
| A_load
| A_test (head : Z)
| A_read (head : Z)
| A_cas (head next : Z)
| G_malloc
| G_push (chunk : Z)
| G_loop (block i : Z)
| D_load (node : Z) (k : kont)
| D_store (node head : Z) (k : kont)
| D_cas (node head : Z) (k : kont)
| Threw.

(** A thread: the calls it still has to make, where it stands, and the
    handles it holds. *)
Record thread : Type := mkThread {
  script : list call;
  pc : pcstate;
  holds : list Z
}.

Inductive step_result : Type :=
| Step (t : thread) (h : Heap) (p : MemoryPool)
| Done
| Wrong.

Definition after (k : kont) : pcstate :=
  match k with
  | K_return => Idle
  | K_carve block i => G_loop block (i + 1)
  end.

(** One access to shared state by one thread.  A compare-exchange
    succeeds exactly when the head still has the expected value; when it
    fails it reloads the expected value, as [compare_exchange_weak] does. *)
Definition tstep (t : thread) (h : Heap) (p : MemoryPool) : step_result :=
  let goto pc' := Step (mkThread (script t) pc' (holds t)) h p in
  let set_head v := mkPool v (allocatedChunks p) (blockSize p) (blockCount p) in
  match pc t with
  | Idle =>
      match script t with
      | [] => Done
      | Allocate :: cs => Step (mkThread cs A_load (holds t)) h p
      | Deallocate ptr :: cs =>
          if decide (ptr ∈ holds t)
          then Step (mkThread cs (D_load ptr K_return) (release ptr (holds t))) h p
          else Wrong
      | Scribble addr byte :: cs =>
          if existsb (in_block (blockSize p) addr) (holds t)
             && (0 <=? byte) && (byte <? 256)
          then Step (mkThread cs Idle (holds t))
                    (mkHeap (<[addr := byte]> (bytes h)) (live h)) p
          else Wrong
      end
  | A_load => goto (A_test (freeList p))
  | A_test head => if head =? 0 then goto G_malloc else goto (A_read head)
  | A_read head =>
      match load_ptr h head with
      | None => Wrong
      | Some next => goto (A_cas head next)
      end
  | A_cas head next =>
      if freeList p =? head
      then Step (mkThread (script t) Idle (head :: holds t)) h (set_head next)
      else goto (A_test (freeList p))
  | G_malloc =>
      let chunkSize := wrap (blockSize p * blockCount p) in
      let chunk := malloc (live h) chunkSize in
      if chunk =? 0 then goto Threw
      else Step (mkThread (script t) (G_push chunk) (holds t))
                (mkHeap (bytes h) ((chunk, chunkSize) :: live h)) p
  | G_push chunk =>
      Step (mkThread (script t) (G_loop chunk 0) (holds t)) h
           (mkPool (freeList p) (allocatedChunks p ++ [chunk])
                   (blockSize p) (blockCount p))
  | G_loop block i =>
      if i <? blockCount p
      then goto (D_load (wrap (block + wrap (i * blockSize p))) (K_carve block i))
      else goto A_load
  | D_load node k => goto (D_store node (freeList p) k)
  | D_store node head k =>
      match store_ptr h node head with
      | None => Wrong
      | Some h' => Step (mkThread (script t) (D_cas node head k) (holds t)) h' p
      end
  | D_cas node head k =>
      if freeList p =? head
      then Step (mkThread (script t) (after k) (holds t)) h (set_head node)
      else goto (D_store node (freeList p) k)
  | Threw => Done
  end.

(** An interleaving: the threads take their steps in the order given by
    the schedule (a list of thread numbers).  A scheduled thread that has
    nothing left to do is skipped. *)
Fixpoint run (sched : list nat) (ts : list thread) (h : Heap) (p : MemoryPool)
  : option (list thread * Heap * MemoryPool) :=
  match sched with
  | [] => Some (ts, h, p)
  | i :: sched' =>
      match ts !! i with
      | None => None
      | Some t =>
          match tstep t h p with
          | Step t' h' p' => run sched' (<[i := t']> ts) h' p'
          | Done => run sched' ts h p
          | Wrong => None
          end
      end
  end.

(** A thread has made all its calls and all of them have returned. *)
Definition finished (t : thread) : bool :=
  match script t, pc t with
  | [], Idle => true
  | _, _ => false
  end.



(** The block a thread is in the middle of giving back: it has left the
    handles of the thread and is not yet on the free list. *)
Definition in_flight (t : thread) : list Z :=
  match pc t with
  | D_load node _ | D_store node _ _ | D_cas node _ _ => [node]
  | _ => []
  end.

(** The blocks that are in the hands of a thread. *)
Definition owned (t : thread) : list Z := in_flight t ++ holds t.

(** The handles that a sequence of calls gives back. *)
Fixpoint returned (cs : list call) : list Z :=
  match cs with
  | [] => []
  | Deallocate ptr :: cs' => ptr :: returned cs'
  | _ :: cs' => returned cs'
  end.

Definition is_deallocate (c : call) : bool :=
  match c with
  | Deallocate _ => true
  | _ => false
  end.

(** The calls a thread still has to make are all [deallocate], of
    distinct handles that it holds. *)
Definition only_returns (t : thread) : Prop :=
  forallb is_deallocate (script t) = true /\
  NoDup (returned (script t)) /\
  forall b, b ∈ returned (script t) -> b ∈ holds t.

(** A thread that is between calls and will only give blocks back. *)
Definition returning (t : thread) : Prop := pc t = Idle /\ only_returns t.

(** ** The consumer class *)

(** [Test::operator new] (lines 141-143) hands out a block of the static
    pool; its argument [size] is not used. *)
Definition Test_operator_new (size : Z) (fuel : nat) (h : Heap) (pool : MemoryPool)
  : Result Z :=
  allocate fuel h pool.

(** [Test::operator delete] (lines 145-147). *)
Definition Test_operator_delete (ptr : Z) (h : Heap) (pool : MemoryPool)
  : Result unit :=
  deallocate ptr h pool.

(** The static member [Test::pool(sizeof(Test), 10)] (line 139). *)
Definition Test_pool (sizeof_Test : Z) (h : Heap) : Result unit :=
  MemoryPool_ctor sizeof_Test 10 h.

(** An [int] of [int_bytes] bytes, two's complement and little endian,
    read or written through a pointer to a [Test]. *)
Definition signed (int_bytes : positive) (u : Z) : Z :=
  if u <? 2 ^ (8 * Z.pos int_bytes - 1) then u else u - 2 ^ (8 * Z.pos int_bytes).

Definition store_int (int_bytes : positive) (h : Heap) (a v : Z) : option Heap :=
  if valid_access (live h) a (Z.pos int_bytes)
  then Some (mkHeap (store_bytes a (encode_le (Pos.to_nat int_bytes) v) (bytes h))
                    (live h))
  else None.

Definition load_int (int_bytes : positive) (h : Heap) (a : Z) : option Z :=
  if valid_access (live h) a (Z.pos int_bytes)
  then (fun bs => signed int_bytes (decode_le bs))
         <$> load_bytes a (Pos.to_nat int_bytes) (bytes h)
  else None.

(** [sizeof(Test)]: the two [int] members [x] and [y] (lines 118-119). *)
Definition sizeof_Test (int_bytes : positive) : Z := 2 * Z.pos int_bytes.

(** The constructor [Test(int a, int b) : x(a), y(b)] (line 121). *)
Definition Test_ctor (int_bytes : positive) (this a b : Z) (h : Heap) : option Heap :=
  match store_int int_bytes h this a with
  | Some h1 => store_int int_bytes h1 (this + Z.pos int_bytes) b
  | None => None
  end.

(** What the program writes to [std::cout], line by line. *)
Inductive output : Type :=
| Line_Test (x y : Z)
| Line_completed.

(** [Test::print] (lines 123-125). *)
Definition Test_print (int_bytes : positive) (this : Z) (h : Heap) : option output :=
  match load_int int_bytes h this, load_int int_bytes h (this + Z.pos int_bytes) with
  | Some x, Some y => Some (Line_Test x y)
  | _, _ => None
  end.

(** Sequencing of member calls: an exception or undefined behaviour ends
    the sequence. *)
Definition and_then {A B : Type} (r : Result A)
    (k : A -> Heap -> MemoryPool -> Result B) : Result B :=
  match r with
  | Ok a h p => k a h p
  | BadAlloc h p => BadAlloc h p
  | Undefined => Undefined
  | OutOfFuel => OutOfFuel
  end.

(** The expression [new Test(a, b)]: [operator new] with [sizeof(Test)],
    then the constructor on the block it returned. *)
Definition new_Test (int_bytes : positive) (a b : Z) (fuel : nat)
    (h : Heap) (pool : MemoryPool) : Result Z :=
  and_then (Test_operator_new (sizeof_Test int_bytes) fuel h pool)
    (fun t h1 pool1 =>
       match Test_ctor int_bytes t a b h1 with
       | Some h2 => Ok t h2 pool1
       | None => Undefined
       end).

(** The expression [delete t]: nothing for a null pointer; otherwise the
    (trivial) destructor and [operator delete]. *)
Definition delete_Test (t : Z) (h : Heap) (pool : MemoryPool) : Result unit :=
  if t =? 0 then Ok tt h pool else Test_operator_delete t h pool.

(** [main] (lines 150-164), started with the static pool [pool]; its
    value is the text written. *)
Definition main (int_bytes : positive) (fuel : nat) (h : Heap) (pool : MemoryPool)
  : Result (list output) :=
  and_then (new_Test int_bytes 1 2 fuel h pool) (fun t1 h pool =>
  and_then (new_Test int_bytes 3 4 fuel h pool) (fun t2 h pool =>
    match Test_print int_bytes t1 h, Test_print int_bytes t2 h with
    | Some l1, Some l2 =>
        and_then (delete_Test t1 h pool) (fun _ h pool =>
        and_then (delete_Test t2 h pool) (fun _ h pool =>
          Ok [l1; l2; Line_completed] h pool))
    | _, _ => Undefined
    end)).

(** The whole program: the static pool is constructed before [main]
    (line 139) and destroyed after it. *)
Definition program (int_bytes : positive) (fuel : nat) (h0 : Heap)
  : Result (list output) :=
  and_then (Test_pool (sizeof_Test int_bytes) h0) (fun _ h pool =>
  and_then (main int_bytes fuel h pool) (fun out h pool =>
    match MemoryPool_dtor h pool with
    | Some h' => Ok out h' pool
    | None => Undefined
    end)).

End Pool.

(** How many calls of each kind a sequence contains. *)
Fixpoint allocs (cs : list call) : nat :=
  match cs with
  | [] => O
  | Allocate :: cs' => S (allocs cs')
  | _ :: cs' => allocs cs'
  end.

Fixpoint deallocs (cs : list call) : nat :=
  match cs with
  | [] => O
  | Deallocate _ :: cs' => S (deallocs cs')
  | _ :: cs' => deallocs cs'
  end.

(** The call writes into the block at [b] or gives it back. *)
Definition touches (bs b : Z) (c : call) : bool :=
  match c with
  | Allocate => false
  | Deallocate ptr => ptr =? b
  | Scribble addr _ => in_block bs addr b
  end.

(** The handles left after giving back the blocks of [bl], one by one. *)
Definition release_all (bl held : list Z) : list Z :=
  fold_left (fun acc b => release b acc) bl held.

(** The handles a thread is left with once the blocks it is giving back,
    and those it still has to give back, are gone. *)
Definition keeps (t : thread) : list Z :=
  release_all (in_flight t ++ returned (script t)) (owned t).

Definition is_allocate (c : call) : bool :=
  match c with
  | Allocate => true
  | _ => false
  end.

(** 1 while a thread is inside the loop of [allocate] (lines 40-48). *)
Definition popping (t : thread) : nat :=
  match pc t with
  | A_load | A_test _ | A_read _ | A_cas _ _ => 1
  | _ => 0
  end.

(** The allocations of a thread that have not returned yet. *)
Definition due (t : thread) : nat := (allocs (script t) + popping t)%nat.

(** A thread that is between calls and will only allocate. *)
Definition allocating (t : thread) : Prop :=
  pc t = Idle /\ forallb is_allocate (script t) = true.

(** ** A concrete platform to run the model on *)

(** Pointers of 8 bytes and the place-at-the-top allocator starting at
    address 4096. *)
Definition lp64 : positive := 8%positive.

Definition demo_malloc : list (Z * Z) -> Z -> Z := bump_malloc lp64 4096.

(** Construct a pool on the empty heap and run a sequence of calls,
    allowing recursion depth 2. *)
Definition demo_run (bs bc : Z) (cs : list call) : Result (list Z) :=
  match MemoryPool_ctor lp64 demo_malloc bs bc empty_heap with
  | Ok _ h p => exec lp64 demo_malloc 2 cs h p []
  | BadAlloc h p => BadAlloc h p
  | Undefined => Undefined
  | OutOfFuel => OutOfFuel
  end.

Definition demo_heap (bs bc : Z) (cs : list call) : Heap :=
  match demo_run bs bc cs with Ok _ h _ => h | _ => empty_heap end.

Definition demo_pool (bs bc : Z) (cs : list call) : MemoryPool :=
  match demo_run bs bc cs with Ok _ _ p => p | _ => moved_from end.

Definition demo_held (bs bc : Z) (cs : list call) : list Z :=
  match demo_run bs bc cs with Ok held _ _ => held | _ => [] end.

(** Two threads on a pool of 16-byte blocks, 3 per chunk.  The first
    chunk sits at 4096, so after construction the free list is
    4128 -> 4112 -> 4096.  Thread 0 allocates three times; thread 1
    allocates twice and gives its first handle back. *)
Definition aba_thread0 : thread := mkThread [Allocate; Allocate; Allocate] Idle [].

Definition aba_thread1 : thread :=
  mkThread [Allocate; Allocate; Deallocate 4128] Idle [].

(** Thread 0 runs its first [allocate] up to the compare-exchange (4
    steps), thread 1 makes its three calls (5 + 5 + 4 steps), and thread 0
    runs to the end (1 + 5 + 5 steps). *)
Definition aba_schedule : list nat :=
  repeat 0%nat 4 ++ repeat 1%nat 14 ++ repeat 0%nat 11.

(** * Properties *)

Section PoolFacts.

Variable ptr_bytes : positive.
Variable malloc : list (Z * Z) -> Z -> Z.

#[local] Abbreviation sizeof_Node := (sizeof_Node ptr_bytes).
#[local] Abbreviation SIZE_MAX1 := (SIZE_MAX1 ptr_bytes).
#[local] Abbreviation wrap := (wrap ptr_bytes).
#[local] Abbreviation load_ptr := (load_ptr ptr_bytes).
#[local] Abbreviation store_ptr := (store_ptr ptr_bytes).
#[local] Abbreviation deallocate := (deallocate ptr_bytes).
#[local] Abbreviation carve := (carve ptr_bytes).
#[local] Abbreviation allocateChunk := (allocateChunk ptr_bytes malloc).
#[local] Abbreviation allocate := (allocate ptr_bytes malloc).
#[local] Abbreviation MemoryPool_ctor := (MemoryPool_ctor ptr_bytes malloc).
#[local] Abbreviation exec := (exec ptr_bytes malloc).
#[local] Abbreviation FreeList := (FreeList ptr_bytes).
#[local] Abbreviation walk := (walk ptr_bytes).
#[local] Abbreviation malloc_ok := (malloc_ok ptr_bytes malloc).
#[local] Abbreviation regions_ok := (regions_ok ptr_bytes).
#[local] Abbreviation sane_start := (sane_start ptr_bytes malloc).
#[local] Abbreviation reachable := (reachable ptr_bytes malloc).
#[local] Abbreviation under_construction := (under_construction ptr_bytes malloc).
#[local] Abbreviation zero_requests_succeed := (zero_requests_succeed malloc).
#[local] Abbreviation tstep := (tstep ptr_bytes malloc).
#[local] Abbreviation run := (run ptr_bytes malloc).
#[local] Abbreviation Test_operator_new := (Test_operator_new ptr_bytes malloc).
#[local] Abbreviation Test_operator_delete := (Test_operator_delete ptr_bytes).
#[local] Abbreviation Test_pool := (Test_pool ptr_bytes malloc).
#[local] Abbreviation new_Test := (new_Test ptr_bytes malloc).
#[local] Abbreviation delete_Test := (delete_Test ptr_bytes).
#[local] Abbreviation main := (main ptr_bytes malloc).
#[local] Abbreviation program := (program ptr_bytes malloc).

(** A thread that runs alone gets from one state to another. *)
Definition solo (t : thread) (h : Heap) (p : MemoryPool)
    (t' : thread) (h' : Heap) (p' : MemoryPool) : Prop :=
  exists n, run (repeat 0%nat n) [t] h p = Some ([t'], h', p').

(** The invariant of reachable states: [fl] is the free list and [out]
    are the blocks that are not on it. *)
Record Inv (h : Heap) (p : MemoryPool) (fl out : list Z) : Prop := mkInv {
  inv_malloc : malloc_ok;
  inv_bs : sizeof_Node <= blockSize p;
  inv_bc : 0 <= blockCount p;
  inv_fit : blockSize p * blockCount p < SIZE_MAX1;
  inv_heap : regions_ok (live h);
  inv_owned : Forall (fun c => (c, blockSize p * blockCount p) ∈ live h)
                     (allocatedChunks p);
  inv_free : FreeList h (freeList p) fl;
  inv_part : Permutation (fl ++ out) (all_blocks p);
  inv_nodup : NoDup (all_blocks p);
  inv_sep : forall x y, x ∈ all_blocks p -> y ∈ all_blocks p -> x ≠ y ->
            x + blockSize p <= y \/ y + blockSize p <= x
}.

(** What holds of a thread that only gives blocks back, wherever it
    stands inside [deallocate]: the head it has loaded is an address, and
    before its compare-exchange the link of its block holds that head. *)
Definition pusher_ok (h : Heap) (t : thread) : Prop :=
  only_returns t /\
  match pc t with
  | Idle => True
  | D_load _ K_return => True
  | D_store _ head K_return => 0 <= head < SIZE_MAX1
  | D_cas node head K_return => load_ptr h node = Some head
  | _ => False
  end.

(** The invariant of a pool shared by such threads: the blocks that are
    not on the free list are those in the hands of the threads. *)
Definition PInv (ts : list thread) (h : Heap) (p : MemoryPool) : Prop :=
  exists fl, Inv h p fl (concat (map owned ts)) /\ Forall (pusher_ok h) ts.

(** The first bytes of every block hold some link. *)
Definition readable (h : Heap) (p : MemoryPool) : Prop :=
  forall b, b ∈ all_blocks p -> is_Some (load_ptr h b).

(** What holds of a thread that only allocates, wherever it stands in
    the loop of [allocate]: the head it has loaded is a block of the pool,
    and the link it has read is the link of that block for as long as the
    block is on the free list [fl]. *)
Definition popper_ok (h : Heap) (p : MemoryPool) (fl : list Z) (t : thread) : Prop :=
  forallb is_allocate (script t) = true /\
  match pc t with
  | Idle => True
  | A_load => True
  | A_test head => head ≠ 0 /\ head ∈ all_blocks p
  | A_read head => head ≠ 0 /\ head ∈ all_blocks p
  | A_cas head next => head ≠ 0 /\ (head ∈ fl -> load_ptr h head = Some next)
  | _ => False
  end.

(** The invariant of a pool shared by such threads, while the free list
    has a block for every allocation that has not returned. *)
Definition QInv (ts : list thread) (h : Heap) (p : MemoryPool) : Prop :=
  exists fl,
    Inv h p fl (concat (map holds ts)) /\ Forall (popper_ok h p fl) ts /\
    (sum_list_with due ts <= length fl)%nat /\ readable h p.

(** ** Bytes and links *)

Lemma SIZE_MAX1_pow : SIZE_MAX1 = 256 ^ Z.of_nat (Pos.to_nat ptr_bytes).
Proof.
  unfold SIZE_MAX1, sizeof_Node. rewrite positive_nat_Z.
  rewrite Z.pow_mul_r by lia. reflexivity.
Qed.

Lemma SIZE_MAX1_pos : 0 < SIZE_MAX1.
Proof. unfold SIZE_MAX1. apply Z.pow_pos_nonneg; unfold sizeof_Node; lia. Qed.

Lemma sizeof_Node_pos : 0 < sizeof_Node.
Proof. unfold sizeof_Node. lia. Qed.

Lemma length_encode_le n v : length (encode_le n v) = n.
Proof. revert v. induction n as [|n IH]; intros v; simpl; [done|]. by rewrite IH. Qed.

Lemma decode_encode_le n v : decode_le (encode_le n v) = v mod 256 ^ Z.of_nat n.
Proof.
  revert v. induction n as [|n IH]; intros v.
  - simpl. by rewrite Z.mod_1_r.
  - cbn [encode_le decode_le]. rewrite IH.
    rewrite Nat2Z.inj_succ, Z.pow_succ_r by lia.
    rewrite (Z.rem_mul_r v 256 (256 ^ Z.of_nat n)) by lia. lia.
Qed.

Lemma store_bytes_outside bs a m x :
  x < a \/ a + Z.of_nat (length bs) <= x ->
  store_bytes a bs m !! x = m !! x.
Proof.
  revert a m. induction bs as [|b bs IH]; intros a m Hx; simpl; [done|].
  rewrite IH by (simpl in Hx; lia).
  apply lookup_insert_ne. simpl in Hx. lia.
Qed.

Lemma load_bytes_store_bytes bs a m :
  load_bytes a (length bs) (store_bytes a bs m) = Some bs.
Proof.
  revert a m. induction bs as [|b bs IH]; intros a m; simpl; [done|].
  rewrite store_bytes_outside by lia.
  rewrite lookup_insert_eq. by rewrite IH.
Qed.

Lemma load_bytes_ext n a m1 m2 :
  (forall x, a <= x < a + Z.of_nat n -> m1 !! x = m2 !! x) ->
  load_bytes a n m1 = load_bytes a n m2.
Proof.
  revert a. induction n as [|n IH]; intros a Hx; simpl; [done|].
  rewrite (Hx a) by lia. rewrite (IH (a + 1)); [done|].
  intros x Hr. apply Hx. lia.
Qed.

Lemma load_store_same h a v h' :
  store_ptr h a v = Some h' -> 0 <= v < SIZE_MAX1 ->
  load_ptr h' a = Some v.
Proof.
  unfold store_ptr, load_ptr. intros Hs Hv.
  destruct (valid_access (live h) a sizeof_Node) eqn:Hva; [|done].
  injection Hs as <-. simpl. rewrite Hva.
  pose proof (load_bytes_store_bytes (encode_le (Pos.to_nat ptr_bytes) v) a (bytes h)) as Hl.
  rewrite length_encode_le in Hl. rewrite Hl. simpl.
  rewrite decode_encode_le, <- SIZE_MAX1_pow.
  by rewrite Z.mod_small.
Qed.

Lemma load_store_other h a v h' b :
  store_ptr h a v = Some h' ->
  b + sizeof_Node <= a \/ a + sizeof_Node <= b ->
  load_ptr h' b = load_ptr h b.
Proof.
  unfold store_ptr, load_ptr. intros Hs Hab.
  destruct (valid_access (live h) a sizeof_Node); [|done].
  injection Hs as <-. simpl.
  destruct (valid_access (live h) b sizeof_Node); [|done].
  f_equal. apply load_bytes_ext. intros x Hx.
  apply store_bytes_outside. rewrite length_encode_le, positive_nat_Z.
  rewrite positive_nat_Z in Hx. unfold sizeof_Node in Hab. lia.
Qed.

Lemma load_scribble_other h x v b :
  x < b \/ b + sizeof_Node <= x ->
  load_ptr (mkHeap (<[x := v]> (bytes h)) (live h)) b = load_ptr h b.
Proof.
  unfold load_ptr. intros Hx. simpl.
  destruct (valid_access (live h) b sizeof_Node); [|done].
  f_equal. apply load_bytes_ext. intros y Hy.
  apply lookup_insert_ne. rewrite positive_nat_Z in Hy.
  unfold sizeof_Node in Hx. lia.
Qed.

Lemma valid_access_spec lv a n :
  valid_access lv a n = true <->
  exists c, c ∈ lv /\ c.1 <= a /\ a + n <= c.1 + c.2.
Proof.
  unfold valid_access. rewrite existsb_exists. split.
  - intros (c & Hin & Hc). exists c. apply list_elem_of_In in Hin.
    unfold in_chunk in Hc. apply andb_true_iff in Hc as [H1 H2].
    split; [done|]. lia.
  - intros (c & Hin & H1 & H2). exists c. apply list_elem_of_In in Hin.
    split; [done|]. unfold in_chunk. apply andb_true_iff. lia.
Qed.

Lemma store_ptr_valid h a v :
  valid_access (live h) a sizeof_Node = true ->
  exists h', store_ptr h a v = Some h' /\ live h' = live h.
Proof. unfold store_ptr. intros ->. eauto. Qed.

Lemma store_ptr_live h a v h' : store_ptr h a v = Some h' -> live h' = live h.
Proof.
  unfold store_ptr. destruct (valid_access _ _ _); [|done]. by intros [= <-].
Qed.

Lemma FreeList_frame h h' head l :
  FreeList h head l ->
  (forall b, b ∈ l -> load_ptr h' b = load_ptr h b) ->
  FreeList h' head l.
Proof.
  induction 1 as [|b next l Hb Hl Hfl IH]; intros Hsame.
  - constructor.
  - econstructor; [done| |].
    + rewrite Hsame; [done|]. by left.
    + apply IH. intros c Hc. apply Hsame. by right.
Qed.


Lemma FreeList_walk h head l :
  FreeList h head l -> walk (length l) h head = Some l.
Proof.
  induction 1 as [|b next l Hb Hl Hfl IH]; [done|].
  simpl. destruct (Z.eqb_spec b 0) as [|_]; [done|].
  rewrite Hl, IH. done.
Qed.

Lemma walk_FreeList n h head l :
  walk n h head = Some l -> FreeList h head l.
Proof.
  revert head l. induction n as [|n IH]; intros head l; simpl.
  - destruct (Z.eqb_spec head 0) as [->|]; [|done]. intros [= <-]. constructor.
  - destruct (Z.eqb_spec head 0) as [->|Hne]; [intros [= <-]; constructor|].
    destruct (load_ptr h head) as [next|] eqn:Hl; [|done].
    destruct (walk n h next) as [l'|] eqn:Hw; [|done].
    simpl. intros [= <-]. econstructor; eauto.
Qed.

(** ** Blocks and regions *)

Lemma elem_of_blocks_of bs bc c b :
  b ∈ blocks_of bs bc c <-> exists i, 0 <= i < bc /\ b = c + i * bs.
Proof.
  unfold blocks_of. rewrite list_elem_of_fmap. split.
  - intros (k & -> & Hk). apply elem_of_seq in Hk. exists (Z.of_nat k).
    split; [lia|done].
  - intros (i & Hi & ->). exists (Z.to_nat i). split.
    + by rewrite Z2Nat.id by lia.
    + apply elem_of_seq. lia.
Qed.

Lemma length_blocks_of bs bc c : length (blocks_of bs bc c) = Z.to_nat bc.
Proof. unfold blocks_of. by rewrite length_map, length_seq. Qed.

Lemma NoDup_blocks_of bs bc c : 0 < bs -> NoDup (blocks_of bs bc c).
Proof.
  intros Hbs. unfold blocks_of.
  apply (NoDup_fmap_2_strong (fun i => c + Z.of_nat i * bs)); [|apply NoDup_seq].
  intros i j _ _ Hij. nia.
Qed.

Lemma elem_of_all_blocks p b :
  b ∈ all_blocks p <->
  exists c, c ∈ allocatedChunks p /\ b ∈ blocks_of (blockSize p) (blockCount p) c.
Proof.
  unfold all_blocks. induction (allocatedChunks p) as [|c cs IH]; simpl.
  - split; [by intros ?%elem_of_nil|]. by intros (c & ?%elem_of_nil & _).
  - rewrite elem_of_app, IH. split.
    + intros [Hb|(d & Hd & Hb)].
      * exists c. split; [by left|done].
      * exists d. split; [by right|done].
    + intros (d & Hd & Hb). apply elem_of_cons in Hd as [->|Hd]; [by left|].
      right. eauto.
Qed.

Lemma length_all_blocks p :
  length (all_blocks p) = (length (allocatedChunks p) * Z.to_nat (blockCount p))%nat.
Proof.
  unfold all_blocks. induction (allocatedChunks p) as [|c cs IH]; [done|].
  simpl. rewrite length_app, length_blocks_of, IH. lia.
Qed.

Lemma all_blocks_push_back fl cs bs bc c :
  all_blocks (mkPool fl (cs ++ [c]) bs bc) =
  all_blocks (mkPool fl cs bs bc) ++ blocks_of bs bc c.
Proof.
  unfold all_blocks. simpl. rewrite map_app, concat_app. simpl.
  by rewrite app_nil_r.
Qed.

Lemma regions_ok_elem lv c :
  regions_ok lv -> c ∈ lv -> 0 < c.1 /\ 0 <= c.2 /\ c.1 + c.2 <= SIZE_MAX1.
Proof.
  induction lv as [|d lv IH]; simpl; intros Hok Hc.
  - by apply elem_of_nil in Hc.
  - destruct Hok as (H1 & H2 & H3 & _ & Hok).
    apply elem_of_cons in Hc as [->|Hc]; [done|]. by apply IH.
Qed.

Lemma regions_ok_apart lv c d :
  regions_ok lv -> c ∈ lv -> d ∈ lv -> c ≠ d -> apart c d.
Proof.
  induction lv as [|e lv IH]; simpl; intros Hok Hc Hd Hne.
  - by apply elem_of_nil in Hc.
  - destruct Hok as (_ & _ & _ & Hall & Hok).
    rewrite Forall_forall in Hall.
    apply elem_of_cons in Hc as [->|Hc]; apply elem_of_cons in Hd as [->|Hd].
    + done.
    + by apply Hall.
    + specialize (Hall _ Hc). unfold apart in *. lia.
    + by apply IH.
Qed.

Lemma release_perm b held : b ∈ held -> Permutation held (b :: release b held).
Proof.
  induction held as [|x held IH]; intros Hb.
  - by apply elem_of_nil in Hb.
  - simpl. destruct (decide (x = b)) as [->|Hne]; [done|].
    apply elem_of_cons in Hb as [->|Hb]; [done|].
    rewrite (IH Hb) at 1. apply perm_swap.
Qed.

Lemma FreeList_head h head l : FreeList h head l -> head = 0 \/ head ∈ l.
Proof. destruct 1; [by left|right; by left]. Qed.

(** ** The invariant *)

Section Invariant.

Context {h : Heap} {p : MemoryPool} {fl out : list Z} (I : Inv h p fl out).

Lemma Inv_block_region b :
  b ∈ all_blocks p ->
  exists c, c ∈ allocatedChunks p /\
            (c, blockSize p * blockCount p) ∈ live h /\
            c <= b /\ b + blockSize p <= c + blockSize p * blockCount p.
Proof.
  intros Hb. apply elem_of_all_blocks in Hb as (c & Hc & Hb).
  apply elem_of_blocks_of in Hb as (i & Hi & ->).
  exists c. split; [done|]. split.
  - pose proof (inv_owned _ _ _ _ I) as Ho. rewrite Forall_forall in Ho. by apply Ho.
  - pose proof (inv_bs _ _ _ _ I). pose proof sizeof_Node_pos. nia.
Qed.

Lemma Inv_block_range b : b ∈ all_blocks p -> 0 < b /\ b + blockSize p <= SIZE_MAX1.
Proof.
  intros Hb. destruct (Inv_block_region b Hb) as (c & _ & Hl & H1 & H2).
  apply (regions_ok_elem _ _ (inv_heap _ _ _ _ I)) in Hl. simpl in Hl.
  pose proof (inv_bs _ _ _ _ I). pose proof sizeof_Node_pos. lia.
Qed.

Lemma Inv_block_valid b :
  b ∈ all_blocks p -> valid_access (live h) b sizeof_Node = true.
Proof.
  intros Hb. destruct (Inv_block_region b Hb) as (c & _ & Hl & H1 & H2).
  apply valid_access_spec. eexists. split; [exact Hl|]. simpl.
  pose proof (inv_bs _ _ _ _ I). lia.
Qed.

Lemma Inv_free_block b : b ∈ fl -> b ∈ all_blocks p.
Proof.
  intros Hb. rewrite <- (inv_part _ _ _ _ I). apply elem_of_app. by left.
Qed.

Lemma Inv_out_block b : b ∈ out -> b ∈ all_blocks p.
Proof.
  intros Hb. rewrite <- (inv_part _ _ _ _ I). apply elem_of_app. by right.
Qed.

Lemma Inv_free_out_sep x y :
  x ∈ fl -> y ∈ out -> x + blockSize p <= y \/ y + blockSize p <= x.
Proof.
  intros Hx Hy. apply (inv_sep _ _ _ _ I).
  - by apply Inv_free_block.
  - by apply Inv_out_block.
  - intros ->. pose proof (inv_nodup _ _ _ _ I) as Hnd.
    rewrite <- (inv_part _ _ _ _ I) in Hnd.
    apply NoDup_app in Hnd as (_ & Hdis & _). by apply (Hdis y).
Qed.

Lemma Inv_head_range : 0 <= freeList p < SIZE_MAX1.
Proof.
  destruct (FreeList_head _ _ _ (inv_free _ _ _ _ I)) as [->|Hin].
  - pose proof SIZE_MAX1_pos. lia.
  - apply Inv_free_block, Inv_block_range in Hin.
    pose proof (inv_bs _ _ _ _ I). pose proof sizeof_Node_pos. lia.
Qed.

Lemma Inv_NoDup_out : NoDup out.
Proof.
  pose proof (inv_nodup _ _ _ _ I) as Hnd.
  rewrite <- (inv_part _ _ _ _ I) in Hnd.
  by apply NoDup_app in Hnd as (_ & _ & ?).
Qed.

Lemma Inv_count :
  (length fl + length out = length (allocatedChunks p) * Z.to_nat (blockCount p))%nat.
Proof.
  rewrite <- length_all_blocks, <- (inv_part _ _ _ _ I). by rewrite length_app.
Qed.

Lemma Inv_perm_out out' : Permutation out out' -> Inv h p fl out'.
Proof.
  intros Hp. destruct I. constructor; try done.
  by rewrite <- Hp.
Qed.

End Invariant.

(** ** Each operation keeps the invariant *)

Lemma Inv_deallocate h p fl out b out' :
  Inv h p fl out -> Permutation out (b :: out') ->
  exists h',
    deallocate b h p = Ok tt h' (mkPool b (allocatedChunks p) (blockSize p) (blockCount p)) /\
    store_ptr h b (freeList p) = Some h' /\
    Inv h' (mkPool b (allocatedChunks p) (blockSize p) (blockCount p)) (b :: fl) out'.
Proof.
  intros I Hp.
  assert (Hbo : b ∈ out) by (rewrite Hp; by left).
  pose proof (Inv_out_block I b Hbo) as Hb.
  destruct (store_ptr_valid h b (freeList p) (Inv_block_valid I b Hb)) as (h' & Hs & Hlv).
  exists h'. unfold deallocate. rewrite Hs. do 2 (split; [done|]).
  pose proof (Inv_block_range I b Hb) as Hrange.
  pose proof (Inv_head_range I) as Hhead.
  pose proof (fun x Hx => Inv_free_out_sep I x b Hx Hbo) as Hfar.
  destruct I as [Hm Hbs Hbc Hfit Hheap Hown Hfree Hpart Hnd Hsep].
  constructor; simpl; try done.
  - by rewrite Hlv.
  - by rewrite Hlv.
  - econstructor.
    + lia.
    + eapply load_store_same; [exact Hs|done].
    + eapply FreeList_frame; [exact Hfree|]. intros x Hx.
      eapply load_store_other; [exact Hs|].
      specialize (Hfar x Hx). lia.
  - change (all_blocks (mkPool b (allocatedChunks p) (blockSize p) (blockCount p)))
      with (all_blocks p).
    rewrite <- Hpart, Hp. simpl. by rewrite Permutation_middle.
Qed.

Lemma Inv_pop h p b fl out :
  Inv h p (b :: fl) out ->
  exists next,
    load_ptr h b = Some next /\ freeList p = b /\ b ≠ 0 /\
    (forall fuel, allocate (S fuel) h p =
       Ok b h (mkPool next (allocatedChunks p) (blockSize p) (blockCount p))) /\
    Inv h (mkPool next (allocatedChunks p) (blockSize p) (blockCount p)) fl (b :: out).
Proof.
  intros I. pose proof (inv_free _ _ _ _ I) as Hfree.
  remember (freeList p) as hd eqn:Hhd.
  inversion Hfree as [|b' next l Hb Hl Hfl]; subst b' l.
  assert (Hhead : freeList p = b) by congruence. clear Hhd.
  exists next. do 3 (split; [done|]). split.
  - intros fuel. simpl. rewrite Hhead.
    destruct (Z.eqb_spec b 0) as [|_]; [done|]. by rewrite Hl.
  - destruct I as [Hm Hbs Hbc Hfit Hheap Hown _ Hpart Hnd Hsep].
    constructor; simpl; try done.
    change (all_blocks (mkPool next (allocatedChunks p) (blockSize p) (blockCount p)))
      with (all_blocks p).
    rewrite <- Hpart. simpl. by rewrite Permutation_middle.
Qed.

Lemma Inv_scribble h p fl out b x v :
  Inv h p fl out -> b ∈ out -> b <= x < b + blockSize p ->
  Inv (mkHeap (<[x := v]> (bytes h)) (live h)) p fl out.
Proof.
  intros I Hb Hx. pose proof (inv_bs _ _ _ _ I) as Hbs.
  assert (Hfr : FreeList (mkHeap (<[x := v]> (bytes h)) (live h)) (freeList p) fl).
  { eapply FreeList_frame; [apply (inv_free _ _ _ _ I)|]. intros y Hy.
    apply load_scribble_other.
    pose proof (Inv_free_out_sep I y b Hy Hb). lia. }
  destruct I. by constructor.
Qed.

(** A successful malloc of one chunk: the new blocks join the blocks
    that are not on the free list. *)
Lemma Inv_grow h p fl out :
  Inv h p fl out ->
  let sz := blockSize p * blockCount p in
  let r := malloc (live h) sz in
  r ≠ 0 ->
  0 < r /\ wrap sz = sz /\
  Inv (mkHeap (bytes h) ((r, sz) :: live h))
      (mkPool (freeList p) (allocatedChunks p ++ [r]) (blockSize p) (blockCount p))
      fl (out ++ blocks_of (blockSize p) (blockCount p) r).
Proof.
  intros I sz r Hr.
  pose proof (inv_bs _ _ _ _ I) as Hbs. pose proof (inv_bc _ _ _ _ I) as Hbc.
  pose proof (inv_fit _ _ _ _ I) as Hfit. pose proof sizeof_Node_pos as HW.
  assert (Hsz : 0 <= sz) by (unfold sz; nia).
  destruct (inv_malloc _ _ _ _ I (live h) sz Hsz) as [?|(Hr0 & Hrm & Hap)]; [done|].
  fold r in Hr0, Hrm, Hap. rewrite Forall_forall in Hap.
  split; [done|]. split; [unfold wrap; apply Z.mod_small; fold sz; lia|].
  assert (Hnew : forall b, b ∈ blocks_of (blockSize p) (blockCount p) r ->
                           r <= b /\ b + blockSize p <= r + sz).
  { intros b (i & Hi & ->)%elem_of_blocks_of. unfold sz. nia. }
  assert (Hold_new : forall x y, x ∈ all_blocks p ->
            y ∈ blocks_of (blockSize p) (blockCount p) r ->
            x + blockSize p <= y \/ y + blockSize p <= x).
  { intros x y Hx Hy. destruct (Inv_block_region I x Hx) as (c & _ & Hl & H1 & H2).
    specialize (Hap _ Hl). unfold apart in Hap. simpl in Hap.
    specialize (Hnew y Hy). fold sz in H2. lia. }
  constructor; simpl.
  - apply (inv_malloc _ _ _ _ I).
  - done.
  - done.
  - done.
  - repeat split; try lia; [|apply (inv_heap _ _ _ _ I)].
    apply Forall_forall. intros c Hc. by apply Hap.
  - apply Forall_app. split.
    + eapply Forall_impl; [apply (inv_owned _ _ _ _ I)|]. intros c Hc. by right.
    + apply Forall_cons. split; [by left|by apply Forall_nil].
  - eapply FreeList_frame; [apply (inv_free _ _ _ _ I)|]. intros b Hb.
    unfold load_ptr. simpl.
    pose proof (Inv_block_valid I b (Inv_free_block I b Hb)) as Hv.
    rewrite Hv. destruct (in_chunk b sizeof_Node (r, sz)); by simpl.
  - rewrite all_blocks_push_back.
    change (all_blocks (mkPool (freeList p) (allocatedChunks p) (blockSize p) (blockCount p)))
      with (all_blocks p).
    rewrite app_assoc. by rewrite (inv_part _ _ _ _ I).
  - rewrite all_blocks_push_back.
    change (all_blocks (mkPool (freeList p) (allocatedChunks p) (blockSize p) (blockCount p)))
      with (all_blocks p).
    apply NoDup_app. split; [apply (inv_nodup _ _ _ _ I)|]. split.
    + intros x Hx Hx'. specialize (Hold_new x x Hx Hx'). lia.
    + apply NoDup_blocks_of. lia.
  - intros x y. rewrite all_blocks_push_back.
    change (all_blocks (mkPool (freeList p) (allocatedChunks p) (blockSize p) (blockCount p)))
      with (all_blocks p).
    rewrite !elem_of_app. intros [Hx|Hx] [Hy|Hy] Hne.
    + by apply (inv_sep _ _ _ _ I).
    + by apply Hold_new.
    + specialize (Hold_new y x Hy Hx). lia.
    + apply elem_of_blocks_of in Hx as (i & Hi & ->).
      apply elem_of_blocks_of in Hy as (j & Hj & ->).
      assert (i ≠ j) by congruence. nia.
Qed.

Lemma Inv_wrap_size h p fl out :
  Inv h p fl out ->
  wrap (blockSize p * blockCount p) = blockSize p * blockCount p.
Proof.
  intros I. pose proof (inv_bs _ _ _ _ I). pose proof (inv_bc _ _ _ _ I).
  pose proof (inv_fit _ _ _ _ I). pose proof sizeof_Node_pos.
  unfold wrap. apply Z.mod_small. nia.
Qed.

(** The carving loop pushes the blocks [r + k * blockSize] for
    [k = i, ..., i + n - 1], in this order. *)
Lemma carve_spec r n : forall i h p fl rest,
  0 < r ->
  Inv h p fl (rest ++ map (fun k => r + Z.of_nat k * blockSize p) (seq i n)) ->
  exists h' fr,
    carve n r (Z.of_nat i) h p =
      Ok tt h' (mkPool fr (allocatedChunks p) (blockSize p) (blockCount p)) /\
    live h' = live h /\
    Inv h' (mkPool fr (allocatedChunks p) (blockSize p) (blockCount p))
        (rev (map (fun k => r + Z.of_nat k * blockSize p) (seq i n)) ++ fl) rest.
Proof.
  induction n as [|n IH]; intros i h p fl rest Hr I.
  - exists h, (freeList p). simpl in *. rewrite app_nil_r in I. by destruct p.
  - cbn [seq map] in I. set (b := r + Z.of_nat i * blockSize p) in *.
    assert (Hb : b ∈ all_blocks p).
    { apply (Inv_out_block I). apply elem_of_app. right. by left. }
    pose proof (Inv_block_range I b Hb) as Hrange.
    pose proof (inv_bs _ _ _ _ I) as Hbs. pose proof sizeof_Node_pos as HW.
    assert (Hw : wrap (r + wrap (Z.of_nat i * blockSize p)) = b).
    { unfold wrap. rewrite (Z.mod_small (_ * _)) by (unfold b in Hrange; nia).
      apply Z.mod_small. unfold b in *. nia. }
    destruct (Inv_deallocate h p fl _ b
                (rest ++ map (fun k => r + Z.of_nat k * blockSize p) (seq (S i) n)) I)
      as (h1 & Hd & _ & I1).
    { by rewrite Permutation_middle. }
    destruct (IH (S i) h1 _ _ rest Hr I1) as (h' & fr & Hc & Hlv & I').
    exists h', fr. cbn [carve]. rewrite Hw, Hd.
    replace (Z.of_nat i + 1) with (Z.of_nat (S i)) by lia.
    split; [exact Hc|]. split.
    + rewrite Hlv. unfold deallocate in Hd.
      destruct (store_ptr h b (freeList p)) as [h1'|] eqn:Hs; [|done].
      injection Hd as <-. by apply store_ptr_live in Hs.
    + cbn [seq map rev]. fold b. rewrite <- app_assoc. exact I'.
Qed.

(** One growth cycle from a state that satisfies the invariant. *)
Lemma allocateChunk_spec h p fl out :
  Inv h p fl out ->
  let sz := blockSize p * blockCount p in
  let r := malloc (live h) sz in
  (r = 0 /\ allocateChunk h p = BadAlloc h p) \/
  (r ≠ 0 /\ exists h' fr,
     allocateChunk h p =
       Ok tt h' (mkPool fr (allocatedChunks p ++ [r]) (blockSize p) (blockCount p)) /\
     live h' = (r, sz) :: live h /\
     Inv h' (mkPool fr (allocatedChunks p ++ [r]) (blockSize p) (blockCount p))
         (rev (blocks_of (blockSize p) (blockCount p) r) ++ fl) out).
Proof.
  intros I sz r. unfold allocateChunk. rewrite (Inv_wrap_size _ _ _ _ I).
  fold sz r. destruct (Z.eqb_spec r 0) as [Hr|Hr]; [by left|right].
  split; [done|].
  destruct (Inv_grow h p fl out I Hr) as (Hr0 & _ & I1). fold sz r in I1.
  destruct (carve_spec r (Z.to_nat (blockCount p)) 0 _ _ fl out Hr0 I1)
    as (h' & fr & Hc & Hlv & I').
  exists h', fr. simpl in *. done.
Qed.

Lemma FreeList_null h l : FreeList h 0 l -> l = [].
Proof. by inversion 1. Qed.

Lemma FreeList_nonnull h head l :
  FreeList h head l -> head ≠ 0 -> exists l', l = head :: l'.
Proof. destruct 1; [done|eauto]. Qed.

(** Whatever the fuel, a returning [allocate] keeps the invariant, hands
    out the block it returns, and only appends to the chunk list. *)
Lemma allocate_Inv fuel : forall h p fl out b h' p',
  Inv h p fl out ->
  allocate fuel h p = Ok b h' p' ->
  exists fl',
    Inv h' p' fl' (b :: out) /\
    allocatedChunks p `prefix_of` allocatedChunks p' /\
    blockSize p' = blockSize p /\ blockCount p' = blockCount p.
Proof.
  induction fuel as [|fuel IH]; intros h p fl out b h' p' I Ha; [done|].
  destruct (Z.eq_dec (freeList p) 0) as [Hz|Hnz].
  - cbn [allocate] in Ha. rewrite Hz in Ha. simpl in Ha.
    destruct (allocateChunk_spec h p fl out I) as [(_ & Hc)|(_ & h1 & fr & Hc & _ & I1)];
      rewrite Hc in Ha; [done|].
    destruct (IH _ _ _ _ _ _ _ I1 Ha) as (fl' & I' & Hpre & Hbs & Hbc).
    exists fl'. simpl in *. split; [done|]. split; [|done].
    etrans; [|exact Hpre]. by apply prefix_app_r.
  - destruct (FreeList_nonnull _ _ _ (inv_free _ _ _ _ I) Hnz) as (fl' & ->).
    destruct (Inv_pop h p _ fl' out I) as (next & _ & _ & _ & Hpop & I').
    rewrite Hpop in Ha. injection Ha as <- <- <-.
    exists fl'. done.
Qed.

(** With at least one block per chunk, depth 2 is enough: [allocate]
    returns a block or throws, and it grows the pool at most once. *)
Lemma allocate_total h p fl out :
  Inv h p fl out -> 1 <= blockCount p ->
  (freeList p ≠ 0 /\ exists next, forall fuel,
     allocate (S fuel) h p =
       Ok (freeList p) h (mkPool next (allocatedChunks p) (blockSize p) (blockCount p))) \/
  (freeList p = 0 /\ malloc (live h) (blockSize p * blockCount p) = 0 /\
     forall fuel, allocate (S fuel) h p = BadAlloc h p) \/
  (freeList p = 0 /\ malloc (live h) (blockSize p * blockCount p) ≠ 0 /\
     allocate 1 h p = OutOfFuel /\
     exists b h' fr, forall fuel,
       allocate (S (S fuel)) h p =
         Ok b h' (mkPool fr (allocatedChunks p ++ [malloc (live h) (blockSize p * blockCount p)])
                         (blockSize p) (blockCount p))).
Proof.
  intros I Hbc.
  destruct (Z.eq_dec (freeList p) 0) as [Hz|Hnz].
  - right. pose proof (inv_free _ _ _ _ I) as Hfl. rewrite Hz in Hfl.
    apply FreeList_null in Hfl. subst fl.
    destruct (allocateChunk_spec h p [] out I) as [(Hr & Hc)|(Hr & h1 & fr & Hc & _ & I1)].
    + left. do 2 (split; [done|]). intros fuel. cbn [allocate]. rewrite Hz. simpl.
      by rewrite Hc.
    + right. do 2 (split; [done|]). split.
      { cbn [allocate]. rewrite Hz. simpl. by rewrite Hc. }
      rewrite app_nil_r in I1.
      destruct (rev (blocks_of (blockSize p) (blockCount p)
                  (malloc (live h) (blockSize p * blockCount p)))) as [|b l] eqn:Hrev.
      { apply (f_equal length) in Hrev. rewrite length_rev, length_blocks_of in Hrev.
        simpl in Hrev. lia. }
      destruct (Inv_pop _ _ b l out I1) as (next & _ & _ & _ & Hpop & _).
      exists b, h1, next. intros fuel. cbn [allocate]. rewrite Hz.
      change (0 =? 0) with true. cbv iota. rewrite Hc. apply Hpop.
  - left. split; [done|].
    destruct (FreeList_nonnull _ _ _ (inv_free _ _ _ _ I) Hnz) as (fl' & ->).
    destruct (Inv_pop h p _ fl' out I) as (next & _ & _ & _ & Hpop & _).
    exists next. intros fuel. apply Hpop.
Qed.

Lemma existsb_in_block bs addr held :
  existsb (in_block bs addr) held = true ->
  exists b, b ∈ held /\ b <= addr < b + bs.
Proof.
  rewrite existsb_exists. intros (b & Hin & Hb). exists b.
  apply list_elem_of_In in Hin. unfold in_block in Hb.
  apply andb_true_iff in Hb as [H1 H2]. split; [done|]. lia.
Qed.

(** A returning sequence of calls keeps the invariant; the handles the
    caller holds are exactly the blocks that are not on the free list. *)
Lemma exec_Inv fuel cs : forall h p fl held held' h' p',
  Inv h p fl held ->
  exec fuel cs h p held = Ok held' h' p' ->
  exists fl',
    Inv h' p' fl' held' /\
    allocatedChunks p `prefix_of` allocatedChunks p' /\
    blockSize p' = blockSize p /\ blockCount p' = blockCount p.
Proof.
  induction cs as [|c cs IH]; intros h p fl held held' h' p' I He.
  - simpl in He. injection He as <- <- <-. by exists fl.
  - destruct c as [|ptr|addr byte]; cbn [exec] in He.
    + destruct (allocate fuel h p) as [b h1 p1| | |] eqn:Ha; try done.
      destruct (allocate_Inv _ _ _ _ _ _ _ _ I Ha) as (fl1 & I1 & Hpre & Hbs & Hbc).
      destruct (IH _ _ _ _ _ _ _ I1 He) as (fl' & I' & Hpre' & Hbs' & Hbc').
      exists fl'. split; [done|]. split; [by etrans|]. split; congruence.
    + destruct (decide (ptr ∈ held)) as [Hin|]; [|done].
      destruct (Inv_deallocate h p fl held ptr (release ptr held) I (release_perm _ _ Hin))
        as (h1 & Hd & _ & I1).
      rewrite Hd in He.
      destruct (IH _ _ _ _ _ _ _ I1 He) as (fl' & I' & Hpre' & Hbs' & Hbc').
      exists fl'. done.
    + destruct (existsb (in_block (blockSize p) addr) held) eqn:Hex; [|done].
      simpl in He.
      destruct ((0 <=? byte) && (byte <? 256)); [|done].
      apply existsb_in_block in Hex as (b & Hb & Hr).
      pose proof (Inv_scribble h p fl held b addr byte I Hb Hr) as I1.
      destruct (IH _ _ _ _ _ _ _ I1 He) as (fl' & I' & Hpre' & Hbs' & Hbc').
      exists fl'. done.
Qed.

(** The carving loop returns normally or runs into an invalid store. *)
Lemma carve_outcome n : forall r i h p,
  (exists h' p', carve n r i h p = Ok tt h' p') \/ carve n r i h p = Undefined.
Proof.
  induction n as [|n IH]; intros r i h p; cbn [carve]; [left; eauto|].
  unfold deallocate. destruct (store_ptr h _ _) as [h1|]; [|by right].
  apply IH.
Qed.

(** When it returns normally every store it made was inside live memory. *)
Lemma carve_Ok_valid n : forall r i h p u h' p',
  carve n r i h p = Ok u h' p' ->
  forall k, (k < n)%nat ->
    valid_access (live h) (wrap (r + wrap ((i + Z.of_nat k) * blockSize p)))
                 sizeof_Node = true.
Proof.
  induction n as [|n IH]; intros r i h p u h' p' Hc k Hk; [lia|].
  cbn [carve] in Hc. unfold deallocate in Hc.
  destruct (store_ptr h _ _) as [h1|] eqn:Hs; [|done].
  destruct k as [|k].
  - rewrite Z.add_0_r. unfold store_ptr in Hs.
    by destruct (valid_access (live h) _ sizeof_Node).
  - specialize (IH _ _ _ _ _ _ _ Hc k ltac:(lia)).
    rewrite (store_ptr_live _ _ _ _ Hs) in IH. cbn [blockSize] in IH.
    by replace (i + Z.of_nat (S k)) with (i + 1 + Z.of_nat k) by lia.
Qed.

(** A growth cycle with a block smaller than one link cannot return: the
    store into the last block runs past the end of the chunk. *)
Lemma growth_small_block_undefined h p :
  malloc_ok -> regions_ok (live h) ->
  0 < blockSize p < sizeof_Node -> 1 <= blockCount p ->
  blockSize p * blockCount p < SIZE_MAX1 ->
  malloc (live h) (blockSize p * blockCount p) ≠ 0 ->
  allocateChunk h p = Undefined.
Proof.
  intros Hm Hheap Hbs Hbc Hfit Hr. unfold allocateChunk.
  set (sz := blockSize p * blockCount p) in *.
  assert (Hsz : 0 < sz) by (unfold sz; nia).
  assert (Hw : wrap sz = sz) by (unfold wrap; apply Z.mod_small; lia).
  rewrite Hw. set (r := malloc (live h) sz) in *.
  destruct (Z.eqb_spec r 0) as [|_]; [done|]. cbn [blockCount].
  destruct (Hm (live h) sz ltac:(lia)) as [?|(Hr0 & Hrm & Hap)]; [done|].
  fold r in Hr0, Hrm, Hap. rewrite Forall_forall in Hap.
  match goal with |- carve ?n ?b ?i ?h1 ?p1 = _ =>
    destruct (carve_outcome n b i h1 p1) as [(h' & p' & Hc)|Hc]; [|exact Hc];
    pose proof (carve_Ok_valid _ _ _ _ _ _ _ _ Hc (Z.to_nat (blockCount p) - 1)%nat
                  ltac:(lia)) as Hv
  end.
  exfalso. cbn [live blockSize] in Hv.
  replace (0 + Z.of_nat (Z.to_nat (blockCount p) - 1)) with (blockCount p - 1) in Hv by lia.
  assert (Ha : wrap (r + wrap ((blockCount p - 1) * blockSize p)) =
               r + (blockCount p - 1) * blockSize p).
  { unfold wrap. rewrite (Z.mod_small (_ * _)) by (unfold sz in *; nia).
    apply Z.mod_small. unfold sz in *. nia. }
  rewrite Ha in Hv. apply valid_access_spec in Hv as (c & Hc' & H1 & H2).
  apply elem_of_cons in Hc' as [->|Hin]; simpl in *.
  - unfold sz in *. nia.
  - specialize (Hap _ Hin). unfold apart in Hap. simpl in Hap. unfold sz in *. nia.
Qed.

(** A constructor that returns has stored a block size that can hold one
    link. *)
Lemma ctor_Ok_blockSize bs bc h0 h1 p1 :
  sane_start bs bc h0 ->
  MemoryPool_ctor bs bc h0 = Ok tt h1 p1 ->
  sizeof_Node <= bs.
Proof.
  intros (Hm & Hheap & Hbs & Hbc & Hfit) Hc.
  destruct (Z.le_gt_cases sizeof_Node bs) as [|Hlt]; [done|exfalso].
  unfold MemoryPool_ctor in Hc.
  destruct (Z.eq_dec (malloc (live h0) (bs * bc)) 0) as [Hz|Hnz].
  - unfold allocateChunk in Hc. cbn [blockSize blockCount live] in Hc.
    replace (wrap (bs * bc)) with (bs * bc) in Hc
      by (unfold wrap; symmetry; apply Z.mod_small; nia).
    by rewrite Hz in Hc.
  - rewrite (growth_small_block_undefined h0 (mkPool 0 [] bs bc)) in Hc;
      simpl; try done; lia.
Qed.

(** The constructor establishes the invariant: one chunk, every block of
    it on the free list, nothing handed out. *)
Lemma ctor_Inv bs bc h0 h1 p1 :
  sane_start bs bc h0 ->
  MemoryPool_ctor bs bc h0 = Ok tt h1 p1 ->
  let r := malloc (live h0) (bs * bc) in
  r ≠ 0 /\
  allocatedChunks p1 = [r] /\ blockSize p1 = bs /\ blockCount p1 = bc /\
  live h1 = (r, bs * bc) :: live h0 /\
  Inv h1 p1 (rev (blocks_of bs bc r)) [].
Proof.
  intros Hs Hc r. pose proof (ctor_Ok_blockSize _ _ _ _ _ Hs Hc) as HW.
  destruct Hs as (Hm & Hheap & Hbs & Hbc & Hfit).
  assert (I0 : Inv h0 (mkPool 0 [] bs bc) [] []).
  { constructor; simpl; try done.
    - lia.
    - constructor.
    - apply NoDup_nil_2.
    - by intros x y ?%elem_of_nil. }
  unfold MemoryPool_ctor in Hc.
  destruct (allocateChunk_spec _ _ _ _ I0) as [(_ & Hc')|(Hr & h' & fr & Hc' & Hlv & I1)];
    simpl in *; rewrite Hc' in Hc; [done|].
  injection Hc as <- <-. rewrite app_nil_r in I1. done.
Qed.

Lemma reachable_Inv h p held :
  reachable h p held -> exists fl, Inv h p fl held /\ 1 <= blockCount p.
Proof.
  intros (bs & bc & h0 & h1 & p1 & fuel & cs & Hs & Hc & He).
  destruct (ctor_Inv _ _ _ _ _ Hs Hc) as (_ & _ & _ & Hbc1 & _ & I1).
  destruct (exec_Inv _ _ _ _ _ _ _ _ _ I1 He) as (fl & I & _ & _ & Hbc).
  exists fl. split; [done|]. destruct Hs as (_ & _ & _ & ? & _). lia.
Qed.

Lemma under_construction_Inv h p :
  under_construction h p -> sizeof_Node <= blockSize p -> Inv h p [] [].
Proof.
  intros (bs & bc & (Hm & Hheap & Hbs & Hbc & Hfit) & ->) HW.
  constructor; simpl in *; try done.
  - lia.
  - constructor.
  - apply NoDup_nil_2.
  - by intros x y ?%elem_of_nil.
Qed.

Lemma exec_app fuel cs1 cs2 : forall h p held,
  exec fuel (cs1 ++ cs2) h p held =
  match exec fuel cs1 h p held with
  | Ok held1 h1 p1 => exec fuel cs2 h1 p1 held1
  | BadAlloc h1 p1 => BadAlloc h1 p1
  | Undefined => Undefined
  | OutOfFuel => OutOfFuel
  end.
Proof.
  induction cs1 as [|c cs1 IH]; intros h p held; [done|].
  destruct c as [|ptr|addr byte]; cbn [app exec].
  - destruct (allocate fuel h p); auto.
  - destruct (decide (ptr ∈ held)); [|done].
    destruct (deallocate ptr h p); auto.
  - destruct (existsb _ held && (0 <=? byte) && (byte <? 256)); auto.
Qed.

Lemma length_release b held :
  b ∈ held -> S (length (release b held)) = length held.
Proof. intros Hb. by rewrite (Permutation_length (release_perm b held Hb)). Qed.

(** The handles held follow the calls: one more for each [Allocate], one
    fewer for each [Deallocate]. *)
Lemma exec_held_count fuel cs : forall h p held held' h' p',
  exec fuel cs h p held = Ok held' h' p' ->
  (length held' + deallocs cs = length held + allocs cs)%nat.
Proof.
  induction cs as [|c cs IH]; intros h p held held' h' p' He.
  - simpl in He. injection He as <- <- <-. simpl. lia.
  - destruct c as [|ptr|addr byte]; cbn [exec] in He.
    + destruct (allocate fuel h p) as [b h1 p1| | |]; try done.
      apply IH in He. simpl in *. lia.
    + destruct (decide (ptr ∈ held)) as [Hin|]; [|done].
      destruct (deallocate ptr h p) as [u h1 p1| | |]; try done.
      apply IH in He. pose proof (length_release _ _ Hin). simpl. lia.
    + destruct (existsb _ held && (0 <=? byte) && (byte <? 256)); [|done].
      apply IH in He. simpl. lia.
Qed.

(** Popping [k] blocks that are on the free list needs no growth. *)
Lemma exec_pops fuel : forall k h p fl out,
  Inv h p fl out -> (k <= length fl)%nat ->
  exists fr,
    exec (S fuel) (repeat Allocate k) h p out =
      Ok (rev (take k fl) ++ out) h
         (mkPool fr (allocatedChunks p) (blockSize p) (blockCount p)) /\
    Inv h (mkPool fr (allocatedChunks p) (blockSize p) (blockCount p))
        (drop k fl) (rev (take k fl) ++ out).
Proof.
  induction k as [|k IH]; intros h p fl out I Hk.
  - exists (freeList p). simpl. rewrite drop_0. by destruct p.
  - destruct fl as [|b fl]; [simpl in Hk; lia|].
    destruct (Inv_pop h p b fl out I) as (next & _ & _ & _ & Hpop & I1).
    destruct (IH h _ fl (b :: out) I1) as (fr & He & I'); [simpl in Hk; lia|].
    exists fr. cbn [repeat exec]. rewrite Hpop. simpl in *.
    rewrite <- app_assoc. simpl. done.
Qed.

(** A run of [N] allocations either returns [N] new handles or stops at
    the first failing malloc; it never goes wrong and never needs
    recursion deeper than 2. *)
Lemma exec_allocs fuel : forall N h p fl held,
  Inv h p fl held -> 1 <= blockCount p ->
  match exec (S (S fuel)) (repeat Allocate N) h p held with
  | Ok held' h' p' =>
      exists new fl', held' = new ++ held /\ length new = N /\
                      Inv h' p' fl' held'
  | BadAlloc h' p' =>
      freeList p' = 0 /\ malloc (live h') (blockSize p' * blockCount p') = 0
  | _ => False
  end.
Proof.
  induction N as [|N IH]; intros h p fl held I Hbc.
  - simpl. exists [], fl. done.
  - cbn [repeat exec].
    assert (Hstep : (exists b h1 p1, allocate (S (S fuel)) h p = Ok b h1 p1) \/
                    (allocate (S (S fuel)) h p = BadAlloc h p /\ freeList p = 0 /\
                     malloc (live h) (blockSize p * blockCount p) = 0)).
    { destruct (allocate_total h p fl held I Hbc)
        as [(_ & next & Ha)|[(Hz & Hm & Ha)|(Hz & Hm & _ & b & h1 & fr & Ha)]];
        [left|right|left]; eauto. }
    destruct Hstep as [(b & h1 & p1 & Ha)|(Ha & Hz & Hm)]; rewrite Ha; [|done].
    destruct (allocate_Inv _ _ _ _ _ _ _ _ I Ha) as (fl1 & I1 & _ & _ & Hbc1).
    specialize (IH h1 p1 fl1 (b :: held) I1). rewrite Hbc1 in IH. specialize (IH Hbc).
    destruct (exec (S (S fuel)) (repeat Allocate N) h1 p1 (b :: held))
      as [held' h' p'| | |]; try done.
    destruct IH as (new & fl' & -> & Hlen & I').
    exists (new ++ [b]), fl'. rewrite <- app_assoc. split; [done|].
    split; [|done]. rewrite length_app. simpl. lia.
Qed.


Lemma Inv_wrap_block h p fl out r i :
  Inv h p fl out -> 0 < r -> 0 <= i ->
  r + i * blockSize p ∈ all_blocks p ->
  wrap (r + wrap (i * blockSize p)) = r + i * blockSize p.
Proof.
  intros I Hr Hi Hb. pose proof (Inv_block_range I _ Hb) as Hrange.
  pose proof (inv_bs _ _ _ _ I). pose proof sizeof_Node_pos.
  unfold wrap. rewrite (Z.mod_small (_ * _)) by nia.
  apply Z.mod_small. nia.
Qed.



(** ** One thread alone is the sequential pool *)

Lemma solo_refl t h p : solo t h p t h p.
Proof. by exists 0%nat. Qed.

Lemma solo_step t h p t1 h1 p1 t' h' p' :
  tstep t h p = Step t1 h1 p1 -> solo t1 h1 p1 t' h' p' -> solo t h p t' h' p'.
Proof.
  intros Hs (n & Hn). exists (S n). cbn [repeat run]. simpl. by rewrite Hs.
Qed.

Lemma solo_trans t h p t1 h1 p1 t' h' p' :
  solo t h p t1 h1 p1 -> solo t1 h1 p1 t' h' p' -> solo t h p t' h' p'.
Proof.
  intros (n & Hn) Hs. revert t h p Hn. induction n as [|n IH]; intros t h p Hn.
  - simpl in Hn. by injection Hn as -> -> ->.
  - cbn [repeat run] in Hn. simpl in Hn.
    destruct (tstep t h p) as [t2 h2 p2| |] eqn:Hstep; [|by apply IH|done].
    eapply solo_step; [exact Hstep|]. by apply IH.
Qed.

(** [deallocate], step by step. *)
Lemma solo_deallocate cs held k ptr h p h' p' :
  deallocate ptr h p = Ok tt h' p' ->
  solo (mkThread cs (D_load ptr k) held) h p (mkThread cs (after k) held) h' p'.
Proof.
  unfold deallocate. destruct (store_ptr h ptr (freeList p)) as [h1|] eqn:Hs; [|done].
  intros [= <- <-].
  eapply solo_step; [reflexivity|]. simpl.
  eapply solo_step; [unfold tstep; simpl; by rewrite Hs|].
  eapply solo_step; [unfold tstep; simpl; by rewrite Z.eqb_refl|].
  apply solo_refl.
Qed.

(** The carving loop, step by step. *)
Lemma solo_carve cs held block n : forall i h p h' p',
  0 <= i -> i + Z.of_nat n <= blockCount p ->
  carve n block i h p = Ok tt h' p' ->
  solo (mkThread cs (G_loop block i) held) h p
       (mkThread cs (G_loop block (i + Z.of_nat n)) held) h' p' /\
  blockCount p' = blockCount p.
Proof.
  induction n as [|n IH]; intros i h p h' p' Hi Hn Hc.
  - simpl in Hc. injection Hc as <- <-. rewrite Z.add_0_r. split; [apply solo_refl|done].
  - cbn [carve] in Hc.
    destruct (deallocate (wrap (block + wrap (i * blockSize p))) h p)
      as [[] h1 p1| | |] eqn:Hd; try done.
    assert (Hbc1 : blockCount p1 = blockCount p).
    { unfold deallocate in Hd. destruct (store_ptr h _ _); [|done].
      by injection Hd as <- <-. }
    destruct (IH (i + 1) h1 p1 h' p') as (Hsolo & Hbc); [lia|lia|done|].
    split; [|congruence].
    eapply solo_step.
    { unfold tstep. simpl. destruct (Z.ltb_spec i (blockCount p)); [reflexivity|lia]. }
    eapply solo_trans; [apply (solo_deallocate _ _ (K_carve block i) _ _ _ _ _ Hd)|].
    simpl. by replace (i + Z.of_nat (S n)) with (i + 1 + Z.of_nat n) by lia.
Qed.

(** [allocate], step by step. *)
Lemma solo_allocate cs held fuel : forall h p b h' p',
  0 <= blockCount p ->
  allocate fuel h p = Ok b h' p' ->
  solo (mkThread cs A_load held) h p (mkThread cs Idle (b :: held)) h' p'.
Proof.
  induction fuel as [|fuel IH]; intros h p b h' p' Hbc Ha; [done|].
  cbn [allocate] in Ha.
  eapply solo_step; [reflexivity|]. simpl.
  destruct (Z.eqb_spec (freeList p) 0) as [Hz|Hnz].
  - eapply solo_step; [unfold tstep; simpl; by rewrite Hz|]. simpl.
    unfold allocateChunk in Ha.
    destruct (Z.eqb_spec (malloc (live h) (wrap (blockSize p * blockCount p))) 0)
      as [|Hr]; [done|].
    eapply solo_step.
    { unfold tstep. simpl.
      destruct (Z.eqb_spec (malloc (live h) (wrap (blockSize p * blockCount p))) 0);
        [contradiction|reflexivity]. }
    eapply solo_step; [reflexivity|]. simpl.
    match type of Ha with context [carve ?n ?b0 ?i ?h1 ?p1] =>
      destruct (carve n b0 i h1 p1) as [[] h2 p2| | |] eqn:Hc; try done;
      destruct (solo_carve cs held b0 n 0 h1 p1 h2 p2) as (Hsolo & Hbc2);
        [lia|simpl; lia|exact Hc|]
    end.
    eapply solo_trans; [exact Hsolo|].
    eapply solo_step.
    { unfold tstep. simpl. rewrite Hbc2. simpl.
      destruct (Z.ltb_spec (0 + Z.of_nat (Z.to_nat (blockCount p))) (blockCount p));
        [lia|reflexivity]. }
    apply IH; [|done]. rewrite Hbc2. simpl. lia.
  - destruct (load_ptr h (freeList p)) as [next|] eqn:Hl; [|done].
    injection Ha as <- <- <-.
    eapply solo_step.
    { unfold tstep. simpl.
      destruct (Z.eqb_spec (freeList p) 0); [contradiction|reflexivity]. }
    eapply solo_step; [unfold tstep; simpl; by rewrite Hl|].
    eapply solo_step; [unfold tstep; simpl; by rewrite Z.eqb_refl|].
    apply solo_refl.
Qed.

(** X19.  A sequence of calls made by a thread that runs alone ends in the
    state that the sequential model computes. *)
Lemma solo_exec fuel cs : forall h p held held' h' p',
  0 <= blockCount p ->
  exec fuel cs h p held = Ok held' h' p' ->
  solo (mkThread cs Idle held) h p (mkThread [] Idle held') h' p'.
Proof.
  induction cs as [|c cs IH]; intros h p held held' h' p' Hbc He.
  - simpl in He. injection He as <- <- <-. apply solo_refl.
  - destruct c as [|ptr|addr byte]; cbn [exec] in He.
    + destruct (allocate fuel h p) as [b h1 p1| | |] eqn:Ha; try done.
      eapply solo_step; [reflexivity|].
      eapply solo_trans; [apply (solo_allocate cs held fuel _ _ _ _ _ Hbc Ha)|].
      apply IH; [|done].
      clear He IH. revert h p Hbc Ha. induction fuel as [|fuel IHf]; intros h p Hbc Ha; [done|].
      cbn [allocate] in Ha. destruct (freeList p =? 0).
      * unfold allocateChunk in Ha. destruct (_ =? 0) in Ha; [done|].
        match type of Ha with context [carve ?n ?b0 ?i ?h1 ?p1] =>
          destruct (carve n b0 i h1 p1) as [[] h2 p2| | |] eqn:Hc; try done;
          destruct (solo_carve [] [] b0 n 0 h1 p1 h2 p2) as (_ & Hbc2);
            [lia|simpl; lia|exact Hc|]
        end.
        apply (IHf h2 p2); [|done]. rewrite Hbc2. simpl. lia.
      * destruct (load_ptr h (freeList p)); [|done]. by injection Ha as <- <- <-.
    + destruct (decide (ptr ∈ held)) as [Hin|]; [|done].
      destruct (deallocate ptr h p) as [[] h1 p1| | |] eqn:Hd; try done.
      eapply solo_step.
      { unfold tstep. simpl.
        destruct (decide (ptr ∈ held)); [reflexivity|contradiction]. }
      eapply solo_trans; [apply (solo_deallocate cs _ K_return _ _ _ _ _ Hd)|].
      apply IH; [|done]. unfold deallocate in Hd.
      destruct (store_ptr h ptr (freeList p)); [|done]. by injection Hd as <- <-.
    + destruct (existsb (in_block (blockSize p) addr) held && (0 <=? byte) && (byte <? 256))
        eqn:Hok; [|done].
      eapply solo_step; [unfold tstep; simpl; by rewrite Hok|].
      by apply IH.
Qed.

(** With a requested block size below the size of a link the constructor
    never returns a pool: either malloc fails, or the last store of the
    carving loop leaves the chunk. *)
Lemma ctor_small_blockSize bs bc h0 :
  sane_start bs bc h0 -> bs < sizeof_Node ->
  MemoryPool_ctor bs bc h0 = Undefined \/
  (malloc (live h0) (bs * bc) = 0 /\
   MemoryPool_ctor bs bc h0 = BadAlloc h0 (mkPool 0 [] bs bc)).
Proof.
  intros (Hm & Hheap & Hbs & Hbc & Hfit) Hlt. unfold MemoryPool_ctor.
  destruct (Z.eq_dec (malloc (live h0) (bs * bc)) 0) as [Hz|Hnz].
  - right. split; [done|]. unfold allocateChunk. cbn [blockSize blockCount live].
    replace (wrap (bs * bc)) with (bs * bc)
      by (unfold wrap; symmetry; apply Z.mod_small; nia).
    by rewrite Hz.
  - left. apply growth_small_block_undefined; simpl; try done; lia.
Qed.

(** * The claims *)

(** C9.  In single-threaded use the free list is a stack: in every
    reachable state, deallocating a block [b] the caller holds and then
    calling [allocate] returns exactly [b], and the pool object is back in
    the state it had before the two calls. *)
Theorem deallocate_then_allocate_returns_same h p held b fuel :
  reachable h p held -> b ∈ held ->
  exists h1 p1,
    deallocate b h p = Ok tt h1 p1 /\
    allocate (S fuel) h1 p1 = Ok b h1 p.
Proof.
  intros Hre Hb. destruct (reachable_Inv _ _ _ Hre) as (fl & I & _).
  destruct (Inv_deallocate h p fl held b (release b held) I (release_perm _ _ Hb))
    as (h1 & Hd & Hs & I1).
  destruct (Inv_pop _ _ b fl _ I1) as (next & Hl & _ & _ & Hpop & _).
  exists h1, (mkPool b (allocatedChunks p) (blockSize p) (blockCount p)).
  split; [done|]. rewrite Hpop. simpl.
  rewrite (load_store_same _ _ _ _ Hs (Inv_head_range I)) in Hl.
  injection Hl as <-. by destruct p.
Qed.

(** C6.  When malloc returns the null pointer during a growth cycle,
    [allocateChunk] throws [std::bad_alloc] with the heap and the pool
    exactly as they were (no chunk recorded, free list untouched); an
    [allocate] that found the free list empty passes the exception on at
    once, whatever recursion depth it is allowed, and the calls after it
    are not run; the constructor passes it on as well.  Conversely, a
    [std::bad_alloc] out of [allocateChunk], out of the constructor, or
    out of [allocate] in a reachable state always comes from a failed
    malloc and leaves the heap and the pool as they were. *)
Theorem bad_alloc_propagates :
  (forall h p,
     malloc (live h) (wrap (blockSize p * blockCount p)) = 0 ->
     allocateChunk h p = BadAlloc h p /\
     (freeList p = 0 -> forall fuel, allocate (S fuel) h p = BadAlloc h p) /\
     (freeList p = 0 -> forall fuel cs held,
        exec (S fuel) (Allocate :: cs) h p held = BadAlloc h p) /\
     (forall bs bc, p = mkPool 0 [] bs bc -> MemoryPool_ctor bs bc h = BadAlloc h p)) /\
  (forall h p h' p',
     allocateChunk h p = BadAlloc h' p' ->
     h' = h /\ p' = p /\ malloc (live h) (wrap (blockSize p * blockCount p)) = 0) /\
  (forall bs bc h0 h' p',
     MemoryPool_ctor bs bc h0 = BadAlloc h' p' ->
     h' = h0 /\ p' = mkPool 0 [] bs bc /\ malloc (live h0) (wrap (bs * bc)) = 0) /\
  (forall h p held fuel h' p',
     reachable h p held ->
     allocate fuel h p = BadAlloc h' p' ->
     h' = h /\ p' = p /\ freeList p = 0 /\
     malloc (live h) (wrap (blockSize p * blockCount p)) = 0).
Proof.
  assert (Hchunk : forall h p h' p',
     allocateChunk h p = BadAlloc h' p' ->
     h' = h /\ p' = p /\ malloc (live h) (wrap (blockSize p * blockCount p)) = 0).
  { intros h p h' p'. unfold allocateChunk.
    destruct (Z.eqb_spec (malloc (live h) (wrap (blockSize p * blockCount p))) 0) as [Hz|_].
    - by intros [= <- <-].
    - match goal with |- carve ?n ?b ?i ?h1 ?p1 = _ -> _ =>
        destruct (carve_outcome n b i h1 p1) as [(h2 & p2 & ->)| ->]; done
      end. }
  split; [|split; [exact Hchunk|split]].
  - intros h p Hm.
    assert (Hc : allocateChunk h p = BadAlloc h p).
    { unfold allocateChunk. by rewrite Hm. }
    assert (Ha : freeList p = 0 -> forall fuel, allocate (S fuel) h p = BadAlloc h p).
    { intros Hz fuel. cbn [allocate]. rewrite Hz. simpl. by rewrite Hc. }
    split; [done|]. split; [done|]. split.
    + intros Hz fuel cs held. cbn [exec]. by rewrite Ha.
    + intros bs bc ->. exact Hc.
  - intros bs bc h0 h' p' Hc. unfold MemoryPool_ctor in Hc.
    by apply Hchunk in Hc.
  - intros h p held fuel h' p' Hre Ha.
    destruct (reachable_Inv _ _ _ Hre) as (fl & I & Hbc).
    destruct fuel as [|fuel]; [done|].
    destruct (allocate_total h p fl held I Hbc)
      as [(_ & next & Hok)|[(Hz & Hm & Hbad)|(Hz & Hm & H1 & b & h1 & fr & Hok)]].
    + by rewrite Hok in Ha.
    + rewrite Hbad in Ha. injection Ha as <- <-.
      rewrite (Inv_wrap_size _ _ _ _ I). done.
    + destruct fuel as [|fuel]; [by rewrite H1 in Ha|by rewrite Hok in Ha].
Qed.

(** C2.  Take any reachable state of a pool and any sequence of calls
    that returns, in which every [Deallocate] passes a handle the caller
    holds.  At every point of the sequence the pool owns at least as many
    chunks as before, the handles held are those held at the start plus
    one per [Allocate] minus one per [Deallocate] (so a balanced sequence
    leaves the same number), and at the end the length of the free list
    is (chunks owned) * blockCount - (handles held). *)
Theorem conservation h p held fuel cs1 cs2 held2 h2 p2 :
  reachable h p held ->
  exec fuel (cs1 ++ cs2) h p held = Ok held2 h2 p2 ->
  exists held1 h1 p1 fl,
    exec fuel cs1 h p held = Ok held1 h1 p1 /\
    (length (allocatedChunks p) <= length (allocatedChunks p1))%nat /\
    (length (allocatedChunks p1) <= length (allocatedChunks p2))%nat /\
    FreeList h2 (freeList p2) fl /\
    Z.of_nat (length fl) =
      Z.of_nat (length (allocatedChunks p2)) * blockCount p2 - Z.of_nat (length held2) /\
    (length held2 + deallocs (cs1 ++ cs2) = length held + allocs (cs1 ++ cs2))%nat.
Proof.
  intros Hre He. destruct (reachable_Inv _ _ _ Hre) as (fl0 & I & _).
  pose proof (exec_held_count _ _ _ _ _ _ _ _ He) as Hcount.
  rewrite exec_app in He.
  destruct (exec fuel cs1 h p held) as [held1 h1 p1| | |] eqn:He1; try done.
  destruct (exec_Inv _ _ _ _ _ _ _ _ _ I He1) as (fl1 & I1 & Hpre1 & _).
  destruct (exec_Inv _ _ _ _ _ _ _ _ _ I1 He) as (fl & I2 & Hpre2 & _).
  exists held1, h1, p1, fl. split; [done|].
  split; [by apply prefix_length|]. split; [by apply prefix_length|].
  split; [apply (inv_free _ _ _ _ I2)|]. split; [|done].
  pose proof (Inv_count I2). pose proof (inv_bc _ _ _ _ I2). nia.
Qed.

(** C4.  From any reachable state of a pool, a run of [N] calls of
    [allocate] with no [deallocate] in between never goes wrong: either a
    malloc fails and the exception reaches the caller, or the run returns
    [N] handles that are pairwise distinct (and distinct from the handles
    already held), each of them inside a live chunk that the pool owns. *)
Theorem allocations_distinct h p held N fuel :
  reachable h p held ->
  match exec (S (S fuel)) (repeat Allocate N) h p held with
  | Ok held' h' p' =>
      exists new,
        held' = new ++ held /\ length new = N /\ NoDup (new ++ held) /\
        forall b, b ∈ new ->
          exists c, c ∈ allocatedChunks p' /\
                    (c, blockSize p' * blockCount p') ∈ live h' /\
                    c <= b /\ b + blockSize p' <= c + blockSize p' * blockCount p'
  | BadAlloc h' p' =>
      freeList p' = 0 /\ malloc (live h') (blockSize p' * blockCount p') = 0
  | _ => False
  end.
Proof.
  intros Hre. destruct (reachable_Inv _ _ _ Hre) as (fl & I & Hbc).
  pose proof (exec_allocs fuel N h p fl held I Hbc) as He.
  destruct (exec (S (S fuel)) (repeat Allocate N) h p held) as [held' h' p'| | |];
    try done.
  destruct He as (new & fl' & -> & Hlen & I').
  exists new. split; [done|]. split; [done|]. split; [apply (Inv_NoDup_out I')|].
  intros b Hb. apply (Inv_block_region I'), (Inv_out_block I').
  apply elem_of_app. by left.
Qed.

(** C3.  A freshly constructed pool with [n] blocks per chunk ([n >= 1]
    is part of [sane_start]) owns one chunk.  Its first [n] allocations
    return without any recursion and without touching malloc: the chunk
    list and the live regions stay as the constructor left them.  One
    more allocation calls malloc once: if that succeeds the pool owns
    exactly two chunks, and if it fails the exception reaches the caller
    with the single chunk. *)
Theorem growth_trigger bs n h0 h1 p1 fuel :
  sane_start bs n h0 ->
  MemoryPool_ctor bs n h0 = Ok tt h1 p1 ->
  length (allocatedChunks p1) = 1%nat /\
  (exists held h p,
     exec (S fuel) (repeat Allocate (Z.to_nat n)) h1 p1 [] = Ok held h p /\
     length held = Z.to_nat n /\
     allocatedChunks p = allocatedChunks p1 /\ live h = live h1) /\
  match exec (S (S fuel)) (repeat Allocate (S (Z.to_nat n))) h1 p1 [] with
  | Ok held h p => length held = S (Z.to_nat n) /\ length (allocatedChunks p) = 2%nat
  | BadAlloc h p =>
      malloc (live h1) (bs * n) = 0 /\ allocatedChunks p = allocatedChunks p1
  | _ => False
  end.
Proof.
  intros Hs Hc.
  assert (Hn : 1 <= n) by (destruct Hs as (_ & _ & _ & ? & _); done).
  destruct (ctor_Inv _ _ _ _ _ Hs Hc) as (Hr & Hch & Hbs & Hbc & Hlv & I1).
  set (fl := rev (blocks_of bs n (malloc (live h0) (bs * n)))) in *.
  assert (Hlen : length fl = Z.to_nat n).
  { unfold fl. by rewrite length_rev, length_blocks_of. }
  split; [by rewrite Hch|].
  assert (Hpops : forall f, exists fr,
    exec (S f) (repeat Allocate (Z.to_nat n)) h1 p1 [] =
      Ok (rev fl) h1 (mkPool fr (allocatedChunks p1) (blockSize p1) (blockCount p1)) /\
    Inv h1 (mkPool fr (allocatedChunks p1) (blockSize p1) (blockCount p1)) [] (rev fl)).
  { intros f. destruct (exec_pops f (Z.to_nat n) h1 p1 fl [] I1) as (fr & He & I'); [lia|].
    rewrite <- Hlen, take_ge, drop_ge, app_nil_r in * by lia. eauto. }
  split.
  - destruct (Hpops fuel) as (fr & He & _).
    eexists _, _, _. split; [exact He|]. rewrite length_rev. done.
  - destruct (Hpops (S fuel)) as (fr & He & I').
    change (repeat Allocate (S (Z.to_nat n)))
      with (Allocate :: repeat Allocate (Z.to_nat n)).
    rewrite repeat_cons, exec_app, He. cbn [exec].
    assert (Hfr : fr = 0).
    { pose proof (inv_free _ _ _ _ I') as Hf. simpl in Hf. by inversion Hf. }
    subst fr.
    assert (Hbc1 : 1 <= blockCount (mkPool 0 (allocatedChunks p1) (blockSize p1) (blockCount p1)))
      by (simpl; lia).
    destruct (allocate_total _ _ _ _ I' Hbc1)
      as [(Hnz & _)|[(_ & Hm & Ha)|(_ & Hm & _ & b & h' & fr & Ha)]];
      cbn [freeList allocatedChunks blockSize blockCount] in *; [lia| |].
    + rewrite Ha. split; [|done]. rewrite <- Hm, Hlv, Hbs, Hbc. done.
    + rewrite Ha. simpl. rewrite length_rev, Hlen, Hch. done.
Qed.

(** C10.  From a reachable state of a pool (constructed with at least
    one block per chunk), [allocate] needs recursion depth at most 2:
    with depth 2 it either returns a block, having grown the pool by at
    most one chunk, or throws with the state unchanged, and any deeper
    allowance gives the same outcome.  With zero blocks per chunk and an
    empty free list no depth is enough: [allocate] never returns a block,
    and as long as the zero-byte requests succeed each level of the
    recursion starts another one. *)
Theorem allocate_recursion_depth :
  (forall h p held, reachable h p held ->
     (forall fuel, allocate (S (S fuel)) h p = allocate 2 h p) /\
     match allocate 2 h p with
     | Ok b h' p' =>
         (length (allocatedChunks p') <= S (length (allocatedChunks p)))%nat
     | BadAlloc h' p' => h' = h /\ p' = p
     | _ => False
     end) /\
  (forall h p, blockCount p = 0 -> freeList p = 0 ->
     (forall fuel b h' p', allocate fuel h p ≠ Ok b h' p') /\
     (forall n, zero_requests_succeed n (live h) -> allocate n h p = OutOfFuel)).
Proof.
  split.
  - intros h p held Hre. destruct (reachable_Inv _ _ _ Hre) as (fl & I & Hbc).
    destruct (allocate_total h p fl held I Hbc)
      as [(Hnz & next & Ha)|[(Hz & Hm & Ha)|(Hz & Hm & _ & b & h1 & fr & Ha)]].
    + split; [intros fuel; by rewrite !Ha|]. rewrite Ha. simpl. lia.
    + split; [intros fuel; by rewrite !Ha|]. by rewrite Ha.
    + split; [intros fuel; by rewrite !Ha|]. rewrite Ha. simpl.
      rewrite length_app. simpl. lia.
  - intros h p Hbc Hz.
    assert (Hgrow : forall lv bs cs,
      allocateChunk (mkHeap (bytes h) lv) (mkPool 0 cs bs 0) =
      if malloc lv 0 =? 0 then BadAlloc (mkHeap (bytes h) lv) (mkPool 0 cs bs 0)
      else Ok tt (mkHeap (bytes h) ((malloc lv 0, 0) :: lv))
                 (mkPool 0 (cs ++ [malloc lv 0]) bs 0)).
    { intros lv bs cs. unfold allocateChunk. simpl.
      rewrite Z.mul_0_r. unfold wrap. rewrite Z.mod_0_l; [done|].
      pose proof SIZE_MAX1_pos. lia. }
    destruct h as [m lv], p as [fr cs bs bc]. simpl in *. subst fr bc. split.
    + intros fuel. revert lv cs. induction fuel as [|fuel IH]; intros lv cs b h' p'; [done|].
      cbn [allocate]. simpl. rewrite Hgrow.
      destruct (malloc lv 0 =? 0); [done|]. apply IH.
    + intros n. revert lv cs. induction n as [|n IH]; intros lv cs Hsucc; [done|].
      destruct Hsucc as (Hne & Hsucc).
      cbn [allocate]. simpl. rewrite Hgrow.
      destruct (Z.eqb_spec (malloc lv 0) 0); [done|]. by apply IH.
Qed.




(** * Further properties of the code *)

(** ** What the calls leave alone *)

Lemma deallocate_members ptr h p u h' p' :
  deallocate ptr h p = Ok u h' p' ->
  store_ptr h ptr (freeList p) = Some h' /\
  p' = mkPool ptr (allocatedChunks p) (blockSize p) (blockCount p) /\
  live h' = live h.
Proof.
  unfold deallocate. destruct (store_ptr h ptr (freeList p)) as [h1|] eqn:Hs; [|done].
  intros [= <- <-]. split; [done|]. split; [done|]. by apply store_ptr_live in Hs.
Qed.

Lemma store_ptr_bytes_outside h a v h' x :
  store_ptr h a v = Some h' -> x < a \/ a + sizeof_Node <= x ->
  bytes h' !! x = bytes h !! x.
Proof.
  unfold store_ptr. destruct (valid_access _ _ _); [|done]. intros [= <-] Hx. simpl.
  apply store_bytes_outside. rewrite length_encode_le, positive_nat_Z.
  unfold sizeof_Node in Hx. lia.
Qed.

Lemma carve_members n : forall r i h p u h' p',
  carve n r i h p = Ok u h' p' ->
  allocatedChunks p' = allocatedChunks p /\ blockSize p' = blockSize p /\
  blockCount p' = blockCount p /\ live h' = live h.
Proof.
  induction n as [|n IH]; intros r i h p u h' p' Hc.
  - simpl in Hc. by injection Hc as _ <- <-.
  - cbn [carve] in Hc.
    destruct (deallocate _ h p) as [u1 h1 p1| | |] eqn:Hd; try done.
    apply deallocate_members in Hd as (_ & -> & Hlv).
    apply IH in Hc as (? & ? & ? & ?). simpl in *. repeat split; congruence.
Qed.

(** X1.  [allocate] never returns the null pointer; the block it returns still
    holds, in its first [sizeof(Node)] bytes, the address of the block
    that is now the head of the free list; the block size and block count
    never change and the chunk list and the live regions only grow. *)
Theorem allocate_returns_linked_block fuel : forall h p b h' p',
  allocate fuel h p = Ok b h' p' ->
  b ≠ 0 /\
  load_ptr h' b = Some (freeList p') /\
  allocatedChunks p `prefix_of` allocatedChunks p' /\
  blockSize p' = blockSize p /\ blockCount p' = blockCount p /\
  (forall r, r ∈ live h -> r ∈ live h').
Proof.
  induction fuel as [|fuel IH]; intros h p b h' p' Ha; [done|].
  cbn [allocate] in Ha. destruct (Z.eqb_spec (freeList p) 0) as [Hz|Hnz].
  - unfold allocateChunk in Ha.
    destruct (malloc (live h) (wrap (blockSize p * blockCount p)) =? 0); [done|].
    match type of Ha with context [carve ?n ?b0 ?i ?h1 ?p1] =>
      destruct (carve n b0 i h1 p1) as [u h2 p2| | |] eqn:Hc; try done;
      apply carve_members in Hc as (Hch & Hbs & Hbc & Hlv)
    end.
    apply IH in Ha as (Hb & Hl & Hpre & Hbs' & Hbc' & Hmono). simpl in *.
    split; [done|]. split; [done|]. split.
    { etrans; [|exact Hpre]. rewrite Hch. by apply prefix_app_r. }
    split; [congruence|]. split; [congruence|].
    intros r Hr. apply Hmono. rewrite Hlv. by right.
  - destruct (load_ptr h (freeList p)) as [next|] eqn:Hl; [|done].
    injection Ha as <- <- <-. simpl. done.
Qed.

(** X2.  Giving the same block back twice in a row makes it its own successor:
    from then on every [allocate] returns that block and leaves the pool
    as it is, so any number of callers receive the same block. *)
Theorem double_free_cycle b h p h1 p1 :
  deallocate b h p = Ok tt h1 p1 ->
  0 < b < SIZE_MAX1 ->
  exists h2,
    deallocate b h1 p1 = Ok tt h2 p1 /\
    load_ptr h2 b = Some b /\
    forall fuel n held,
      exec (S fuel) (repeat Allocate n) h2 p1 held = Ok (repeat b n ++ held) h2 p1.
Proof.
  intros Hd Hb. apply deallocate_members in Hd as (Hs & -> & Hlv).
  assert (Hva : valid_access (live h1) b sizeof_Node = true).
  { rewrite Hlv. unfold store_ptr in Hs. by destruct (valid_access (live h) b sizeof_Node). }
  destruct (store_ptr_valid h1 b b Hva) as (h2 & Hs2 & Hlv2).
  assert (Hl : load_ptr h2 b = Some b) by (eapply load_store_same; [exact Hs2|lia]).
  exists h2. split; [unfold deallocate; simpl; by rewrite Hs2|]. split; [done|].
  intros fuel n. induction n as [|n IH]; intros held; [done|].
  cbn [repeat exec allocate]. simpl.
  destruct (Z.eqb_spec b 0); [lia|]. rewrite Hl.
  rewrite IH. change (b :: held) with ([b] ++ held).
  by rewrite app_assoc, <- repeat_cons.
Qed.

(** X3.  [deallocate] has no null check: passing the null pointer, as
    [Test::operator delete] does when it is called with one, is an access
    outside live memory. *)
Theorem deallocate_null_undefined h p :
  regions_ok (live h) ->
  deallocate 0 h p = Undefined /\ Test_operator_delete 0 h p = Undefined.
Proof.
  intros Hok.
  assert (Hva : valid_access (live h) 0 sizeof_Node = false).
  { destruct (valid_access (live h) 0 sizeof_Node) eqn:Hv; [|done].
    apply valid_access_spec in Hv as (c & Hc & H1 & _).
    apply (regions_ok_elem _ _ Hok) in Hc. lia. }
  unfold Test_operator_delete, deallocate, store_ptr. by rewrite Hva.
Qed.

(** ** The blocks of a pool *)

Lemma NoDup_chunks p :
  1 <= blockCount p -> NoDup (all_blocks p) -> NoDup (allocatedChunks p).
Proof.
  intros Hbc. unfold all_blocks.
  induction (allocatedChunks p) as [|c cs IH]; simpl; [constructor|].
  intros (Hnd1 & Hdis & Hnd2)%NoDup_app. constructor; [|by apply IH].
  intros Hin. apply (Hdis c).
  - apply elem_of_blocks_of. exists 0. split; [lia|lia].
  - clear -Hin Hbc. induction cs as [|d cs IH]; [by apply elem_of_nil in Hin|].
    simpl. apply elem_of_app. apply elem_of_cons in Hin as [->|Hin]; [left|right; by apply IH].
    apply elem_of_blocks_of. exists 0. split; lia.
Qed.

(** X4.  In every reachable state each block of every owned chunk is either on
    the free list or held by the caller, never both and never twice, and
    two different blocks are at least [blockSize] bytes apart. *)
Theorem blocks_partition h p held :
  reachable h p held ->
  exists fl,
    FreeList h (freeList p) fl /\ NoDup fl /\ NoDup held /\
    (forall b, b ∈ fl -> b ∉ held) /\
    (forall b, b ∈ all_blocks p <-> b ∈ fl \/ b ∈ held) /\
    (forall x y, x ∈ all_blocks p -> y ∈ all_blocks p -> x ≠ y ->
       x + blockSize p <= y \/ y + blockSize p <= x).
Proof.
  intros Hre. destruct (reachable_Inv _ _ _ Hre) as (fl & I & _).
  pose proof (inv_nodup _ _ _ _ I) as Hnd. rewrite <- (inv_part _ _ _ _ I) in Hnd.
  apply NoDup_app in Hnd as (Hfl & Hdis & Hheld).
  exists fl. split; [apply (inv_free _ _ _ _ I)|]. do 3 (split; [done|]). split.
  - intros b. rewrite <- (inv_part _ _ _ _ I). apply elem_of_app.
  - apply (inv_sep _ _ _ _ I).
Qed.

(** X5.  In every reachable state the chunks in [allocatedChunks] are pairwise
    different live regions of [blockSize * blockCount] bytes that do not
    overlap; and no sequence of [allocate]/[deallocate] calls ever frees a
    region. *)
Theorem chunks_stay_live h p held :
  reachable h p held ->
  NoDup (allocatedChunks p) /\
  (forall c, c ∈ allocatedChunks p ->
     0 < c /\ (c, blockSize p * blockCount p) ∈ live h) /\
  (forall c d, c ∈ allocatedChunks p -> d ∈ allocatedChunks p -> c ≠ d ->
     c + blockSize p * blockCount p <= d \/ d + blockSize p * blockCount p <= c) /\
  (forall fuel cs held' h' p',
     exec fuel cs h p held = Ok held' h' p' ->
     forall r, r ∈ live h -> r ∈ live h').
Proof.
  intros Hre. destruct (reachable_Inv _ _ _ Hre) as (fl & I & Hbc).
  pose proof (inv_owned _ _ _ _ I) as Hown. rewrite Forall_forall in Hown.
  split; [apply NoDup_chunks; [done|apply (inv_nodup _ _ _ _ I)]|]. split; [|split].
  - intros c Hc. split; [|by apply Hown].
    by destruct (regions_ok_elem _ _ (inv_heap _ _ _ _ I) (Hown c Hc)).
  - intros c d Hc Hd Hne.
    assert (Hne' : (c, blockSize p * blockCount p) ≠ (d, blockSize p * blockCount p))
      by congruence.
    apply (regions_ok_apart _ _ _ (inv_heap _ _ _ _ I) (Hown c Hc) (Hown d Hd) Hne').
  - clear. intros fuel cs. revert h p held.
    induction cs as [|c cs IH]; intros h p held held' h' p' He r Hr.
    + simpl in He. by injection He as <- <- <-.
    + destruct c as [|ptr|addr byte]; cbn [exec] in He.
      * destruct (allocate fuel h p) as [b h1 p1| | |] eqn:Ha; try done.
        apply allocate_returns_linked_block in Ha as (_ & _ & _ & _ & _ & Hmono).
        eapply IH; [exact He|]. by apply Hmono.
      * destruct (decide (ptr ∈ held)); [|done].
        destruct (deallocate ptr h p) as [u h1 p1| | |] eqn:Hd; try done.
        apply deallocate_members in Hd as (_ & _ & Hlv).
        eapply IH; [exact He|]. by rewrite Hlv.
      * destruct (existsb _ held && (0 <=? byte) && (byte <? 256)); [|done].
        eapply IH; [exact He|]. done.
Qed.

(** X6.  [allocate] goes to malloc exactly when every block is handed out:
    while the caller holds fewer than (chunks * blockCount) blocks it pops
    the head without recursion and leaves the heap and the chunk list as
    they are; when the caller holds all of them the free list is empty and
    the outcome is that of one growth cycle. *)
Theorem allocate_grows_only_when_exhausted h p held :
  reachable h p held ->
  let capacity := Z.of_nat (length (allocatedChunks p)) * blockCount p in
  Z.of_nat (length held) <= capacity /\
  (Z.of_nat (length held) < capacity ->
     freeList p ≠ 0 /\
     exists next, forall fuel,
       allocate (S fuel) h p =
         Ok (freeList p) h (mkPool next (allocatedChunks p) (blockSize p) (blockCount p))) /\
  (Z.of_nat (length held) = capacity ->
     freeList p = 0 /\
     (malloc (live h) (blockSize p * blockCount p) = 0 ->
        forall fuel, allocate (S fuel) h p = BadAlloc h p) /\
     (malloc (live h) (blockSize p * blockCount p) ≠ 0 ->
        exists b h' fr, forall fuel,
          allocate (S (S fuel)) h p =
            Ok b h' (mkPool fr (allocatedChunks p ++ [malloc (live h) (blockSize p * blockCount p)])
                            (blockSize p) (blockCount p)))).
Proof.
  intros Hre capacity. destruct (reachable_Inv _ _ _ Hre) as (fl & I & Hbc).
  pose proof (Inv_count I) as Hcount.
  assert (Hcap : Z.of_nat (length fl) + Z.of_nat (length held) = capacity).
  { unfold capacity. pose proof (inv_bc _ _ _ _ I). nia. }
  split; [lia|]. split.
  - intros Hlt. destruct fl as [|b fl]; [simpl in Hcap; lia|].
    destruct (Inv_pop h p b fl held I) as (next & _ & Hhd & Hb & Hpop & _).
    split; [congruence|]. exists next. intros fuel. rewrite Hhd. apply Hpop.
  - intros Heq. assert (fl = []) as -> by (destruct fl; [done|simpl in Hcap; lia]).
    pose proof (inv_free _ _ _ _ I) as Hfl. inversion Hfl as [Hz|]. symmetry in Hz.
    split; [done|].
    destruct (allocate_total h p [] held I Hbc)
      as [(Hnz & _)|[(_ & Hm & Ha)|(_ & Hm & _ & Ha)]]; [done| |]; split; done.
Qed.

(** X7.  Within the bounds of [sane_start] (a positive block size, a
    block count of at least 1, a chunk size [bs * bc] that fits
    [size_t], an allocator that keeps malloc's contract) and with a
    successful first malloc, the constructor returns a pool exactly when
    the requested block size can hold one link; the pool then owns the one
    chunk, and its free list is the blocks of that chunk from the highest
    address down.  (With a block count of 0 the constructor returns
    whatever the block size, see C1.) *)
Theorem ctor_returns_iff bs bc h0 :
  sane_start bs bc h0 ->
  let r := malloc (live h0) (bs * bc) in
  r ≠ 0 ->
  (sizeof_Node <= bs <-> exists h1 p1, MemoryPool_ctor bs bc h0 = Ok tt h1 p1) /\
  (forall h1 p1, MemoryPool_ctor bs bc h0 = Ok tt h1 p1 ->
     p1 = mkPool (r + (bc - 1) * bs) [r] bs bc /\
     live h1 = (r, bs * bc) :: live h0 /\
     FreeList h1 (freeList p1) (rev (blocks_of bs bc r))).
Proof.
  intros Hs r Hr. split.
  - split.
    + intros HW.
      assert (Hu : under_construction h0 (mkPool 0 [] bs bc)) by (exists bs, bc; done).
      pose proof (under_construction_Inv _ _ Hu HW) as I0.
      destruct (allocateChunk_spec _ _ _ _ I0) as [(Hz & _)|(_ & h1 & fr & Hc & _)];
        [done|]. eauto.
    + intros (h1 & p1 & Hc). by apply (ctor_Ok_blockSize _ _ _ _ _ Hs Hc).
  - intros h1 p1 Hc.
    destruct (ctor_Inv _ _ _ _ _ Hs Hc) as (_ & Hch & Hbs & Hbc & Hlv & I1).
    fold r in Hch, Hlv, I1. split; [|split; [done|apply (inv_free _ _ _ _ I1)]].
    pose proof (inv_free _ _ _ _ I1) as Hfl.
    assert (Hhd : freeList p1 = r + (bc - 1) * bs).
    { destruct Hs as (_ & _ & _ & Hbc1 & _).
      assert (Hsplit : blocks_of bs bc r =
                blocks_of bs (bc - 1) r ++ [r + (bc - 1) * bs]).
      { unfold blocks_of. replace (Z.to_nat bc) with (S (Z.to_nat (bc - 1))) by lia.
        rewrite seq_S, map_app. simpl.
        by replace (Z.of_nat (Z.to_nat (bc - 1))) with (bc - 1) by lia. }
      rewrite Hsplit, rev_app_distr in Hfl. simpl in Hfl. by inversion Hfl. }
    destruct p1. simpl in *. congruence.
Qed.

(** ** Teardown *)

Lemma free_all_spec cs : forall h,
  NoDup cs ->
  (forall c, c ∈ cs -> c ≠ 0 /\ exists r, r ∈ live h /\ r.1 = c) ->
  exists h',
    free_all cs h = Some h' /\ bytes h' = bytes h /\
    forall r, r ∈ live h' <-> r ∈ live h /\ r.1 ∉ cs.
Proof.
  induction cs as [|c cs IH]; intros h Hnd Hown.
  - exists h. simpl. split; [done|]. split; [done|]. intros r. split; [|tauto].
    intros Hr. split; [done|]. by intros ?%elem_of_nil.
  - apply NoDup_cons in Hnd as (Hc & Hnd).
    destruct (Hown c) as (Hc0 & r0 & Hr0 & Hr0c); [by left|].
    cbn [free_all]. unfold free_chunk.
    destruct (Z.eqb_spec c 0) as [|_]; [done|].
    assert (Hex : existsb (fun r => r.1 =? c) (live h) = true).
    { apply existsb_exists. exists r0. split; [by apply list_elem_of_In|lia]. }
    rewrite Hex.
    destruct (IH (mkHeap (bytes h) (filter (fun r => r.1 ≠ c) (live h))) Hnd)
      as (h' & Hf & Hb & Hl).
    { intros c' Hc'. destruct (Hown c') as (Hc'0 & r & Hr & Hrc); [by right|].
      split; [done|]. exists r. split; [|done]. simpl.
      apply list_elem_of_filter. split; [|done]. rewrite Hrc. by intros ->. }
    exists h'. split; [done|]. split; [done|]. intros r. rewrite Hl. simpl.
    rewrite list_elem_of_filter, not_elem_of_cons. tauto.
Qed.

Lemma reachable_owns h p held :
  reachable h p held ->
  NoDup (allocatedChunks p) /\
  forall c, c ∈ allocatedChunks p -> c ≠ 0 /\ exists r, r ∈ live h /\ r.1 = c.
Proof.
  intros Hre. destruct (reachable_Inv _ _ _ Hre) as (fl & I & Hbc).
  pose proof (inv_owned _ _ _ _ I) as Hown. rewrite Forall_forall in Hown.
  split; [apply NoDup_chunks; [done|apply (inv_nodup _ _ _ _ I)]|].
  intros c Hc. split.
  - destruct (regions_ok_elem _ _ (inv_heap _ _ _ _ I) (Hown c Hc)) as (? & _).
    simpl in *. lia.
  - eexists. split; [by apply Hown|done].
Qed.

Lemma NoDup_fst_inj (l : list (Z * Z)) x y :
  NoDup (l.*1) -> x ∈ l -> y ∈ l -> x.1 = y.1 -> x = y.
Proof.
  induction l as [|a l IH]; intros Hnd Hx Hy Heq; [by apply elem_of_nil in Hx|].
  rewrite fmap_cons in Hnd. apply NoDup_cons in Hnd as (Ha & Hnd).
  apply elem_of_cons in Hx as [->|Hx]; apply elem_of_cons in Hy as [->|Hy].
  - done.
  - exfalso. apply Ha. rewrite Heq. by apply list_elem_of_fmap_2.
  - exfalso. apply Ha. rewrite <- Heq. by apply list_elem_of_fmap_2.
  - by apply IH.
Qed.

(** X8.  The destructor of a pool in a reachable state frees every chunk the
    pool owns exactly once (no release is undefined), whatever blocks are
    still held: afterwards no region that starts at the address of an
    owned chunk is live, every region that starts elsewhere is live as
    before, and no byte has changed.  When no two live regions start at
    the same address (malloc's contract leaves room for that only when
    one of them has size 0), the regions that are live afterwards are
    exactly the regions that were live, without the chunks. *)
Theorem destructor_releases_chunks h p held :
  reachable h p held ->
  exists h',
    MemoryPool_dtor h p = Some h' /\
    bytes h' = bytes h /\
    (forall r, r ∈ live h' <-> r ∈ live h /\ r.1 ∉ allocatedChunks p) /\
    (forall c sz, c ∈ allocatedChunks p -> (c, sz) ∉ live h') /\
    (NoDup ((live h).*1) ->
     forall r, r ∈ live h' <->
               r ∈ live h /\
               forall c, c ∈ allocatedChunks p -> r ≠ (c, blockSize p * blockCount p)).
Proof.
  intros Hre. destruct (reachable_owns _ _ _ Hre) as (Hnd & Hown).
  destruct (free_all_spec _ h Hnd Hown) as (h' & Hf & Hb & Hl).
  exists h'. do 3 (split; [done|]). split.
  - intros c sz Hc Hin. apply Hl in Hin as (_ & Hn). by apply Hn.
  - intros Hbases r. rewrite Hl.
    destruct (reachable_Inv _ _ _ Hre) as (fl & I & _).
    pose proof (inv_owned _ _ _ _ I) as Hreg. rewrite Forall_forall in Hreg.
    split.
    + intros (Hr & Hnot). split; [done|]. intros c Hc ->. by apply Hnot.
    + intros (Hr & Hne). split; [done|]. intros Hc. apply (Hne (r.1) Hc).
      by apply (NoDup_fst_inj (live h) r _ Hbases Hr (Hreg _ Hc)).
Qed.

(** X9.  After the destructor every block of the pool, free or held, lies
    outside live memory: reading its link, giving it back, or allocating
    from the non-empty free list of the destroyed pool is undefined. *)
Theorem use_after_destroy_undefined h p held h' :
  reachable h p held ->
  MemoryPool_dtor h p = Some h' ->
  (forall b, b ∈ all_blocks p ->
     load_ptr h' b = None /\ deallocate b h' p = Undefined) /\
  (freeList p ≠ 0 -> forall fuel, allocate (S fuel) h' p = Undefined).
Proof.
  intros Hre Hd. destruct (reachable_owns _ _ _ Hre) as (Hnd & Hown).
  destruct (free_all_spec _ h Hnd Hown) as (h2 & Hf & Hb & Hl).
  unfold MemoryPool_dtor in Hd. rewrite Hf in Hd. injection Hd as ->.
  destruct (reachable_Inv _ _ _ Hre) as (fl & I & Hbc).
  assert (Hinv : forall b, b ∈ all_blocks p ->
            valid_access (live h') b sizeof_Node = false).
  { intros b Hblk. destruct (valid_access (live h') b sizeof_Node) eqn:Hv; [|done].
    exfalso. apply valid_access_spec in Hv as (r & Hr & H1 & H2).
    apply Hl in Hr as (Hr & Hnot).
    destruct (Inv_block_region I b Hblk) as (c & Hc & Hreg & H3 & H4).
    assert (Hne : r ≠ (c, blockSize p * blockCount p)).
    { intros ->. by apply Hnot. }
    pose proof (regions_ok_apart _ _ _ (inv_heap _ _ _ _ I) Hr Hreg Hne) as Hap.
    pose proof (inv_bs _ _ _ _ I). pose proof sizeof_Node_pos.
    unfold apart in Hap. simpl in Hap. lia. }
  split.
  - intros b Hblk. unfold deallocate, store_ptr, load_ptr. by rewrite (Hinv b Hblk).
  - intros Hnz fuel. cbn [allocate].
    destruct (Z.eqb_spec (freeList p) 0) as [|_]; [done|].
    destruct (FreeList_nonnull _ _ _ (inv_free _ _ _ _ I) Hnz) as (fl' & ->).
    unfold load_ptr. rewrite Hinv; [done|].
    apply (Inv_free_block I). by left.
Qed.

(** ** The contents of blocks *)

Lemma carve_bytes r n : forall i h p fl rest u h' p',
  0 < r ->
  Inv h p fl (rest ++ map (fun k => r + Z.of_nat k * blockSize p) (seq i n)) ->
  carve n r (Z.of_nat i) h p = Ok u h' p' ->
  forall x,
    (forall b, b ∈ map (fun k => r + Z.of_nat k * blockSize p) (seq i n) ->
               x < b \/ b + sizeof_Node <= x) ->
    bytes h' !! x = bytes h !! x.
Proof.
  induction n as [|n IH]; intros i h p fl rest u h' p' Hr I Hc x Hx.
  - simpl in Hc. by injection Hc as _ <- <-.
  - cbn [seq map] in I, Hx. set (b := r + Z.of_nat i * blockSize p) in *.
    assert (Hb : b ∈ all_blocks p).
    { apply (Inv_out_block I). apply elem_of_app. right. by left. }
    assert (Hw : wrap (r + wrap (Z.of_nat i * blockSize p)) = b).
    { apply (Inv_wrap_block _ _ _ _ r (Z.of_nat i) I Hr); [lia|done]. }
    destruct (Inv_deallocate h p fl _ b
                (rest ++ map (fun k => r + Z.of_nat k * blockSize p) (seq (S i) n)) I)
      as (h1 & Hd & Hs & I1).
    { by rewrite Permutation_middle. }
    cbn [carve] in Hc. rewrite Hw, Hd in Hc.
    replace (Z.of_nat i + 1) with (Z.of_nat (S i)) in Hc by lia.
    rewrite (IH (S i) h1 _ _ rest u h' p' Hr I1 Hc x).
    + apply (store_ptr_bytes_outside _ _ _ _ _ Hs). apply Hx. by left.
    + intros b' Hb'. apply Hx. by right.
Qed.

Lemma Inv_out_out_sep h p fl out x y :
  Inv h p fl out -> x ∈ out -> y ∈ out -> x ≠ y ->
  x + blockSize p <= y \/ y + blockSize p <= x.
Proof.
  intros I Hx Hy Hne. apply (inv_sep _ _ _ _ I); [| |done]; by apply (Inv_out_block I).
Qed.

Lemma allocate_bytes fuel : forall h p fl out a h' p',
  Inv h p fl out ->
  allocate fuel h p = Ok a h' p' ->
  forall b x, b ∈ out -> b <= x < b + blockSize p ->
    bytes h' !! x = bytes h !! x.
Proof.
  induction fuel as [|fuel IH]; intros h p fl out a h' p' I Ha b x Hb Hx; [done|].
  cbn [allocate] in Ha. destruct (Z.eqb_spec (freeList p) 0) as [Hz|Hnz].
  - destruct (allocateChunk_spec h p fl out I) as [(_ & Hc)|(Hr & h2 & fr & Hc & _ & I2)];
      rewrite Hc in Ha; [done|].
    rewrite (IH _ _ _ _ _ _ _ I2 Ha b x Hb Hx).
    destruct (Inv_grow h p fl out I Hr) as (Hr0 & Hwrap & I1).
    unfold allocateChunk in Hc. rewrite Hwrap in Hc.
    destruct (Z.eqb_spec (malloc (live h) (blockSize p * blockCount p)) 0) as [|_];
      [done|].
    rewrite (carve_bytes _ _ 0%nat _ _ fl out _ _ _ Hr0 I1 Hc x); [done|].
    intros b' Hb'. cbn [blockSize] in Hb'.
    assert (Hne : b ≠ b').
    { intros ->. pose proof (Inv_NoDup_out I1) as Hnd.
      apply NoDup_app in Hnd as (_ & Hdis & _). by apply (Hdis b'). }
    assert (Hsep : b + blockSize p <= b' \/ b' + blockSize p <= b).
    { apply (Inv_out_out_sep _ _ _ _ _ _ I1); [| |done]; apply elem_of_app;
        [by left|by right]. }
    pose proof (inv_bs _ _ _ _ I). lia.
  - destruct (load_ptr h (freeList p)); [|done]. by injection Ha as _ <- _.
Qed.

(** X10.  While the caller holds a block the pool never writes into it: over
    any returning sequence of calls that neither gives the block back nor
    writes into it, the block stays held and each of its [blockSize] bytes
    keeps its value, also across growth cycles. *)
Theorem held_block_untouched fuel cs : forall h p held b held' h' p',
  reachable h p held -> b ∈ held ->
  Forall (fun c => touches (blockSize p) b c = false) cs ->
  exec fuel cs h p held = Ok held' h' p' ->
  b ∈ held' /\
  forall x, b <= x < b + blockSize p -> bytes h' !! x = bytes h !! x.
Proof.
  intros h p held b held' h' p' Hre. destruct (reachable_Inv _ _ _ Hre) as (fl & I & _).
  clear Hre. revert h p fl held I.
  induction cs as [|c cs IH]; intros h p fl held I Hb Hcs He.
  - simpl in He. by injection He as <- <- <-.
  - apply Forall_cons in Hcs as (Hc & Hcs).
    destruct c as [|ptr|addr byte]; cbn [exec] in He.
    + destruct (allocate fuel h p) as [a h1 p1| | |] eqn:Ha; try done.
      destruct (allocate_Inv _ _ _ _ _ _ _ _ I Ha) as (fl1 & I1 & _ & Hbs & _).
      rewrite <- Hbs in Hcs.
      destruct (IH _ _ _ _ I1 ltac:(by right) Hcs He) as (Hin & Hx).
      split; [done|]. intros x Hr. rewrite Hx by (rewrite Hbs; done).
      by apply (allocate_bytes _ _ _ _ _ _ _ _ I Ha b x).
    + destruct (decide (ptr ∈ held)) as [Hin|]; [|done].
      simpl in Hc. apply Z.eqb_neq in Hc.
      destruct (Inv_deallocate h p fl held ptr (release ptr held) I (release_perm _ _ Hin))
        as (h1 & Hd & Hs & I1).
      rewrite Hd in He.
      assert (Hb1 : b ∈ release ptr held).
      { pose proof (release_perm _ _ Hin) as Hp. rewrite Hp in Hb.
        apply elem_of_cons in Hb as [?|?]; [congruence|done]. }
      destruct (IH _ _ _ _ I1 Hb1 Hcs He) as (Hin' & Hx).
      split; [done|]. intros x Hr. rewrite Hx by done.
      apply (store_ptr_bytes_outside _ _ _ _ _ Hs).
      pose proof (Inv_out_out_sep _ _ _ _ _ _ I Hb Hin ltac:(congruence)).
      pose proof (inv_bs _ _ _ _ I). lia.
    + destruct (existsb (in_block (blockSize p) addr) held) eqn:Hex; [|done].
      simpl in He. destruct ((0 <=? byte) && (byte <? 256)); [|done].
      apply existsb_in_block in Hex as (b0 & Hb0 & Hr0).
      pose proof (Inv_scribble h p fl held b0 addr byte I Hb0 Hr0) as I1.
      destruct (IH _ _ _ _ I1 Hb Hcs He) as (Hin' & Hx).
      split; [done|]. intros x Hr. rewrite Hx by done. simpl.
      apply lookup_insert_ne. simpl in Hc. unfold in_block in Hc.
      apply andb_false_iff in Hc. lia.
Qed.

(** X11.  [deallocate] overwrites the first [sizeof(Node)] bytes of the block
    with the address of the previous head and changes no other byte of the
    heap, so the block that the next [allocate] returns is the same one,
    with the caller's old contents from offset [sizeof(Node)] on. *)
Theorem deallocate_writes_only_link h p held b :
  reachable h p held -> b ∈ held ->
  exists h1 p1,
    deallocate b h p = Ok tt h1 p1 /\
    load_ptr h1 b = Some (freeList p) /\
    (forall x, x < b \/ b + sizeof_Node <= x -> bytes h1 !! x = bytes h !! x) /\
    forall fuel, allocate (S fuel) h1 p1 = Ok b h1 p.
Proof.
  intros Hre Hb. destruct (reachable_Inv _ _ _ Hre) as (fl & I & _).
  destruct (Inv_deallocate h p fl held b (release b held) I (release_perm _ _ Hb))
    as (h1 & Hd & Hs & I1).
  destruct (Inv_pop _ _ b fl _ I1) as (next & Hl & _ & _ & Hpop & _).
  pose proof (load_store_same _ _ _ _ Hs (Inv_head_range I)) as Hl'.
  exists h1, (mkPool b (allocatedChunks p) (blockSize p) (blockCount p)).
  split; [done|]. split; [done|]. split.
  - intros x Hx. by apply (store_ptr_bytes_outside _ _ _ _ _ Hs).
  - intros fuel. rewrite Hpop. rewrite Hl' in Hl. injection Hl as <-. simpl.
    by destruct p.
Qed.

(** ** Sequences of returns *)

Lemma FreeList_same_head h h' a b l :
  FreeList h a l -> FreeList h' b l -> a = b.
Proof. intros Ha Hb. inversion Ha; subst; inversion Hb; by subst. Qed.

Lemma exec_deallocs fuel bl : forall h p fl held,
  Inv h p fl held -> NoDup bl -> (forall b, b ∈ bl -> b ∈ held) ->
  exists h' hd,
    exec fuel (map Deallocate bl) h p held =
      Ok (release_all bl held) h'
         (mkPool hd (allocatedChunks p) (blockSize p) (blockCount p)) /\
    Inv h' (mkPool hd (allocatedChunks p) (blockSize p) (blockCount p))
        (rev bl ++ fl) (release_all bl held) /\
    live h' = live h.
Proof.
  induction bl as [|b bl IH]; intros h p fl held I Hnd Hin.
  - exists h, (freeList p). simpl. by destruct p.
  - apply NoDup_cons in Hnd as (Hb & Hnd).
    assert (Hbh : b ∈ held) by (apply Hin; by left).
    pose proof (release_perm _ _ Hbh) as Hp.
    destruct (Inv_deallocate h p fl held b (release b held) I Hp) as (h1 & Hd & Hst & I1).
    destruct (IH _ _ _ _ I1 Hnd) as (h' & hd & He & I' & Hlv).
    { intros b' Hb'. assert (Hx : b' ∈ held) by (apply Hin; by right).
      rewrite Hp in Hx. apply elem_of_cons in Hx as [->|?]; [contradiction|done]. }
    exists h', hd. cbn [map exec]. destruct (decide (b ∈ held)); [|contradiction].
    rewrite Hd. cbn [allocatedChunks blockSize blockCount] in He, I'.
    split; [exact He|]. split; [simpl; by rewrite <- app_assoc|].
    rewrite Hlv. by apply store_ptr_live in Hst.
Qed.

(** X12.  Blocks given back one after another come back in reverse order:
    after [deallocate] of the distinct held blocks [b1 .. bk], in this
    order, the next [k] allocations return [bk .. b1] without growth, and
    the pool object and the set of held handles are what they were. *)
Theorem deallocate_sequence_comes_back_reversed h p held bl fuel :
  reachable h p held -> NoDup bl -> (forall b, b ∈ bl -> b ∈ held) ->
  exists h',
    exec (S fuel) (map Deallocate bl ++ repeat Allocate (length bl)) h p held
      = Ok (bl ++ release_all bl held) h' p /\
    live h' = live h /\
    Permutation (bl ++ release_all bl held) held.
Proof.
  intros Hre Hnd Hin. destruct (reachable_Inv _ _ _ Hre) as (fl & I & _).
  destruct (exec_deallocs (S fuel) bl h p fl held I Hnd Hin) as (h1 & hd & He & I1 & Hlv).
  destruct (exec_pops fuel (length bl) _ _ _ _ I1) as (fr & Hp & I2).
  { rewrite length_app, length_rev. lia. }
  assert (Htake : take (length bl) (rev bl ++ fl) = rev bl).
  { rewrite <- (length_rev bl). apply take_app_length. }
  assert (Hdrop : drop (length bl) (rev bl ++ fl) = fl).
  { rewrite <- (length_rev bl). apply drop_app_length. }
  rewrite Htake, Hdrop, ?rev_involutive in I2. rewrite Htake, rev_involutive in Hp.
  cbn [allocatedChunks blockSize blockCount] in Hp, I2.
  assert (Hfr : fr = freeList p).
  { apply (FreeList_same_head _ _ _ _ _ (inv_free _ _ _ _ I2) (inv_free _ _ _ _ I)). }
  exists h1. rewrite exec_app, He, Hp, Hfr. split; [by destruct p|].
  split; [done|].
  pose proof (inv_part _ _ _ _ I2) as P2. pose proof (inv_part _ _ _ _ I) as P1.
  change (all_blocks (mkPool fr (allocatedChunks p) (blockSize p) (blockCount p)))
    with (all_blocks p) in P2.
  rewrite <- P1 in P2. by apply Permutation_app_inv_l in P2.
Qed.

(** ** Moves and teardown *)

Lemma freed_blocks_invalid h p fl out h' :
  Inv h p fl out -> 1 <= blockCount p ->
  free_all (allocatedChunks p) h = Some h' ->
  forall b, b ∈ all_blocks p -> valid_access (live h') b sizeof_Node = false.
Proof.
  intros I Hbc Hf b Hblk.
  assert (Hnd : NoDup (allocatedChunks p)).
  { apply NoDup_chunks; [done|apply (inv_nodup _ _ _ _ I)]. }
  pose proof (inv_owned _ _ _ _ I) as Hown. rewrite Forall_forall in Hown.
  destruct (free_all_spec _ h Hnd) as (h2 & Hf2 & _ & Hl).
  { intros c Hc. split.
    - destruct (regions_ok_elem _ _ (inv_heap _ _ _ _ I) (Hown c Hc)) as (? & _).
      simpl in *. lia.
    - eexists. split; [by apply Hown|done]. }
  rewrite Hf in Hf2. injection Hf2 as <-.
  destruct (valid_access (live h') b sizeof_Node) eqn:Hv; [|done].
  exfalso. apply valid_access_spec in Hv as (r & Hr & H1 & H2).
  apply Hl in Hr as (Hr & Hnot).
  destruct (Inv_block_region I b Hblk) as (c & Hc & Hreg & H3 & H4).
  assert (Hne : r ≠ (c, blockSize p * blockCount p)).
  { intros ->. by apply Hnot. }
  pose proof (regions_ok_apart _ _ _ (inv_heap _ _ _ _ I) Hr Hreg Hne) as Hap.
  pose proof (inv_bs _ _ _ _ I). pose proof sizeof_Node_pos.
  unfold apart in Hap. simpl in Hap. lia.
Qed.

Lemma reachable_has_chunk h p held :
  reachable h p held -> exists c cs, allocatedChunks p = c :: cs.
Proof.
  intros (bs & bc & h0 & h1 & p1 & fuel & cs & Hs & Hc & He).
  destruct (ctor_Inv _ _ _ _ _ Hs Hc) as (_ & Hch & _ & _ & _ & I1).
  destruct (exec_Inv _ _ _ _ _ _ _ _ _ I1 He) as (_ & _ & (k & Hpre) & _).
  rewrite Hch in Hpre. rewrite Hpre. simpl. eauto.
Qed.

(** X13.  Moving a pool into a new object and destroying both objects frees
    every chunk exactly once: the destructor of the moved-from object
    frees nothing (before or after the other one), the destructor of the
    new object frees all chunks, and running that destructor a second
    time, as would happen had the move left the chunk list in the source,
    is undefined. *)
Theorem move_then_destroy h p held d s objs :
  reachable h p held -> objs !! s = Some p -> objs !! d = None ->
  exists objs' src dst h',
    MemoryPool_move_ctor d s objs = Some objs' /\
    objs' !! s = Some src /\ objs' !! d = Some dst /\
    MemoryPool_dtor h src = Some h /\
    MemoryPool_dtor h dst = Some h' /\
    MemoryPool_dtor h' src = Some h' /\
    (forall c sz, c ∈ allocatedChunks p -> (c, sz) ∉ live h') /\
    MemoryPool_dtor h' dst = None.
Proof.
  intros Hre Hs Hd. assert (Hne : d ≠ s) by congruence.
  destruct (reachable_owns _ _ _ Hre) as (Hnd & Hown).
  destruct (free_all_spec _ h Hnd Hown) as (h' & Hf & Hb & Hl).
  unfold MemoryPool_move_ctor. rewrite Hd, Hs.
  eexists _, moved_from, p, h'. split; [done|].
  split; [by rewrite lookup_insert_ne, lookup_insert_eq|].
  split; [rewrite lookup_insert_eq; by destruct p|].
  do 3 (split; [done|]). split.
  - intros c sz Hc Hin. apply Hl in Hin as (_ & Hn). by apply Hn.
  - destruct (reachable_has_chunk _ _ _ Hre) as (c & cs & Hch).
    unfold MemoryPool_dtor. rewrite Hch. cbn [free_all]. unfold free_chunk.
    destruct (Hown c) as (Hc0 & _); [rewrite Hch; by left|].
    destruct (Z.eqb_spec c 0) as [|_]; [done|].
    destruct (existsb (fun r => r.1 =? c) (live h')) eqn:Hex; [|done].
    exfalso. apply existsb_exists in Hex as (r & Hr & Hrc).
    apply list_elem_of_In, Hl in Hr as (_ & Hn). apply Hn.
    rewrite Hch. replace (r.1) with c by lia. by left.
Qed.

(** X14.  Move assignment onto a pool in a reachable state returns (no release
    is undefined) and gives the destination the source's members, but it
    frees the destination's chunks whatever blocks callers still hold:
    afterwards every block of the old destination lies outside live
    memory, so reading it or giving it back to any pool is undefined.  A
    free list of the source whose cells are in other regions is intact. *)
Theorem move_assign_frees_destination h D heldD S d s objs :
  reachable h D heldD -> d ≠ s -> objs !! d = Some D -> objs !! s = Some S ->
  exists h' objs',
    MemoryPool_move_assign d s (h, objs) = Some (h', objs') /\
    objs' !! d = Some S /\
    (forall b, b ∈ all_blocks D ->
       load_ptr h' b = None /\ forall q, deallocate b h' q = Undefined) /\
    (forall fl,
       FreeList h (freeList S) fl ->
       (forall b, b ∈ fl ->
          exists r, r ∈ live h /\ r.1 <= b /\ b + sizeof_Node <= r.1 + r.2 /\
                    r.1 ∉ allocatedChunks D) ->
       FreeList h' (freeList S) fl).
Proof.
  intros Hre Hne Hd Hs.
  destruct (reachable_owns _ _ _ Hre) as (Hnd & Hown).
  destruct (reachable_Inv _ _ _ Hre) as (fl0 & I & Hbc).
  destruct (free_all_spec _ h Hnd Hown) as (h' & Hf & Hb & Hl).
  unfold MemoryPool_move_assign. rewrite Hd, Hs.
  destruct (decide (d ≠ s)); [|done]. rewrite Hf.
  eexists _, _. split; [done|].
  split; [rewrite lookup_insert_ne by done; rewrite lookup_insert_eq; by destruct S|].
  split.
  - intros b Hblk.
    pose proof (freed_blocks_invalid _ _ _ _ _ I Hbc Hf b Hblk) as Hv.
    unfold deallocate, store_ptr, load_ptr. by rewrite Hv.
  - intros fl Hfl Hreg. eapply FreeList_frame; [exact Hfl|].
    intros b Hbin. destruct (Hreg b Hbin) as (r & Hr & H1 & H2 & Hnot).
    assert (Hv : valid_access (live h) b sizeof_Node = true).
    { apply valid_access_spec. eauto. }
    assert (Hv' : valid_access (live h') b sizeof_Node = true).
    { apply valid_access_spec. exists r. split; [by apply Hl|done]. }
    unfold load_ptr. by rewrite Hv, Hv', Hb.
Qed.

(** ** The consumer class *)

(** X15.  [Test::operator new] hands out a block of [blockSize] bytes whatever
    size it is asked for: those bytes are live, and a request for more
    than [blockSize] bytes gets a block whose extent reaches into the next
    block of the pool or runs past the end of its chunk. *)
Theorem operator_new_block_extent h pool held size fuel b h' pool' :
  reachable h pool held ->
  Test_operator_new size fuel h pool = Ok b h' pool' ->
  valid_access (live h') b (blockSize pool') = true /\
  (blockSize pool' < size ->
     (exists b2, b2 ∈ all_blocks pool' /\ b2 ≠ b /\ b < b2 < b + size) \/
     (exists c, c ∈ allocatedChunks pool' /\
                (c, blockSize pool' * blockCount pool') ∈ live h' /\
                c <= b /\ c + blockSize pool' * blockCount pool' < b + size)).
Proof.
  intros Hre Ha. unfold Test_operator_new in Ha.
  destruct (reachable_Inv _ _ _ Hre) as (fl & I & Hbc).
  destruct (allocate_Inv _ _ _ _ _ _ _ _ I Ha) as (fl' & I' & _ & Hbs' & Hbc').
  assert (Hblk : b ∈ all_blocks pool') by (apply (Inv_out_block I'); by left).
  pose proof (inv_owned _ _ _ _ I') as Hown. rewrite Forall_forall in Hown.
  pose proof (inv_bs _ _ _ _ I') as HW. pose proof sizeof_Node_pos as HW0.
  apply elem_of_all_blocks in Hblk as (c & Hc & Hb).
  apply elem_of_blocks_of in Hb as (i & Hi & ->).
  split.
  - apply valid_access_spec. exists (c, blockSize pool' * blockCount pool').
    split; [by apply Hown|]. simpl. nia.
  - intros Hsz. destruct (decide (i + 1 < blockCount pool')) as [Hlt|Hge].
    + left. exists (c + (i + 1) * blockSize pool'). split; [|split; [|]].
      * apply elem_of_all_blocks. exists c. split; [done|].
        apply elem_of_blocks_of. exists (i + 1). split; [lia|done].
      * nia.
      * nia.
    + right. exists c. split; [done|]. split; [by apply Hown|]. nia.
Qed.

(** ** The program *)

Lemma Inv_held_write h h' p fl out b :
  Inv h p fl out -> b ∈ out -> live h' = live h ->
  (forall x, x < b \/ b + blockSize p <= x -> bytes h' !! x = bytes h !! x) ->
  Inv h' p fl out.
Proof.
  intros I Hb Hlv Hby. pose proof (inv_bs _ _ _ _ I) as Hbs.
  assert (Hfr : FreeList h' (freeList p) fl).
  { eapply FreeList_frame; [apply (inv_free _ _ _ _ I)|]. intros y Hy.
    unfold load_ptr. rewrite Hlv.
    destruct (valid_access (live h) y sizeof_Node); [|done]. f_equal.
    apply load_bytes_ext. intros x Hx. apply Hby. rewrite positive_nat_Z in Hx.
    pose proof (Inv_free_out_sep I y b Hy Hb). unfold sizeof_Node in Hbs. lia. }
  destruct I. constructor; try done; by rewrite Hlv.
Qed.

Lemma signed_encode int_bytes v :
  - 2 ^ (8 * Z.pos int_bytes - 1) <= v < 2 ^ (8 * Z.pos int_bytes - 1) ->
  signed int_bytes (decode_le (encode_le (Pos.to_nat int_bytes) v)) = v.
Proof.
  intros Hv. rewrite decode_encode_le, positive_nat_Z.
  replace 256 with (2 ^ 8) by done. rewrite <- Z.pow_mul_r by lia.
  set (M := 2 ^ (8 * Z.pos int_bytes)).
  assert (HM : M = 2 * 2 ^ (8 * Z.pos int_bytes - 1)).
  { unfold M. rewrite <- Z.pow_succ_r by lia. f_equal. lia. }
  unfold signed. fold M. destruct (Z_lt_le_dec v 0) as [Hneg|Hpos].
  - rewrite <- (Z_mod_plus_full v 1 M). rewrite Z.mod_small by lia.
    destruct (Z.ltb_spec (v + 1 * M) (2 ^ (8 * Z.pos int_bytes - 1))); lia.
  - rewrite Z.mod_small by lia.
    destruct (Z.ltb_spec v (2 ^ (8 * Z.pos int_bytes - 1))); lia.
Qed.

Lemma store_int_spec int_bytes h a v :
  valid_access (live h) a (Z.pos int_bytes) = true ->
  exists h',
    store_int int_bytes h a v = Some h' /\ live h' = live h /\
    (forall x, x < a \/ a + Z.pos int_bytes <= x -> bytes h' !! x = bytes h !! x) /\
    load_bytes a (Pos.to_nat int_bytes) (bytes h') =
      Some (encode_le (Pos.to_nat int_bytes) v).
Proof.
  intros Hv. unfold store_int. rewrite Hv. eexists. split; [done|]. simpl.
  split; [done|]. split.
  - intros x Hx. apply store_bytes_outside. rewrite length_encode_le, positive_nat_Z. lia.
  - rewrite <- (length_encode_le (Pos.to_nat int_bytes) v) at 1.
    apply load_bytes_store_bytes.
Qed.

Lemma Test_print_frame int_bytes b h h' :
  live h' = live h ->
  (forall x, b <= x < b + sizeof_Test int_bytes -> bytes h' !! x = bytes h !! x) ->
  Test_print int_bytes b h' = Test_print int_bytes b h.
Proof.
  intros Hlv Hby. unfold Test_print, load_int, sizeof_Test in *. rewrite Hlv.
  rewrite (load_bytes_ext _ b (bytes h') (bytes h)).
  2:{ intros x Hx. apply Hby. lia. }
  rewrite (load_bytes_ext _ (b + Z.pos int_bytes) (bytes h') (bytes h)); [done|].
  intros x Hx. apply Hby. lia.
Qed.

Lemma Test_ctor_spec int_bytes h p fl out b x y :
  Inv h p fl out -> b ∈ out -> blockSize p = sizeof_Test int_bytes ->
  - 2 ^ (8 * Z.pos int_bytes - 1) <= x < 2 ^ (8 * Z.pos int_bytes - 1) ->
  - 2 ^ (8 * Z.pos int_bytes - 1) <= y < 2 ^ (8 * Z.pos int_bytes - 1) ->
  exists h',
    Test_ctor int_bytes b x y h = Some h' /\ live h' = live h /\
    (forall z, z < b \/ b + blockSize p <= z -> bytes h' !! z = bytes h !! z) /\
    Inv h' p fl out /\
    Test_print int_bytes b h' = Some (Line_Test x y).
Proof.
  intros I Hb Hbs Hx Hy. unfold sizeof_Test in Hbs.
  destruct (Inv_block_region I b (Inv_out_block I b Hb)) as (c & Hc & Hreg & H1 & H2).
  assert (Hv : forall lv, lv = live h ->
             valid_access lv b (Z.pos int_bytes) = true /\
             valid_access lv (b + Z.pos int_bytes) (Z.pos int_bytes) = true).
  { intros lv ->. split; apply valid_access_spec; eexists; (split; [exact Hreg|]);
      simpl; lia. }
  destruct (store_int_spec int_bytes h b x (proj1 (Hv _ eq_refl)))
    as (h1 & Hs1 & Hlv1 & Hby1 & Hld1).
  destruct (store_int_spec int_bytes h1 (b + Z.pos int_bytes) y (proj2 (Hv _ Hlv1)))
    as (h2 & Hs2 & Hlv2 & Hby2 & Hld2).
  exists h2. unfold Test_ctor. rewrite Hs1, Hs2. split; [done|].
  split; [congruence|].
  assert (Hout : forall z, z < b \/ b + blockSize p <= z -> bytes h2 !! z = bytes h !! z).
  { intros z Hz. rewrite Hby2 by lia. apply Hby1. lia. }
  split; [done|]. split.
  - apply (Inv_held_write h h2 p fl out b I Hb); [congruence|done].
  - unfold Test_print, load_int.
    destruct (Hv (live h2)) as (-> & ->); [congruence|].
    rewrite Hld2. rewrite (load_bytes_ext _ b (bytes h2) (bytes h1)), Hld1.
    + simpl. by rewrite !signed_encode.
    + intros z Hz. apply Hby2. rewrite positive_nat_Z in Hz. lia.
Qed.

Lemma small_int int_bytes v :
  0 <= v < 128 ->
  - 2 ^ (8 * Z.pos int_bytes - 1) <= v < 2 ^ (8 * Z.pos int_bytes - 1).
Proof.
  intros Hv. assert (2 ^ 7 <= 2 ^ (8 * Z.pos int_bytes - 1)).
  { apply Z.pow_le_mono_r; lia. }
  change (2 ^ 7) with 128 in *. lia.
Qed.

(** X16.  The program as a whole, for every allocator that keeps malloc's
    contract.  If the one malloc of the static pool fails, [bad_alloc]
    leaves the initialisation before [main] starts.  If it succeeds and a
    [Test] is at least as large as a link, the program writes
    [Test(1, 2)], [Test(3, 4)] and the closing line, never asks malloc for
    a second chunk, ends [main] with all ten blocks free, the block of
    [t2] first, and at exit frees the chunk: the regions live at the end
    are the regions live at the start that do not begin at the address of
    the chunk, and so exactly the regions live at the start when none of
    them begins there (malloc's contract leaves room for one that does
    only if its size is 0).  If a [Test] is smaller than a link, the
    initialisation is undefined. *)
Theorem program_outcome int_bytes fuel h0 :
  sane_start (sizeof_Test int_bytes) 10 h0 ->
  let r := malloc (live h0) (sizeof_Test int_bytes * 10) in
  (r = 0 ->
     program int_bytes fuel h0 = BadAlloc h0 (mkPool 0 [] (sizeof_Test int_bytes) 10)) /\
  (r ≠ 0 -> sizeof_Test int_bytes < sizeof_Node ->
     program int_bytes fuel h0 = Undefined) /\
  (r ≠ 0 -> sizeof_Node <= sizeof_Test int_bytes ->
     exists h1 p1 h2 p2 h3 fl,
       Test_pool (sizeof_Test int_bytes) h0 = Ok tt h1 p1 /\
       main int_bytes (S fuel) h1 p1 =
         Ok [Line_Test 1 2; Line_Test 3 4; Line_completed] h2 p2 /\
       allocatedChunks p2 = [r] /\
       FreeList h2 (freeList p2)
         (r + 8 * sizeof_Test int_bytes :: r + 9 * sizeof_Test int_bytes :: fl) /\
       length fl = 8%nat /\
       program int_bytes (S fuel) h0 =
         Ok [Line_Test 1 2; Line_Test 3 4; Line_completed] h3 p2 /\
       (forall x, x ∈ live h3 <-> x ∈ live h0 /\ x.1 ≠ r) /\
       ((forall x, x ∈ live h0 -> x.1 ≠ r) ->
        forall x, x ∈ live h3 <-> x ∈ live h0)).
Proof.
  intros Hs r. pose proof Hs as (Hm & Hreg & Hbs0 & _ & Hfit).
  remember (sizeof_Test int_bytes) as bs eqn:Hbs.
  split; [|split].
  - intros Hr. unfold program, Test_pool, MemoryPool_ctor, allocateChunk.
    rewrite <- Hbs. cbn [blockSize blockCount]. unfold wrap. rewrite Z.mod_small by lia.
    fold r. by rewrite Hr.
  - intros Hr Hlt. unfold program, Test_pool. rewrite <- Hbs.
    destruct (ctor_small_blockSize _ _ _ Hs Hlt) as [->|(Hz & _)]; [done|].
    by fold r in Hz.
  - intros Hr HW.
    assert (Hu : under_construction h0 (mkPool 0 [] bs 10)) by (exists bs, 10; done).
    pose proof (under_construction_Inv _ _ Hu HW) as I0.
    destruct (allocateChunk_spec _ _ _ _ I0) as [(Hz & _)|(_ & h1 & fr & Hc & Hlv1 & I1)];
      [done|].
    cbn [allocatedChunks blockSize blockCount app] in Hc, Hlv1, I1. fold r in Hc, Hlv1, I1.
    change (rev (blocks_of bs 10 r) ++ [])
      with (r + 9 * bs :: r + 8 * bs :: rev (blocks_of bs 8 r)) in I1.
    set (t1 := r + 9 * bs) in *. set (t2 := r + 8 * bs) in *.
    set (fl := rev (blocks_of bs 8 r)) in *.
    (* t1 = new Test(1, 2) *)
    destruct (Inv_pop _ _ _ _ _ I1) as (n1 & _ & _ & Ht1 & Hp1 & Ia).
    cbn [allocatedChunks blockSize blockCount] in Hp1, Ia.
    destruct (Test_ctor_spec int_bytes _ _ _ _ t1 1 2 Ia) as (ha & Hca & Hlva & _ & Ia' & Hpa);
      [by left|done|by apply small_int|by apply small_int|].
    (* t2 = new Test(3, 4) *)
    destruct (Inv_pop _ _ _ _ _ Ia') as (n2 & _ & _ & Ht2 & Hp2 & Ib).
    cbn [allocatedChunks blockSize blockCount] in Hp2, Ib.
    destruct (Test_ctor_spec int_bytes _ _ _ _ t2 3 4 Ib) as (hb & Hcb & Hlvb & Hbyb & Ib' & Hpb);
      [by left|done|by apply small_int|by apply small_int|].
    assert (Hpa' : Test_print int_bytes t1 hb = Some (Line_Test 1 2)).
    { rewrite <- Hpa. apply Test_print_frame; [done|]. intros x Hx. apply Hbyb.
      cbn [blockSize]. rewrite <- Hbs in Hx. unfold t1, t2 in *. lia. }
    (* delete t1; delete t2 *)
    destruct (Inv_deallocate _ _ _ _ t1 [t2] Ib') as (hc & Hd1 & Hst1 & Ic);
      [apply perm_swap|].
    cbn [allocatedChunks blockSize blockCount] in Hd1, Ic.
    destruct (Inv_deallocate _ _ _ _ t2 [] Ic) as (hd & Hd2 & Hst2 & Id); [done|].
    cbn [allocatedChunks blockSize blockCount] in Hd2, Id.
    apply store_ptr_live in Hst1, Hst2.
    assert (Hlvd : live hd = (r, bs * 10) :: live h0) by congruence.
    (* the destructor at exit *)
    destruct (free_all_spec [r] hd) as (h3 & Hf & _ & Hl3).
    { apply NoDup_singleton. }
    { intros c ->%list_elem_of_singleton. split; [done|].
      exists (r, bs * 10). split; [rewrite Hlvd; by left|done]. }
    assert (Hmain : main int_bytes (S fuel) h1 (mkPool fr [r] bs 10) =
              Ok [Line_Test 1 2; Line_Test 3 4; Line_completed] hd (mkPool t2 [r] bs 10)).
    { unfold main, new_Test, Test_operator_new, delete_Test, Test_operator_delete.
      rewrite Hp1. cbn [and_then]. rewrite Hca. cbn [and_then].
      rewrite Hp2. cbn [and_then]. rewrite Hcb. cbn [and_then].
      rewrite Hpa', Hpb.
      destruct (Z.eqb_spec t1 0) as [|_]; [done|]. rewrite Hd1. cbn [and_then].
      destruct (Z.eqb_spec t2 0) as [|_]; [done|]. by rewrite Hd2. }
    exists h1, (mkPool fr [r] bs 10), hd, (mkPool t2 [r] bs 10), h3, fl.
    split; [exact Hc|]. split; [exact Hmain|]. split; [done|].
    split; [apply (inv_free _ _ _ _ Id)|].
    split; [unfold fl; by rewrite length_rev, length_blocks_of|].
    split.
    + unfold program, Test_pool, MemoryPool_ctor in *. rewrite <- Hbs, Hc. cbn [and_then].
      rewrite Hmain. cbn [and_then]. unfold MemoryPool_dtor. cbn [allocatedChunks].
      by rewrite Hf.
    + assert (Hlive : forall x, x ∈ live h3 <-> x ∈ live h0 /\ x.1 ≠ r).
      { intros x. rewrite Hl3, Hlvd, elem_of_cons, list_elem_of_singleton. split.
        - intros ([->|Hx] & Hne); [done|]. done.
        - intros (Hx & Hne). split; [by right|done]. }
      split; [exact Hlive|]. intros Hfresh x. rewrite Hlive. split; [tauto|].
      intros Hx. split; [done|by apply Hfresh].
Qed.

(** ** Threads that only give blocks back *)

Lemma Inv_store_held h p fl out b v h' :
  Inv h p fl out -> b ∈ out -> store_ptr h b v = Some h' -> Inv h' p fl out.
Proof.
  intros I Hb Hs. apply (Inv_held_write h h' p fl out b I Hb).
  - by apply store_ptr_live in Hs.
  - intros x Hx. apply (store_ptr_bytes_outside _ _ _ _ _ Hs).
    pose proof (inv_bs _ _ _ _ I). lia.
Qed.

Lemma Inv_push_linked h p fl out b out' :
  Inv h p fl out -> Permutation out (b :: out') ->
  load_ptr h b = Some (freeList p) ->
  Inv h (mkPool b (allocatedChunks p) (blockSize p) (blockCount p)) (b :: fl) out'.
Proof.
  intros I Hp Hl.
  assert (Hbo : b ∈ out) by (rewrite Hp; by left).
  pose proof (Inv_block_range I b (Inv_out_block I b Hbo)) as Hrange.
  destruct I as [Hm Hbs Hbc Hfit Hheap Hown Hfree Hpart Hnd Hsep].
  constructor; simpl; try done.
  - econstructor; [lia|exact Hl|exact Hfree].
  - change (all_blocks (mkPool b (allocatedChunks p) (blockSize p) (blockCount p)))
      with (all_blocks p).
    rewrite <- Hpart, Hp. simpl. by rewrite Permutation_middle.
Qed.

Lemma owned_app pre t post :
  concat (map owned (pre ++ t :: post)) =
  concat (map owned pre) ++ owned t ++ concat (map owned post).
Proof. by rewrite map_app, concat_app. Qed.

Lemma pusher_ok_frame h h' t :
  pusher_ok h t ->
  (forall n, n ∈ in_flight t -> load_ptr h' n = load_ptr h n) ->
  pusher_ok h' t.
Proof.
  intros (Hs & Hpc) Hfr. split; [done|]. unfold in_flight in Hfr.
  destruct (pc t) as [| | | | | | | |n k|n hd k|n hd k|]; try done.
  destruct k; [|done]. rewrite Hfr; [done|by left].
Qed.

(** One step of a thread that only gives blocks back, among other such
    threads. *)
Lemma pusher_step pre t post h p :
  PInv (pre ++ t :: post) h p ->
  match tstep t h p with
  | Step t' h' p' =>
      PInv (pre ++ t' :: post) h' p' /\ keeps t' = keeps t /\
      allocatedChunks p' = allocatedChunks p /\ blockSize p' = blockSize p /\
      blockCount p' = blockCount p /\ live h' = live h
  | Done => True
  | Wrong => False
  end.
Proof.
  intros (fl & I & HF). rewrite owned_app in I.
  apply Forall_app in HF as (Hpre & HF). apply Forall_cons in HF as (Ht & Hpost).
  destruct t as [cs pc0 hl]. destruct Ht as ((Honly & Hnd & Hsub) & Hpc).
  cbn [script pc holds] in *. unfold tstep. cbn [script pc holds].
  destruct pc0 as [| | | | | | | |node k|node head k|node head k|]; try done.
  - (* between calls *)
    destruct cs as [|c cs]; [done|]. destruct c as [|ptr|]; try done.
    cbn [forallb is_deallocate returned] in *.
    apply NoDup_cons in Hnd as (Hptr & Hnd).
    assert (Hin : ptr ∈ hl) by (apply Hsub; by left).
    destruct (decide (ptr ∈ hl)); [|contradiction].
    pose proof (release_perm _ _ Hin) as Hperm.
    split; [|split; [|done]].
    + exists fl. split.
      * rewrite owned_app. apply (Inv_perm_out I).
        apply Permutation_app_head, Permutation_app_tail. exact Hperm.
      * apply Forall_app. split; [done|]. apply Forall_cons. split; [|done].
        split; [|done]. split; [done|]. split; [done|]. cbn [script holds].
        intros b Hb. assert (Hx : b ∈ hl) by (apply Hsub; by right).
        rewrite Hperm in Hx. apply elem_of_cons in Hx as [->|?]; [contradiction|done].
    + unfold keeps, owned, in_flight, release_all. simpl.
      by destruct (decide (ptr = ptr)).
  - (* line 57 *)
    destruct k; [|done]. split; [|done].
    exists fl. split; [by rewrite owned_app|].
    apply Forall_app. split; [done|]. apply Forall_cons. split; [|done].
    split; [done|]. simpl. apply (Inv_head_range I).
  - (* line 59 *)
    destruct k; [|done].
    assert (Hno : node ∈ concat (map owned pre) ++
                    owned (mkThread cs (D_store node head K_return) hl) ++
                    concat (map owned post)).
    { apply elem_of_app. right. apply elem_of_app. left. by left. }
    destruct (store_ptr_valid h node head
                (Inv_block_valid I node (Inv_out_block I node Hno))) as (h' & Hs & Hlv).
    rewrite Hs. split; [|done].
    assert (Hother : forall t, t ∈ pre ++ post -> pusher_ok h t -> pusher_ok h' t).
    { intros t Ht Hok. apply (pusher_ok_frame h h' t Hok). intros n Hn.
      apply (load_store_other _ _ _ _ _ Hs).
      assert (Hn' : n ∈ concat (map owned pre) ++ concat (map owned post)).
      { rewrite <- concat_app, <- map_app. apply list_elem_of_In, in_concat.
        exists (owned t). split; [apply in_map; by apply list_elem_of_In|].
        apply list_elem_of_In, elem_of_app. by left. }
      pose proof (Inv_NoDup_out I) as Hnd'.
      assert (Hne : n ≠ node).
      { intros ->. unfold owned, in_flight in Hnd'. cbn [pc holds app] in Hnd'.
        rewrite <- Permutation_middle in Hnd'. apply NoDup_cons in Hnd' as (Hnot & _).
        apply Hnot. apply elem_of_app in Hn' as [?|?]; apply elem_of_app; [by left|].
        right. apply elem_of_app. by right. }
      assert (Hno' : n ∈ concat (map owned pre) ++
                      owned (mkThread cs (D_store node head K_return) hl) ++
                      concat (map owned post)).
      { apply elem_of_app in Hn' as [?|?]; apply elem_of_app; [by left|].
        right. apply elem_of_app. by right. }
      pose proof (Inv_out_out_sep _ _ _ _ _ _ I Hno' Hno Hne).
      pose proof (inv_bs _ _ _ _ I). lia. }
    exists fl. split.
    + rewrite owned_app. by apply (Inv_store_held _ _ _ _ _ _ _ I Hno Hs).
    + apply Forall_app. split; [|apply Forall_cons; split].
      * rewrite Forall_forall in Hpre |- *. intros t Ht.
        apply Hother; [apply elem_of_app; by left|by apply Hpre].
      * split; [done|]. simpl. by apply (load_store_same _ _ _ _ Hs).
      * rewrite Forall_forall in Hpost |- *. intros t Ht.
        apply Hother; [apply elem_of_app; by right|by apply Hpost].
  - (* line 60 *)
    destruct k; [|done]. simpl in Hpc.
    destruct (Z.eqb_spec (freeList p) head) as [Heq|Hne].
    + split; [|split; [|done]].
      * exists (node :: fl). split.
        -- rewrite owned_app. apply (Inv_push_linked _ _ _ _ _ _ I); [|by rewrite Heq].
           unfold owned, in_flight. simpl. by rewrite <- Permutation_middle.
        -- apply Forall_app. split; [done|]. by apply Forall_cons.
      * unfold keeps, owned, in_flight, release_all. simpl.
        by destruct (decide (node = node)).
    + split; [|done]. exists fl. split; [by rewrite owned_app|].
      apply Forall_app. split; [done|]. apply Forall_cons. split; [|done].
      split; [done|]. simpl. apply (Inv_head_range I).
Qed.

Lemma run_pushers sched : forall ts h p,
  PInv ts h p -> Forall (fun i => (i < length ts)%nat) sched ->
  exists ts' h' p',
    run sched ts h p = Some (ts', h', p') /\
    PInv ts' h' p' /\ map keeps ts' = map keeps ts /\
    allocatedChunks p' = allocatedChunks p /\ blockSize p' = blockSize p /\
    blockCount p' = blockCount p /\ live h' = live h.
Proof.
  induction sched as [|i sched IH]; intros ts h p HP Hs.
  - exists ts, h, p. by simpl.
  - apply Forall_cons in Hs as (Hi & Hs).
    destruct (lookup_lt_is_Some_2 ts i Hi) as (t & Ht).
    cbn [run]. rewrite Ht.
    pose proof HP as HP'. rewrite <- (take_drop_middle ts i t Ht) in HP'.
    apply pusher_step in HP'.
    destruct (tstep t h p) as [t' h1 p1| |]; [| by apply IH |done].
    destruct HP' as (HP1 & Hk & Hc & Hbs & Hbc & Hlv).
    rewrite <- (insert_take_drop ts i t' Hi) in HP1.
    destruct (IH _ _ _ HP1) as (ts' & h' & p' & Hrun & HP2 & Hk2 & Hc2 & Hbs2 & Hbc2 & Hlv2).
    { by rewrite length_insert. }
    exists ts', h', p'. split; [done|]. split; [done|].
    split; [|repeat split; congruence].
    rewrite Hk2, (insert_take_drop ts i t' Hi).
    rewrite <- (take_drop_middle ts i t Ht) at 3.
    rewrite !map_app. simpl. by rewrite Hk.
Qed.

(** X17.  Threads that only call [deallocate], each on distinct blocks it
    holds, cannot corrupt the pool, whatever the interleaving of their
    accesses: no step is undefined, a failed compare-exchange repeats the
    store with the new head, and in every state the free list is a list of
    distinct blocks that, together with the blocks in the hands of the
    threads, are exactly the blocks of the pool.  When all threads have
    finished, each holds what it held minus what it gave back, and the
    free list has all the other blocks.  (Only [allocate] is exposed to
    the reuse of a head address.) *)
Theorem concurrent_deallocate_safe h p held ts sched :
  reachable h p held ->
  Forall returning ts ->
  Permutation (concat (map holds ts)) held ->
  Forall (fun i => (i < length ts)%nat) sched ->
  exists ts' h' p' fl',
    run sched ts h p = Some (ts', h', p') /\
    allocatedChunks p' = allocatedChunks p /\ live h' = live h /\
    FreeList h' (freeList p') fl' /\
    NoDup (fl' ++ concat (map owned ts')) /\
    Permutation (fl' ++ concat (map owned ts')) (all_blocks p) /\
    (Forall (fun t => finished t = true) ts' ->
       map holds ts' = map keeps ts /\
       (length fl' + length (concat (map holds ts')) =
        length (allocatedChunks p) * Z.to_nat (blockCount p))%nat).
Proof.
  intros Hre Hret Hperm Hs. destruct (reachable_Inv _ _ _ Hre) as (fl & I & _).
  assert (Hown : map owned ts = map holds ts).
  { clear -Hret. induction Hret as [|t ts (Hpc & _) _ IH]; [done|].
    simpl. rewrite IH. unfold owned, in_flight. by rewrite Hpc. }
  assert (HP : PInv ts h p).
  { exists fl. split.
    - apply (Inv_perm_out I). by rewrite Hown, Hperm.
    - eapply Forall_impl; [exact Hret|]. intros t (Hpc & Hok). split; [done|].
      by rewrite Hpc. }
  destruct (run_pushers sched ts h p HP Hs)
    as (ts' & h' & p' & Hrun & (fl' & I' & HF') & Hk & Hc & Hbs & Hbc & Hlv).
  exists ts', h', p', fl'. do 3 (split; [done|]).
  split; [apply (inv_free _ _ _ _ I')|].
  assert (Hall : all_blocks p' = all_blocks p).
  { unfold all_blocks. by rewrite Hc, Hbs, Hbc. }
  pose proof (inv_part _ _ _ _ I') as Hpart. rewrite Hall in Hpart.
  split; [rewrite Hpart; apply (inv_nodup _ _ _ _ I)|]. split; [done|].
  intros Hfin.
  assert (Hh : map owned ts' = map holds ts' /\ map keeps ts' = map holds ts').
  { clear -Hfin. induction Hfin as [|t ts' Hf _ IH]; [done|].
    destruct IH as (IH1 & IH2). simpl. rewrite IH1, IH2.
    unfold finished in Hf. unfold keeps, owned, in_flight.
    destruct (script t); [|done]. by destruct (pc t). }
  destruct Hh as (Ho & Hk'). split; [congruence|].
  pose proof (Inv_count I') as Hcount. rewrite Ho in Hcount.
  by rewrite Hc, Hbc in Hcount.
Qed.

(** ** Threads that only allocate *)

Lemma FreeList_cells h head l :
  FreeList h head l -> forall b, b ∈ l -> is_Some (load_ptr h b).
Proof.
  induction 1 as [|b next l Hb Hl Hfl IH]; intros x Hx; [by apply elem_of_nil in Hx|].
  apply elem_of_cons in Hx as [->|Hx]; [by rewrite Hl|by apply IH].
Qed.

Lemma load_ptr_ext_Some h h' b :
  valid_access (live h') b sizeof_Node = true ->
  (forall x, b <= x < b + sizeof_Node -> bytes h' !! x = bytes h !! x) ->
  is_Some (load_ptr h b) -> is_Some (load_ptr h' b).
Proof.
  intros Hv Hby. unfold load_ptr. rewrite Hv.
  destruct (valid_access (live h) b sizeof_Node); [|by intros [? ?]].
  rewrite (load_bytes_ext _ b (bytes h') (bytes h)); [done|].
  intros x Hx. apply Hby. rewrite positive_nat_Z in Hx. unfold sizeof_Node. lia.
Qed.

Lemma load_bytes_insert_Some n : forall a m x v,
  is_Some (load_bytes a n m) -> is_Some (load_bytes a n (<[x := v]> m)).
Proof.
  induction n as [|n IH]; intros a m x v; simpl; [done|].
  destruct (m !! a) as [b|] eqn:Hb; [|by intros [? ?]].
  destruct (load_bytes (a + 1) n m) as [bs|] eqn:Hbs; [|by intros [? ?]].
  intros _. destruct (IH (a + 1) m x v) as [bs' ->]; [by rewrite Hbs|].
  destruct (decide (x = a)) as [->|Hne].
  - by rewrite lookup_insert_eq.
  - by rewrite lookup_insert_ne, Hb.
Qed.

Lemma load_scribble_Some h x v b :
  is_Some (load_ptr h b) ->
  is_Some (load_ptr (mkHeap (<[x := v]> (bytes h)) (live h)) b).
Proof.
  unfold load_ptr. simpl. destruct (valid_access (live h) b sizeof_Node); [|done].
  intros Hs. destruct (load_bytes b (Pos.to_nat ptr_bytes) (bytes h)) as [bs|] eqn:Hbs;
    [|by destruct Hs].
  destruct (load_bytes_insert_Some (Pos.to_nat ptr_bytes) b (bytes h) x v) as [bs' ->];
    [by rewrite Hbs|done].
Qed.

Lemma allocate_block_readable fuel : forall h p b h' p',
  allocate fuel h p = Ok b h' p' -> is_Some (load_ptr h' b).
Proof.
  induction fuel as [|fuel IH]; intros h p b h' p' Ha; [done|].
  cbn [allocate] in Ha. destruct (freeList p =? 0).
  - destruct (allocateChunk h p) as [u h1 p1| | |]; try done. by apply IH in Ha.
  - destruct (load_ptr h (freeList p)) as [next|] eqn:Hl; [|done].
    injection Ha as <- <- _. by rewrite Hl.
Qed.

Lemma allocate_readable fuel h p fl out a h' p' :
  Inv h p fl out -> readable h p ->
  allocate fuel h p = Ok a h' p' -> readable h' p'.
Proof.
  intros I HR Ha b Hb.
  destruct (allocate_Inv _ _ _ _ _ _ _ _ I Ha) as (fl' & I' & _ & Hbs & _).
  pose proof Hb as Hb'. rewrite <- (inv_part _ _ _ _ I') in Hb'.
  apply elem_of_app in Hb' as [Hfl|Hout].
  - by apply (FreeList_cells _ _ _ (inv_free _ _ _ _ I')).
  - apply elem_of_cons in Hout as [->|Hout].
    + by apply (allocate_block_readable _ _ _ _ _ _ Ha).
    + apply (load_ptr_ext_Some h h' b).
      * by apply (Inv_block_valid I').
      * intros x Hx. apply (allocate_bytes _ _ _ _ _ _ _ _ I Ha b x Hout).
        pose proof (inv_bs _ _ _ _ I). lia.
      * apply HR. by apply (Inv_out_block I).
Qed.

Lemma exec_readable fuel cs : forall h p fl held held' h' p',
  Inv h p fl held -> readable h p ->
  exec fuel cs h p held = Ok held' h' p' -> readable h' p'.
Proof.
  induction cs as [|c cs IH]; intros h p fl held held' h' p' I HR He.
  - simpl in He. by injection He as _ <- <-.
  - destruct c as [|ptr|addr byte]; cbn [exec] in He.
    + destruct (allocate fuel h p) as [a h1 p1| | |] eqn:Ha; try done.
      destruct (allocate_Inv _ _ _ _ _ _ _ _ I Ha) as (fl1 & I1 & _).
      eapply IH; [exact I1| |exact He].
      by apply (allocate_readable _ _ _ _ _ _ _ _ I HR Ha).
    + destruct (decide (ptr ∈ held)) as [Hin|]; [|done].
      destruct (Inv_deallocate h p fl held ptr (release ptr held) I (release_perm _ _ Hin))
        as (h1 & Hd & Hs & I1).
      rewrite Hd in He. eapply IH; [exact I1| |exact He].
      intros b Hb. change (b ∈ all_blocks p) in Hb.
      destruct (decide (b = ptr)) as [->|Hne].
      * by rewrite (load_store_same _ _ _ _ Hs (Inv_head_range I)).
      * rewrite (load_store_other _ _ _ _ b Hs); [by apply HR|].
        pose proof (inv_sep _ _ _ _ I b ptr Hb (Inv_out_block I ptr Hin) Hne).
        pose proof (inv_bs _ _ _ _ I). lia.
    + destruct (existsb (in_block (blockSize p) addr) held) eqn:Hex; [|done].
      simpl in He. destruct ((0 <=? byte) && (byte <? 256)); [|done].
      apply existsb_in_block in Hex as (b0 & Hb0 & Hr0).
      pose proof (Inv_scribble h p fl held b0 addr byte I Hb0 Hr0) as I1.
      eapply IH; [exact I1| |exact He].
      intros b Hb. apply load_scribble_Some. by apply HR.
Qed.

Lemma reachable_readable h p held : reachable h p held -> readable h p.
Proof.
  intros (bs & bc & h0 & h1 & p1 & fuel & cs & Hs & Hc & He).
  destruct (ctor_Inv _ _ _ _ _ Hs Hc) as (_ & _ & _ & _ & _ & I1).
  eapply exec_readable; [exact I1| |exact He].
  intros b Hb. rewrite <- (inv_part _ _ _ _ I1), app_nil_r in Hb.
  by apply (FreeList_cells _ _ _ (inv_free _ _ _ _ I1)).
Qed.

Lemma holds_app pre t post :
  concat (map holds (pre ++ t :: post)) =
  concat (map holds pre) ++ holds t ++ concat (map holds post).
Proof. by rewrite map_app, concat_app. Qed.

Lemma due_app pre t post :
  sum_list_with due (pre ++ t :: post) =
  (sum_list_with due pre + (due t + sum_list_with due post))%nat.
Proof. by rewrite sum_list_with_app. Qed.

Lemma popper_ok_mono h p p' fl fl' t :
  popper_ok h p fl t -> all_blocks p' = all_blocks p ->
  (forall b, b ∈ fl' -> b ∈ fl) -> popper_ok h p' fl' t.
Proof.
  intros (Hs & Hpc) Hall Hsub. split; [done|].
  destruct (pc t); try done; try (by rewrite Hall).
  destruct Hpc as (Hn & Hl). split; [done|]. intros Hin. by apply Hl, Hsub.
Qed.

Lemma Inv_head_block h p fl out :
  Inv h p fl out -> (1 <= length fl)%nat ->
  freeList p ≠ 0 /\ freeList p ∈ all_blocks p.
Proof.
  intros I Hlen. destruct fl as [|b fl]; [simpl in Hlen; lia|].
  destruct (Inv_pop _ _ _ _ _ I) as (next & _ & -> & Hb & _).
  split; [done|]. apply (Inv_free_block I). by left.
Qed.

(** One step of a thread that only allocates, among other such
    threads. *)
Lemma popper_step pre t post h p :
  QInv (pre ++ t :: post) h p ->
  match tstep t h p with
  | Step t' h' p' =>
      QInv (pre ++ t' :: post) h' p' /\ h' = h /\
      allocatedChunks p' = allocatedChunks p /\ blockSize p' = blockSize p /\
      blockCount p' = blockCount p /\
      (length (holds t') + due t' = length (holds t) + due t)%nat
  | Done => True
  | Wrong => False
  end.
Proof.
  intros (fl & I & HF & Hsum & HR). rewrite holds_app in I. rewrite due_app in Hsum.
  apply Forall_app in HF as (Hpre & HF). apply Forall_cons in HF as (Ht & Hpost).
  destruct t as [cs pc0 hl]. destruct Ht as (Honly & Hpc).
  cbn [script pc holds] in *. unfold tstep. cbn [script pc holds].
  assert (Hkeep : forall pc1,
            (due (mkThread cs pc1 hl) = due (mkThread cs pc0 hl))%nat ->
            popper_ok h p fl (mkThread cs pc1 hl) ->
            QInv (pre ++ mkThread cs pc1 hl :: post) h p /\ h = h /\
            allocatedChunks p = allocatedChunks p /\ blockSize p = blockSize p /\
            blockCount p = blockCount p /\
            (length hl + due (mkThread cs pc1 hl) =
             length hl + due (mkThread cs pc0 hl))%nat).
  { intros pc1 Hdue Hok. split; [|repeat split; lia].
    exists fl. split; [by rewrite holds_app|]. split.
    - apply Forall_app. split; [done|]. by apply Forall_cons.
    - split; [|done]. rewrite due_app. lia. }
  assert (Hhead : (1 <= due (mkThread cs pc0 hl))%nat ->
                  freeList p ≠ 0 /\ freeList p ∈ all_blocks p).
  { intros Hd. apply (Inv_head_block _ _ _ _ I). lia. }
  destruct pc0 as [| |head|head|head next| | | | | | |]; try done.
  - (* between calls *)
    destruct cs as [|c cs]; [done|]. destruct c; try done.
    split; [|repeat split; try done; unfold due, popping; simpl; lia].
    exists fl. split; [by rewrite holds_app|]. split.
    + apply Forall_app. split; [done|]. by apply Forall_cons.
    + split; [|done]. rewrite due_app. unfold due, popping in *. simpl in *. lia.
  - (* line 40 *)
    apply Hkeep; [done|]. split; [done|]. apply Hhead. unfold due, popping. simpl. lia.
  - (* line 41 *)
    destruct Hpc as (Hnz & Hblk). destruct (Z.eqb_spec head 0) as [|_]; [done|].
    by apply Hkeep.
  - (* line 43, the read of the link *)
    destruct Hpc as (Hnz & Hblk). destruct (HR head Hblk) as (next & Hl).
    rewrite Hl. apply Hkeep; [done|]. split; [done|]. by split.
  - (* line 43, the compare-exchange *)
    destruct Hpc as (Hnz & Hlink).
    destruct (Z.eqb_spec (freeList p) head) as [Heq|Hne].
    + subst head.
      destruct (FreeList_nonnull _ _ _ (inv_free _ _ _ _ I) Hnz) as (fl' & ->).
      destruct (Inv_pop _ _ _ _ _ I) as (next0 & Hl0 & _ & _ & _ & I').
      assert (next0 = next) as ->.
      { rewrite Hlink in Hl0 by (by left). by injection Hl0. }
      split; [|repeat split; try done; unfold due, popping; simpl; lia].
      exists fl'. split.
      * rewrite holds_app. apply (Inv_perm_out I'). cbn [holds].
        by rewrite Permutation_middle.
      * assert (Hmono : forall t, popper_ok h p (freeList p :: fl') t ->
                  popper_ok h (mkPool next (allocatedChunks p) (blockSize p) (blockCount p))
                            fl' t).
        { intros t Hok. apply (popper_ok_mono _ _ _ _ _ _ Hok); [done|].
          intros b Hb. by right. }
        split; [|split; [|done]].
        -- apply Forall_app. split; [by eapply Forall_impl; [exact Hpre|]|].
           apply Forall_cons. split; [done|]. by eapply Forall_impl; [exact Hpost|].
        -- rewrite due_app. unfold due, popping in *. simpl in *. lia.
    + apply Hkeep; [done|]. split; [done|]. apply Hhead. unfold due, popping. simpl. lia.
Qed.

Lemma run_poppers sched : forall ts h p,
  QInv ts h p -> Forall (fun i => (i < length ts)%nat) sched ->
  exists ts' p',
    run sched ts h p = Some (ts', h, p') /\
    QInv ts' h p' /\
    map (fun t => (length (holds t) + due t)%nat) ts' =
      map (fun t => (length (holds t) + due t)%nat) ts /\
    allocatedChunks p' = allocatedChunks p /\ blockSize p' = blockSize p /\
    blockCount p' = blockCount p.
Proof.
  induction sched as [|i sched IH]; intros ts h p HQ Hs.
  - exists ts, p. by simpl.
  - apply Forall_cons in Hs as (Hi & Hs).
    destruct (lookup_lt_is_Some_2 ts i Hi) as (t & Ht).
    cbn [run]. rewrite Ht.
    pose proof HQ as HQ'. rewrite <- (take_drop_middle ts i t Ht) in HQ'.
    apply popper_step in HQ'.
    destruct (tstep t h p) as [t' h1 p1| |]; [| by apply IH |done].
    destruct HQ' as (HQ1 & -> & Hc & Hbs & Hbc & Hk).
    rewrite <- (insert_take_drop ts i t' Hi) in HQ1.
    destruct (IH _ _ _ HQ1) as (ts' & p' & Hrun & HQ2 & Hk2 & Hc2 & Hbs2 & Hbc2).
    { by rewrite length_insert. }
    exists ts', p'. split; [done|]. split; [done|].
    split; [|repeat split; congruence].
    rewrite Hk2, (insert_take_drop ts i t' Hi).
    rewrite <- (take_drop_middle ts i t Ht) at 3.
    rewrite !map_app. simpl. by rewrite Hk.
Qed.

(** X18.  Threads that only call [allocate] cannot be handed the same block
    twice, whatever the interleaving of their accesses, while the free
    list has a block for each of their calls: no step is undefined, the
    heap is never written, no chunk is added, a compare-exchange that
    finds another head starts over, and in every state the free list and
    the handles of the threads are distinct blocks that together are
    exactly the blocks of the pool.  When all threads have finished, each
    has one more handle for each call it made.  (The reuse of a head
    address needs a [deallocate] between the read of line 43 and its
    compare-exchange.) *)
Theorem concurrent_allocate_safe h p held ts sched :
  reachable h p held ->
  Forall allocating ts ->
  Permutation (concat (map holds ts)) held ->
  (sum_list_with due ts + length held <=
   length (allocatedChunks p) * Z.to_nat (blockCount p))%nat ->
  Forall (fun i => (i < length ts)%nat) sched ->
  exists ts' p' fl',
    run sched ts h p = Some (ts', h, p') /\
    allocatedChunks p' = allocatedChunks p /\
    FreeList h (freeList p') fl' /\
    NoDup (fl' ++ concat (map holds ts')) /\
    Permutation (fl' ++ concat (map holds ts')) (all_blocks p) /\
    (Forall (fun t => finished t = true) ts' ->
       map (fun t => length (holds t)) ts' =
       map (fun t => (length (holds t) + allocs (script t))%nat) ts).
Proof.
  intros Hre Hall Hperm Hroom Hs. destruct (reachable_Inv _ _ _ Hre) as (fl & I & _).
  assert (HQ : QInv ts h p).
  { exists fl. split; [apply (Inv_perm_out I); by rewrite Hperm|]. split.
    - eapply Forall_impl; [exact Hall|]. intros t (Hpc & Hok). split; [done|].
      by rewrite Hpc.
    - split; [|by apply (reachable_readable _ _ _ Hre)].
      pose proof (Inv_count I). lia. }
  destruct (run_poppers sched ts h p HQ Hs)
    as (ts' & p' & Hrun & (fl' & I' & _ & _ & _) & Hk & Hc & Hbs & Hbc).
  exists ts', p', fl'. do 2 (split; [done|]).
  split; [apply (inv_free _ _ _ _ I')|].
  assert (Hallb : all_blocks p' = all_blocks p).
  { unfold all_blocks. by rewrite Hc, Hbs, Hbc. }
  pose proof (inv_part _ _ _ _ I') as Hpart. rewrite Hallb in Hpart.
  split; [rewrite Hpart; apply (inv_nodup _ _ _ _ I)|]. split; [done|].
  intros Hfin.
  assert (Hl : map (fun t => length (holds t)) ts' =
               map (fun t => (length (holds t) + due t)%nat) ts').
  { clear -Hfin. induction Hfin as [|t ts' Hf _ IH]; [done|].
    simpl. rewrite IH. f_equal. unfold finished in Hf. unfold due, popping.
    destruct (script t); [|done]. destruct (pc t); try done; simpl; lia. }
  rewrite Hl, Hk. clear -Hall. induction Hall as [|t ts (Hpc & _) _ IH]; [done|].
  simpl. rewrite IH. f_equal. unfold due, popping. rewrite Hpc. lia.
Qed.

End PoolFacts.

(** ** Ownership transfer *)

Lemma free_chunk_keeps c h h' :
  free_chunk c h = Some h' ->
  bytes h' = bytes h /\ forall r, r ∈ live h -> r.1 ≠ c -> r ∈ live h'.
Proof.
  unfold free_chunk. destruct (c =? 0); [by intros [= <-]|].
  destruct (existsb _ (live h)); [|done]. intros [= <-]. simpl.
  split; [done|]. intros r Hr Hne. by apply list_elem_of_filter.
Qed.

Lemma free_all_keeps cs : forall h h',
  free_all cs h = Some h' ->
  bytes h' = bytes h /\ forall r, r ∈ live h -> r.1 ∉ cs -> r ∈ live h'.
Proof.
  induction cs as [|c cs IH]; intros h h'; simpl.
  - intros [= <-]. done.
  - destruct (free_chunk c h) as [h1|] eqn:Hf; [|done]. intros Hall.
    destruct (free_chunk_keeps _ _ _ Hf) as (Hb1 & Hl1).
    destruct (IH _ _ Hall) as (Hb & Hl). split; [congruence|].
    intros r Hr Hnot. apply Hl.
    + apply Hl1; [done|]. intros Heq. apply Hnot. rewrite Heq. by left.
    + intros Hin. apply Hnot. by right.
Qed.

(** C7.  Move construction of a new object [d] from [s], and move
    assignment to an existing object [d] from a different object [s]
    whose old chunks can be released: afterwards [s] has no chunks, a
    null free-list head and zero sizes; [d] has exactly the members [s]
    had; the bytes of the heap, and so every link of the free list, are
    untouched; regions not owned by the old [d] stay live; and no other
    pool object changes. *)
Theorem move_transfers_ownership :
  (forall d s objs S,
     objs !! s = Some S -> objs !! d = None ->
     exists objs',
       MemoryPool_move_ctor d s objs = Some objs' /\
       objs' !! d = Some S /\
       objs' !! s = Some moved_from /\
       forall k, k ≠ d -> k ≠ s -> objs' !! k = objs !! k) /\
  (forall d s h objs D S h',
     d ≠ s -> objs !! d = Some D -> objs !! s = Some S ->
     free_all (allocatedChunks D) h = Some h' ->
     exists objs',
       MemoryPool_move_assign d s (h, objs) = Some (h', objs') /\
       objs' !! d = Some S /\
       objs' !! s = Some moved_from /\
       bytes h' = bytes h /\
       (forall r, r ∈ live h -> r.1 ∉ allocatedChunks D -> r ∈ live h') /\
       forall k, k ≠ d -> k ≠ s -> objs' !! k = objs !! k).
Proof.
  split.
  - intros d s objs S Hs Hd.
    assert (Hne : d ≠ s) by congruence.
    unfold MemoryPool_move_ctor. rewrite Hd, Hs. eexists. split; [done|].
    split; [|split].
    + rewrite lookup_insert_eq. by destruct S.
    + rewrite lookup_insert_ne by done. by rewrite lookup_insert_eq.
    + intros k Hkd Hks. by rewrite !lookup_insert_ne.
  - intros d s h objs D S h' Hne Hd Hs Hfree.
    unfold MemoryPool_move_assign. rewrite Hd, Hs.
    destruct (decide (d ≠ s)); [|done]. rewrite Hfree.
    eexists. split; [done|].
    destruct (free_all_keeps _ _ _ Hfree) as (Hb & Hl).
    split; [|split; [|split; [|split]]]; try done.
    + rewrite lookup_insert_ne by done. rewrite lookup_insert_eq. by destruct S.
    + by rewrite lookup_insert_eq.
    + intros k Hkd Hks. by rewrite !lookup_insert_ne.
Qed.

(** Assigning a pool to itself changes nothing (line 82). *)
Lemma move_assign_self d h objs D :
  objs !! d = Some D -> MemoryPool_move_assign d d (h, objs) = Some (h, objs).
Proof.
  intros Hd. unfold MemoryPool_move_assign. rewrite Hd.
  destruct (decide (d ≠ d)); done.
Qed.

(** C1.  The constructor does not raise the block size it stores.  On a
    platform with 8-byte pointers, [MemoryPool(4, 0)] returns a pool whose
    [blockSize] is 4; [MemoryPool(4, 10)] asks malloc for 40 bytes, carves
    blocks 4 bytes apart (after two iterations the head is 4 bytes above
    the chunk base and the link of the first block has been overwritten),
    and its tenth store runs past the end of the chunk, which is undefined
    behaviour. *)
Theorem ctor_keeps_small_blockSize :
  (exists h, MemoryPool_ctor lp64 demo_malloc 4 0 empty_heap =
               Ok tt h (mkPool 0 [4096] 4 0)) /\
  4 < sizeof_Node lp64 /\
  demo_malloc (live empty_heap) (wrap lp64 (4 * 10)) = 4096 /\
  wrap lp64 (4 * 10) = 40 /\
  match carve lp64 2 4096 0 (mkHeap ∅ [(4096, 40)]) (mkPool 0 [4096] 4 10) with
  | Ok _ h2 p2 =>
      p2 = mkPool 4100 [4096] 4 10 /\ load_ptr lp64 h2 4096 = Some (4096 * 2 ^ 32)
  | _ => False
  end /\
  match carve lp64 9 4096 0 (mkHeap ∅ [(4096, 40)]) (mkPool 0 [4096] 4 10) with
  | Ok _ h9 p9 => deallocate lp64 (4096 + 9 * 4) h9 p9 = Undefined
  | _ => False
  end /\
  MemoryPool_ctor lp64 demo_malloc 4 10 empty_heap = Undefined.
Proof.
  split; [eexists; vm_compute; reflexivity|].
  split; [reflexivity|]. split; [reflexivity|]. split; [reflexivity|].
  split; [vm_compute; split; reflexivity|].
  split; vm_compute; reflexivity.
Qed.

(** C8.  Two threads, three calls each, no external locking.  Thread 0
    reads the head 4128 and its link 4112 and is then preempted; thread 1
    pops 4128 and 4112 and pushes 4128 back; thread 0's compare-exchange
    finds the head equal to 4128 again and installs 4112 as the new head,
    although thread 1 holds that block.  Thread 0's next [allocate]
    returns 4112.  When both threads have finished, block 4112 is held by
    both, four handles are out although the pool has three blocks, and
    the free list (empty) is not capacity minus handles held. *)
Theorem aba_hands_out_block_twice :
  MemoryPool_ctor lp64 demo_malloc 16 3 empty_heap =
    Ok tt (demo_heap 16 3 []) (demo_pool 16 3 []) /\
  walk lp64 3 (demo_heap 16 3 []) (freeList (demo_pool 16 3 [])) =
    Some [4128; 4112; 4096] /\
  match run lp64 demo_malloc (repeat 0%nat 4 ++ repeat 1%nat 14)
            [aba_thread0; aba_thread1] (demo_heap 16 3 []) (demo_pool 16 3 []) with
  | Some (ts, h, p) =>
      map pc ts = [A_cas 4128 4112; Idle] /\
      map holds ts = [[]; [4112]] /\
      walk lp64 3 h (freeList p) = Some [4128; 4096]
  | None => False
  end /\
  match run lp64 demo_malloc aba_schedule [aba_thread0; aba_thread1]
            (demo_heap 16 3 []) (demo_pool 16 3 []) with
  | Some (ts, h, p) =>
      forallb finished ts = true /\
      map holds ts = [[4096; 4112; 4128]; [4112]] /\
      allocatedChunks p = [4096] /\ blockCount p = 3 /\
      walk lp64 3 h (freeList p) = Some [] /\
      0 ≠ Z.of_nat (length (allocatedChunks p)) * blockCount p
          - Z.of_nat (length (concat (map holds ts)))
  | None => False
  end.
Proof.
  split; [vm_compute; reflexivity|]. split; [vm_compute; reflexivity|].
  split; [vm_compute; repeat split; reflexivity|].
  vm_compute. repeat split; discriminate.
Qed.

(** ** Facts about the demonstration allocator *)

Lemma bump_top_ge base lv :
  let top := fold_right (fun c acc => Z.max acc (c.1 + Z.max c.2 1)) base lv in
  base <= top /\ Forall (fun c => c.1 + Z.max c.2 1 <= top) lv.
Proof.
  induction lv as [|c lv [IH1 IH2]]; simpl.
  - split; [lia|constructor].
  - split; [lia|]. constructor; [lia|].
    eapply Forall_impl; [exact IH2|]. simpl. intros d Hd. lia.
Qed.

Lemma bump_malloc_ok ptr_bytes base :
  0 < base -> malloc_ok ptr_bytes (bump_malloc ptr_bytes base).
Proof.
  intros Hbase lv sz Hsz. unfold bump_malloc.
  destruct (bump_top_ge base lv) as [H1 H2].
  destruct (Z.leb_spec
    (fold_right (fun c acc => Z.max acc (c.1 + Z.max c.2 1)) base lv + Z.max sz 1)
    (SIZE_MAX1 ptr_bytes)) as [Hle|]; [right|by left].
  split; [lia|]. split; [lia|].
  eapply Forall_impl; [exact H2|]. intros c Hc. unfold apart. simpl in *. lia.
Qed.

Lemma demo_sane_start bs bc :
  0 < bs -> 1 <= bc -> bs * bc < 2 ^ 64 ->
  sane_start lp64 demo_malloc bs bc empty_heap.
Proof.
  intros H1 H2 H3. split; [by apply bump_malloc_ok|].
  split; [exact Logic.I|]. done.
Qed.

Lemma demo_reachable bs bc cs held h p :
  0 < bs -> 1 <= bc -> bs * bc < 2 ^ 64 ->
  demo_run bs bc cs = Ok held h p ->
  reachable lp64 demo_malloc h p held.
Proof.
  intros H1 H2 H3. unfold demo_run.
  destruct (MemoryPool_ctor lp64 demo_malloc bs bc empty_heap) as [[] h1 p1| | |] eqn:Hc;
    try done.
  intros He. exists bs, bc, empty_heap, h1, p1, 2%nat, cs.
  split; [by apply demo_sane_start|]. done.
Qed.

(** The scenario of section 8 of the specification: a pool of 16-byte
    blocks, 4 per chunk.  Four allocations use the first chunk, the fifth
    acquires a second one; after the five blocks are given back the free
    list has 8 blocks; 8 more allocations need no chunk and the ninth
    acquires a third. *)
Example scenario_16_4 :
  let frees := map Deallocate [4144; 4128; 4112; 4096; 4208] in
  demo_held 16 4 (repeat Allocate 4) = [4096; 4112; 4128; 4144] /\
  allocatedChunks (demo_pool 16 4 (repeat Allocate 4)) = [4096] /\
  demo_held 16 4 (repeat Allocate 5) = [4208; 4096; 4112; 4128; 4144] /\
  allocatedChunks (demo_pool 16 4 (repeat Allocate 5)) = [4096; 4160] /\
  (length <$> walk lp64 8 (demo_heap 16 4 (repeat Allocate 5 ++ frees))
                (freeList (demo_pool 16 4 (repeat Allocate 5 ++ frees)))) = Some 8%nat /\
  allocatedChunks (demo_pool 16 4 (repeat Allocate 5 ++ frees)) = [4096; 4160] /\
  allocatedChunks (demo_pool 16 4 (repeat Allocate 5 ++ frees ++ repeat Allocate 8))
    = [4096; 4160] /\
  allocatedChunks (demo_pool 16 4 (repeat Allocate 5 ++ frees ++ repeat Allocate 9))
    = [4096; 4160; 4224].
Proof. vm_compute. repeat split; reflexivity. Qed.

(** A thread between calls that gives back one block it holds. *)
Lemma returning_one ptr hl :
  ptr ∈ hl -> returning (mkThread [Deallocate ptr] Idle hl).
Proof.
  intros Hin. split; [done|]. split; [done|]. simpl. split; [apply NoDup_singleton|].
  by intros b ->%list_elem_of_singleton.
Qed.

(** ** Instances *)

Lemma deallocate_then_allocate_returns_same_witness :
  reachable lp64 demo_malloc
    (demo_heap 16 4 [Allocate; Allocate]) (demo_pool 16 4 [Allocate; Allocate])
    (demo_held 16 4 [Allocate; Allocate]) /\
  4144 ∈ demo_held 16 4 [Allocate; Allocate] /\
  exists h1 p1,
    deallocate lp64 4144 (demo_heap 16 4 [Allocate; Allocate])
               (demo_pool 16 4 [Allocate; Allocate]) = Ok tt h1 p1 /\
    allocate lp64 demo_malloc 1 h1 p1 = Ok 4144 h1 (demo_pool 16 4 [Allocate; Allocate]).
Proof.
  assert (Hre : reachable lp64 demo_malloc
    (demo_heap 16 4 [Allocate; Allocate]) (demo_pool 16 4 [Allocate; Allocate])
    (demo_held 16 4 [Allocate; Allocate])).
  { apply (demo_reachable 16 4 [Allocate; Allocate]); [lia|lia|lia|].
    vm_compute. reflexivity. }
  assert (Hin : 4144 ∈ demo_held 16 4 [Allocate; Allocate]).
  { vm_compute. apply list_elem_of_In. simpl. tauto. }
  split; [exact Hre|]. split; [exact Hin|].
  exact (deallocate_then_allocate_returns_same lp64 demo_malloc _ _ _ 4144 O Hre Hin).
Defined.

Lemma bad_alloc_propagates_witness :
  demo_malloc (live empty_heap) (wrap lp64 ((2 ^ 64 - 1) * 1)) = 0 /\
  allocateChunk lp64 demo_malloc empty_heap (mkPool 0 [] (2 ^ 64 - 1) 1) =
    BadAlloc empty_heap (mkPool 0 [] (2 ^ 64 - 1) 1) /\
  MemoryPool_ctor lp64 demo_malloc (2 ^ 64 - 1) 1 empty_heap =
    BadAlloc empty_heap (mkPool 0 [] (2 ^ 64 - 1) 1) /\
  reachable lp64 demo_malloc (demo_heap (2 ^ 63) 1 [Allocate])
    (demo_pool (2 ^ 63) 1 [Allocate]) (demo_held (2 ^ 63) 1 [Allocate]) /\
  allocate lp64 demo_malloc 2 (demo_heap (2 ^ 63) 1 [Allocate])
    (demo_pool (2 ^ 63) 1 [Allocate]) =
    BadAlloc (demo_heap (2 ^ 63) 1 [Allocate]) (demo_pool (2 ^ 63) 1 [Allocate]) /\
  freeList (demo_pool (2 ^ 63) 1 [Allocate]) = 0.
Proof.
  destruct (bad_alloc_propagates lp64 demo_malloc) as (Hfail & _ & _ & Hback).
  assert (Hm : demo_malloc (live empty_heap) (wrap lp64 ((2 ^ 64 - 1) * 1)) = 0)
    by (vm_compute; reflexivity).
  destruct (Hfail empty_heap (mkPool 0 [] (2 ^ 64 - 1) 1) Hm) as (H1 & _ & _ & H4).
  assert (Hre : reachable lp64 demo_malloc (demo_heap (2 ^ 63) 1 [Allocate])
    (demo_pool (2 ^ 63) 1 [Allocate]) (demo_held (2 ^ 63) 1 [Allocate])).
  { apply (demo_reachable (2 ^ 63) 1 [Allocate]); [lia|lia|lia|].
    vm_compute. reflexivity. }
  assert (Ha : allocate lp64 demo_malloc 2 (demo_heap (2 ^ 63) 1 [Allocate])
    (demo_pool (2 ^ 63) 1 [Allocate]) =
    BadAlloc (demo_heap (2 ^ 63) 1 [Allocate]) (demo_pool (2 ^ 63) 1 [Allocate]))
    by (vm_compute; reflexivity).
  split; [exact Hm|]. split; [exact H1|]. split; [by apply H4|].
  split; [exact Hre|]. split; [exact Ha|].
  destruct (Hback _ _ _ 2%nat _ _ Hre Ha) as (_ & _ & Hz & _). exact Hz.
Defined.

Lemma conservation_witness :
  let cs1 := repeat Allocate 5 in
  let cs2 := map Deallocate [4144; 4128; 4112; 4096; 4208] in
  let h2 := demo_heap 16 4 (cs1 ++ cs2) in
  let p2 := demo_pool 16 4 (cs1 ++ cs2) in
  reachable lp64 demo_malloc (demo_heap 16 4 []) (demo_pool 16 4 []) [] /\
  exec lp64 demo_malloc 2 (cs1 ++ cs2) (demo_heap 16 4 []) (demo_pool 16 4 []) []
    = Ok [] h2 p2 /\
  exists held1 h1 p1 fl,
    exec lp64 demo_malloc 2 cs1 (demo_heap 16 4 []) (demo_pool 16 4 []) []
      = Ok held1 h1 p1 /\
    (length (allocatedChunks (demo_pool 16 4 [])) <= length (allocatedChunks p1))%nat /\
    (length (allocatedChunks p1) <= length (allocatedChunks p2))%nat /\
    FreeList lp64 h2 (freeList p2) fl /\
    Z.of_nat (length fl) =
      Z.of_nat (length (allocatedChunks p2)) * blockCount p2 - Z.of_nat (@length Z []) /\
    (@length Z [] + deallocs (cs1 ++ cs2) = @length Z [] + allocs (cs1 ++ cs2))%nat.
Proof.
  intros cs1 cs2 h2 p2.
  assert (Hre : reachable lp64 demo_malloc (demo_heap 16 4 []) (demo_pool 16 4 []) []).
  { apply (demo_reachable 16 4 []); [lia|lia|lia|]. vm_compute. reflexivity. }
  assert (He : exec lp64 demo_malloc 2 (cs1 ++ cs2) (demo_heap 16 4 []) (demo_pool 16 4 []) []
               = Ok [] h2 p2).
  { vm_compute. reflexivity. }
  split; [exact Hre|]. split; [exact He|].
  exact (conservation lp64 demo_malloc _ _ _ 2 cs1 cs2 [] h2 p2 Hre He).
Defined.

Lemma growth_trigger_witness :
  sane_start lp64 demo_malloc 16 4 empty_heap /\
  MemoryPool_ctor lp64 demo_malloc 16 4 empty_heap =
    Ok tt (demo_heap 16 4 []) (demo_pool 16 4 []) /\
  length (allocatedChunks (demo_pool 16 4 [])) = 1%nat /\
  (exists held h p,
     exec lp64 demo_malloc 1 (repeat Allocate (Z.to_nat 4))
       (demo_heap 16 4 []) (demo_pool 16 4 []) [] = Ok held h p /\
     length held = Z.to_nat 4 /\
     allocatedChunks p = allocatedChunks (demo_pool 16 4 []) /\
     live h = live (demo_heap 16 4 [])) /\
  match exec lp64 demo_malloc 2 (repeat Allocate (S (Z.to_nat 4)))
          (demo_heap 16 4 []) (demo_pool 16 4 []) [] with
  | Ok held h p => length held = S (Z.to_nat 4) /\ length (allocatedChunks p) = 2%nat
  | BadAlloc h p =>
      demo_malloc (live (demo_heap 16 4 [])) (16 * 4) = 0 /\
      allocatedChunks p = allocatedChunks (demo_pool 16 4 [])
  | _ => False
  end.
Proof.
  assert (Hs : sane_start lp64 demo_malloc 16 4 empty_heap)
    by (apply demo_sane_start; lia).
  assert (Hc : MemoryPool_ctor lp64 demo_malloc 16 4 empty_heap =
               Ok tt (demo_heap 16 4 []) (demo_pool 16 4 []))
    by (vm_compute; reflexivity).
  split; [exact Hs|]. split; [exact Hc|].
  exact (growth_trigger lp64 demo_malloc 16 4 empty_heap _ _ 0 Hs Hc).
Defined.

Lemma allocations_distinct_witness :
  reachable lp64 demo_malloc (demo_heap 16 4 [Allocate]) (demo_pool 16 4 [Allocate])
            (demo_held 16 4 [Allocate]) /\
  match exec lp64 demo_malloc 2 (repeat Allocate 6)
          (demo_heap 16 4 [Allocate]) (demo_pool 16 4 [Allocate])
          (demo_held 16 4 [Allocate]) with
  | Ok held' h' p' =>
      exists new,
        held' = new ++ demo_held 16 4 [Allocate] /\ length new = 6%nat /\
        NoDup (new ++ demo_held 16 4 [Allocate]) /\
        forall b, b ∈ new ->
          exists c, c ∈ allocatedChunks p' /\
                    (c, blockSize p' * blockCount p') ∈ live h' /\
                    c <= b /\ b + blockSize p' <= c + blockSize p' * blockCount p'
  | BadAlloc h' p' =>
      freeList p' = 0 /\ demo_malloc (live h') (blockSize p' * blockCount p') = 0
  | _ => False
  end.
Proof.
  assert (Hre : reachable lp64 demo_malloc (demo_heap 16 4 [Allocate])
                  (demo_pool 16 4 [Allocate]) (demo_held 16 4 [Allocate])).
  { apply (demo_reachable 16 4 [Allocate]); [lia|lia|lia|]. vm_compute. reflexivity. }
  split; [exact Hre|].
  exact (allocations_distinct lp64 demo_malloc _ _ _ 6 0 Hre).
Defined.

Lemma allocate_recursion_depth_witness :
  (reachable lp64 demo_malloc (demo_heap 16 4 (repeat Allocate 4))
     (demo_pool 16 4 (repeat Allocate 4)) (demo_held 16 4 (repeat Allocate 4)) /\
   allocate lp64 demo_malloc 1 (demo_heap 16 4 (repeat Allocate 4))
     (demo_pool 16 4 (repeat Allocate 4)) = OutOfFuel /\
   forall fuel,
     allocate lp64 demo_malloc (S (S fuel)) (demo_heap 16 4 (repeat Allocate 4))
       (demo_pool 16 4 (repeat Allocate 4)) =
     allocate lp64 demo_malloc 2 (demo_heap 16 4 (repeat Allocate 4))
       (demo_pool 16 4 (repeat Allocate 4))) /\
  (blockCount (demo_pool 16 0 []) = 0 /\ freeList (demo_pool 16 0 []) = 0 /\
   zero_requests_succeed demo_malloc 5 (live (demo_heap 16 0 [])) /\
   allocate lp64 demo_malloc 5 (demo_heap 16 0 []) (demo_pool 16 0 []) = OutOfFuel).
Proof.
  destruct (allocate_recursion_depth lp64 demo_malloc) as [Ha Hb].
  split.
  - assert (Hre : reachable lp64 demo_malloc (demo_heap 16 4 (repeat Allocate 4))
       (demo_pool 16 4 (repeat Allocate 4)) (demo_held 16 4 (repeat Allocate 4))).
    { apply (demo_reachable 16 4 (repeat Allocate 4)); [lia|lia|lia|].
      vm_compute. reflexivity. }
    split; [exact Hre|]. split; [vm_compute; reflexivity|].
    destruct (Ha _ _ _ Hre) as [H1 _]. exact H1.
  - assert (Hbc : blockCount (demo_pool 16 0 []) = 0) by (vm_compute; reflexivity).
    assert (Hz : freeList (demo_pool 16 0 []) = 0) by (vm_compute; reflexivity).
    assert (Hsucc : zero_requests_succeed demo_malloc 5 (live (demo_heap 16 0 []))).
    { vm_compute. repeat split; discriminate. }
    split; [exact Hbc|]. split; [exact Hz|]. split; [exact Hsucc|].
    destruct (Hb (demo_heap 16 0 []) _ Hbc Hz) as [_ H2]. exact (H2 5%nat Hsucc).
Defined.

Lemma move_transfers_ownership_witness :
  let S := mkPool 4144 [4096] 16 4 in
  let D := mkPool 0 [8192] 32 2 in
  let objs : gmap nat MemoryPool := <[1%nat := S]> (<[2%nat := D]> ∅) in
  let h := mkHeap ∅ [(8192, 64); (4096, 64)] in
  (objs !! 1%nat = Some S /\ objs !! 3%nat = None /\
   exists objs',
     MemoryPool_move_ctor 3 1 objs = Some objs' /\
     objs' !! 3%nat = Some S /\
     objs' !! 1%nat = Some moved_from) /\
  (2%nat ≠ 1%nat /\ objs !! 2%nat = Some D /\
   free_all (allocatedChunks D) h = Some (mkHeap ∅ [(4096, 64)]) /\
   exists objs',
     MemoryPool_move_assign 2 1 (h, objs) = Some (mkHeap ∅ [(4096, 64)], objs') /\
     objs' !! 2%nat = Some S /\
     objs' !! 1%nat = Some moved_from).
Proof.
  intros S D objs h. destruct move_transfers_ownership as [Hctor Hassign].
  assert (H1 : objs !! 1%nat = Some S) by (vm_compute; reflexivity).
  assert (H2 : objs !! 2%nat = Some D) by (vm_compute; reflexivity).
  assert (H3 : objs !! 3%nat = None) by (vm_compute; reflexivity).
  split.
  - split; [exact H1|]. split; [exact H3|].
    destruct (Hctor 3%nat 1%nat objs S H1 H3) as (objs' & Hm & Hd & Hs & _).
    exists objs'. split; [exact Hm|]. split; [exact Hd|exact Hs].
  - assert (Hne : 2%nat ≠ 1%nat) by discriminate.
    assert (Hf : free_all (allocatedChunks D) h = Some (mkHeap ∅ [(4096, 64)]))
      by (vm_compute; reflexivity).
    split; [exact Hne|]. split; [exact H2|]. split; [exact Hf|].
    destruct (Hassign 2%nat 1%nat h objs D S _ Hne H2 H1 Hf)
      as (objs' & Hm & Hd & Hs & _).
    exists objs'. split; [exact Hm|]. split; [exact Hd|exact Hs].
Defined.


Lemma allocate_returns_linked_block_witness :
  allocate lp64 demo_malloc 1 (demo_heap 16 4 []) (demo_pool 16 4 []) =
    Ok 4144 (demo_heap 16 4 []) (mkPool 4128 [4096] 16 4) /\
  load_ptr lp64 (demo_heap 16 4 []) 4144 = Some 4128.
Proof.
  assert (Ha : allocate lp64 demo_malloc 1 (demo_heap 16 4 []) (demo_pool 16 4 []) =
               Ok 4144 (demo_heap 16 4 []) (mkPool 4128 [4096] 16 4))
    by (vm_compute; reflexivity).
  split; [exact Ha|].
  destruct (allocate_returns_linked_block lp64 demo_malloc 1 _ _ _ _ _ Ha) as (_ & Hl & _).
  exact Hl.
Defined.

Lemma double_free_cycle_witness :
  let h := demo_heap 16 4 [Allocate] in
  let p := demo_pool 16 4 [Allocate] in
  let h1 := demo_heap 16 4 [Allocate; Deallocate 4144] in
  let p1 := demo_pool 16 4 [Allocate; Deallocate 4144] in
  deallocate lp64 4144 h p = Ok tt h1 p1 /\ 0 < 4144 < SIZE_MAX1 lp64 /\
  exists h2,
    deallocate lp64 4144 h1 p1 = Ok tt h2 p1 /\
    load_ptr lp64 h2 4144 = Some 4144 /\
    forall fuel n held,
      exec lp64 demo_malloc (S fuel) (repeat Allocate n) h2 p1 held =
        Ok (repeat 4144 n ++ held) h2 p1.
Proof.
  intros h p h1 p1.
  assert (Hd : deallocate lp64 4144 h p = Ok tt h1 p1) by (vm_compute; reflexivity).
  assert (Hr : 0 < 4144 < SIZE_MAX1 lp64) by (split; reflexivity).
  split; [exact Hd|]. split; [exact Hr|].
  exact (double_free_cycle lp64 demo_malloc 4144 h p h1 p1 Hd Hr).
Defined.

Lemma deallocate_null_undefined_witness :
  let h := demo_heap 16 4 [Allocate; Allocate] in
  let p := demo_pool 16 4 [Allocate; Allocate] in
  regions_ok lp64 (live h) /\
  live h = [(4096, 64)] /\
  deallocate lp64 4144 h p ≠ Undefined /\
  deallocate lp64 0 h p = Undefined /\
  Test_operator_delete lp64 0 h p = Undefined.
Proof.
  intros h p.
  assert (Hr : regions_ok lp64 (live h)).
  { assert (Hre : reachable lp64 demo_malloc h p (demo_held 16 4 [Allocate; Allocate])).
    { apply (demo_reachable 16 4 [Allocate; Allocate]); [lia|lia|lia|].
      vm_compute. reflexivity. }
    destruct (reachable_Inv lp64 demo_malloc _ _ _ Hre) as (fl & Hinv & _).
    exact (inv_heap _ _ _ _ _ _ Hinv). }
  split; [exact Hr|]. split; [vm_compute; reflexivity|].
  split; [vm_compute; discriminate|].
  exact (deallocate_null_undefined lp64 h p Hr).
Defined.

Lemma blocks_partition_witness :
  let h := demo_heap 16 4 [Allocate; Allocate] in
  let p := demo_pool 16 4 [Allocate; Allocate] in
  let held := demo_held 16 4 [Allocate; Allocate] in
  reachable lp64 demo_malloc h p held /\
  exists fl,
    FreeList lp64 h (freeList p) fl /\ NoDup fl /\ NoDup held /\
    (forall b, b ∈ fl -> b ∉ held) /\
    (forall b, b ∈ all_blocks p <-> b ∈ fl \/ b ∈ held) /\
    (forall x y, x ∈ all_blocks p -> y ∈ all_blocks p -> x ≠ y ->
       x + blockSize p <= y \/ y + blockSize p <= x).
Proof.
  intros h p held.
  assert (Hre : reachable lp64 demo_malloc h p held).
  { apply (demo_reachable 16 4 [Allocate; Allocate]); [lia|lia|lia|].
    vm_compute. reflexivity. }
  split; [exact Hre|].
  exact (blocks_partition lp64 demo_malloc h p held Hre).
Defined.

Lemma chunks_stay_live_witness :
  let h := demo_heap 16 4 (repeat Allocate 5) in
  let p := demo_pool 16 4 (repeat Allocate 5) in
  let held := demo_held 16 4 (repeat Allocate 5) in
  reachable lp64 demo_malloc h p held /\
  NoDup (allocatedChunks p) /\
  (forall c, c ∈ allocatedChunks p ->
     0 < c /\ (c, blockSize p * blockCount p) ∈ live h).
Proof.
  intros h p held.
  assert (Hre : reachable lp64 demo_malloc h p held).
  { apply (demo_reachable 16 4 (repeat Allocate 5)); [lia|lia|lia|].
    vm_compute. reflexivity. }
  split; [exact Hre|].
  destruct (chunks_stay_live lp64 demo_malloc h p held Hre) as (H1 & H2 & _).
  split; [exact H1|exact H2].
Defined.

Lemma allocate_grows_only_when_exhausted_witness :
  let h := demo_heap 16 4 (repeat Allocate 4) in
  let p := demo_pool 16 4 (repeat Allocate 4) in
  let held := demo_held 16 4 (repeat Allocate 4) in
  reachable lp64 demo_malloc h p held /\
  Z.of_nat (length held) = Z.of_nat (length (allocatedChunks p)) * blockCount p /\
  demo_malloc (live h) (blockSize p * blockCount p) ≠ 0 /\
  freeList p = 0 /\
  exists b h' fr, forall fuel,
    allocate lp64 demo_malloc (S (S fuel)) h p =
      Ok b h' (mkPool fr (allocatedChunks p ++ [demo_malloc (live h) (blockSize p * blockCount p)])
                      (blockSize p) (blockCount p)).
Proof.
  intros h p held.
  assert (Hre : reachable lp64 demo_malloc h p held).
  { apply (demo_reachable 16 4 (repeat Allocate 4)); [lia|lia|lia|].
    vm_compute. reflexivity. }
  assert (Hfull : Z.of_nat (length held) =
                  Z.of_nat (length (allocatedChunks p)) * blockCount p)
    by (vm_compute; reflexivity).
  assert (Hm : demo_malloc (live h) (blockSize p * blockCount p) ≠ 0)
    by (vm_compute; discriminate).
  split; [exact Hre|]. split; [exact Hfull|]. split; [exact Hm|].
  destruct (allocate_grows_only_when_exhausted lp64 demo_malloc h p held Hre)
    as (_ & _ & Hex).
  destruct (Hex Hfull) as (Hz & _ & Hgrow).
  split; [exact Hz|exact (Hgrow Hm)].
Defined.

Lemma ctor_returns_iff_witness :
  sane_start lp64 demo_malloc 16 4 empty_heap /\
  demo_malloc (live empty_heap) (16 * 4) ≠ 0 /\
  (sizeof_Node lp64 <= 16 <->
   exists h1 p1, MemoryPool_ctor lp64 demo_malloc 16 4 empty_heap = Ok tt h1 p1).
Proof.
  assert (Hs : sane_start lp64 demo_malloc 16 4 empty_heap)
    by (apply demo_sane_start; lia).
  assert (Hr : demo_malloc (live empty_heap) (16 * 4) ≠ 0) by (vm_compute; discriminate).
  split; [exact Hs|]. split; [exact Hr|].
  destruct (ctor_returns_iff lp64 demo_malloc 16 4 empty_heap Hs Hr) as (Hiff & _).
  exact Hiff.
Defined.

Lemma destructor_releases_chunks_witness :
  let h := demo_heap 16 4 (repeat Allocate 5) in
  let p := demo_pool 16 4 (repeat Allocate 5) in
  let held := demo_held 16 4 (repeat Allocate 5) in
  reachable lp64 demo_malloc h p held /\
  NoDup ((live h).*1) /\
  exists h',
    MemoryPool_dtor h p = Some h' /\
    bytes h' = bytes h /\
    forall r, r ∈ live h' <->
              r ∈ live h /\
              forall c, c ∈ allocatedChunks p -> r ≠ (c, blockSize p * blockCount p).
Proof.
  intros h p held.
  assert (Hre : reachable lp64 demo_malloc h p held).
  { apply (demo_reachable 16 4 (repeat Allocate 5)); [lia|lia|lia|].
    vm_compute. reflexivity. }
  assert (Hbases : NoDup ((live h).*1)).
  { vm_compute. apply NoDup_cons. split; [|apply NoDup_singleton].
    intros Hx%list_elem_of_singleton. discriminate Hx. }
  split; [exact Hre|]. split; [exact Hbases|].
  destruct (destructor_releases_chunks lp64 demo_malloc h p held Hre)
    as (h' & Hd & Hb & _ & _ & Hexact).
  exists h'. split; [exact Hd|]. split; [exact Hb|exact (Hexact Hbases)].
Defined.

Lemma use_after_destroy_undefined_witness :
  let h := demo_heap 16 4 [Allocate; Allocate] in
  let p := demo_pool 16 4 [Allocate; Allocate] in
  let held := demo_held 16 4 [Allocate; Allocate] in
  let h' := mkHeap (bytes h) [] in
  reachable lp64 demo_malloc h p held /\
  MemoryPool_dtor h p = Some h' /\
  freeList p ≠ 0 /\
  (forall b, b ∈ all_blocks p ->
     load_ptr lp64 h' b = None /\ deallocate lp64 b h' p = Undefined) /\
  forall fuel, allocate lp64 demo_malloc (S fuel) h' p = Undefined.
Proof.
  intros h p held h'.
  assert (Hre : reachable lp64 demo_malloc h p held).
  { apply (demo_reachable 16 4 [Allocate; Allocate]); [lia|lia|lia|].
    vm_compute. reflexivity. }
  assert (Hd : MemoryPool_dtor h p = Some h') by (vm_compute; reflexivity).
  assert (Hnz : freeList p ≠ 0) by (vm_compute; discriminate).
  split; [exact Hre|]. split; [exact Hd|]. split; [exact Hnz|].
  destruct (use_after_destroy_undefined lp64 demo_malloc h p held h' Hre Hd) as (H1 & H2).
  split; [exact H1|exact (H2 Hnz)].
Defined.

Lemma held_block_untouched_witness :
  let pre := [Allocate; Allocate] in
  let cs := [Allocate; Scribble 4112 7; Deallocate 4128; Allocate; Allocate;
             Allocate; Allocate] in
  let h := demo_heap 16 4 pre in
  let p := demo_pool 16 4 pre in
  let held := demo_held 16 4 pre in
  let h' := demo_heap 16 4 (pre ++ cs) in
  reachable lp64 demo_malloc h p held /\
  4144 ∈ held /\
  Forall (fun c => touches (blockSize p) 4144 c = false) cs /\
  exec lp64 demo_malloc 2 cs h p held =
    Ok (demo_held 16 4 (pre ++ cs)) h' (demo_pool 16 4 (pre ++ cs)) /\
  4144 ∈ demo_held 16 4 (pre ++ cs) /\
  forall x, 4144 <= x < 4144 + blockSize p -> bytes h' !! x = bytes h !! x.
Proof.
  intros pre cs h p held h'.
  assert (Hre : reachable lp64 demo_malloc h p held).
  { apply (demo_reachable 16 4 pre); [lia|lia|lia|]. vm_compute. reflexivity. }
  assert (Hin : 4144 ∈ held).
  { vm_compute. apply list_elem_of_In. simpl. tauto. }
  assert (Hcs : Forall (fun c => touches (blockSize p) 4144 c = false) cs).
  { repeat constructor. }
  assert (He : exec lp64 demo_malloc 2 cs h p held =
               Ok (demo_held 16 4 (pre ++ cs)) h' (demo_pool 16 4 (pre ++ cs)))
    by (vm_compute; reflexivity).
  split; [exact Hre|]. split; [exact Hin|]. split; [exact Hcs|]. split; [exact He|].
  exact (held_block_untouched lp64 demo_malloc 2 cs h p held 4144 _ _ _ Hre Hin Hcs He).
Defined.

Lemma deallocate_writes_only_link_witness :
  let h := demo_heap 16 4 [Allocate; Allocate] in
  let p := demo_pool 16 4 [Allocate; Allocate] in
  let held := demo_held 16 4 [Allocate; Allocate] in
  reachable lp64 demo_malloc h p held /\ 4144 ∈ held /\
  exists h1 p1,
    deallocate lp64 4144 h p = Ok tt h1 p1 /\
    load_ptr lp64 h1 4144 = Some (freeList p) /\
    (forall x, x < 4144 \/ 4144 + sizeof_Node lp64 <= x ->
       bytes h1 !! x = bytes h !! x) /\
    forall fuel, allocate lp64 demo_malloc (S fuel) h1 p1 = Ok 4144 h1 p.
Proof.
  intros h p held.
  assert (Hre : reachable lp64 demo_malloc h p held).
  { apply (demo_reachable 16 4 [Allocate; Allocate]); [lia|lia|lia|].
    vm_compute. reflexivity. }
  assert (Hin : 4144 ∈ held).
  { vm_compute. apply list_elem_of_In. simpl. tauto. }
  split; [exact Hre|]. split; [exact Hin|].
  exact (deallocate_writes_only_link lp64 demo_malloc h p held 4144 Hre Hin).
Defined.

Lemma deallocate_sequence_comes_back_reversed_witness :
  let h := demo_heap 16 4 (repeat Allocate 3) in
  let p := demo_pool 16 4 (repeat Allocate 3) in
  let held := demo_held 16 4 (repeat Allocate 3) in
  let bl := [4128; 4144] in
  reachable lp64 demo_malloc h p held /\ NoDup bl /\
  (forall b, b ∈ bl -> b ∈ held) /\
  exists h',
    exec lp64 demo_malloc 1 (map Deallocate bl ++ repeat Allocate (length bl)) h p held
      = Ok (bl ++ release_all bl held) h' p /\
    live h' = live h /\
    Permutation (bl ++ release_all bl held) held.
Proof.
  intros h p held bl.
  assert (Hre : reachable lp64 demo_malloc h p held).
  { apply (demo_reachable 16 4 (repeat Allocate 3)); [lia|lia|lia|].
    vm_compute. reflexivity. }
  assert (Hnd : NoDup bl).
  { apply NoDup_cons. split; [|apply NoDup_singleton].
    intros Hx%list_elem_of_singleton. discriminate Hx. }
  assert (Hsub : forall b, b ∈ bl -> b ∈ held).
  { intros b Hb. apply elem_of_cons in Hb as [->|Hb];
      [|apply list_elem_of_singleton in Hb as ->];
      vm_compute; apply list_elem_of_In; simpl; tauto. }
  split; [exact Hre|]. split; [exact Hnd|]. split; [exact Hsub|].
  exact (deallocate_sequence_comes_back_reversed lp64 demo_malloc h p held bl 0
           Hre Hnd Hsub).
Defined.

Lemma move_then_destroy_witness :
  let h := demo_heap 16 4 [Allocate; Allocate] in
  let p := demo_pool 16 4 [Allocate; Allocate] in
  let held := demo_held 16 4 [Allocate; Allocate] in
  let objs : gmap nat MemoryPool := <[1%nat := p]> ∅ in
  reachable lp64 demo_malloc h p held /\
  objs !! 1%nat = Some p /\ objs !! 3%nat = None /\
  exists objs' src dst h',
    MemoryPool_move_ctor 3 1 objs = Some objs' /\
    objs' !! 1%nat = Some src /\ objs' !! 3%nat = Some dst /\
    MemoryPool_dtor h src = Some h /\
    MemoryPool_dtor h dst = Some h' /\
    MemoryPool_dtor h' src = Some h' /\
    (forall c sz, c ∈ allocatedChunks p -> (c, sz) ∉ live h') /\
    MemoryPool_dtor h' dst = None.
Proof.
  intros h p held objs.
  assert (Hre : reachable lp64 demo_malloc h p held).
  { apply (demo_reachable 16 4 [Allocate; Allocate]); [lia|lia|lia|].
    vm_compute. reflexivity. }
  assert (H1 : objs !! 1%nat = Some p) by (vm_compute; reflexivity).
  assert (H3 : objs !! 3%nat = None) by (vm_compute; reflexivity).
  split; [exact Hre|]. split; [exact H1|]. split; [exact H3|].
  exact (move_then_destroy lp64 demo_malloc h p held 3%nat 1%nat objs Hre H1 H3).
Defined.

Lemma move_assign_frees_destination_witness :
  let h := demo_heap 16 4 [Allocate; Allocate] in
  let D := demo_pool 16 4 [Allocate; Allocate] in
  let heldD := demo_held 16 4 [Allocate; Allocate] in
  let S := mkPool 0 [] 32 2 in
  let objs : gmap nat MemoryPool := <[1%nat := S]> (<[2%nat := D]> ∅) in
  reachable lp64 demo_malloc h D heldD /\
  2%nat ≠ 1%nat /\ objs !! 2%nat = Some D /\ objs !! 1%nat = Some S /\
  exists h' objs',
    MemoryPool_move_assign 2 1 (h, objs) = Some (h', objs') /\
    objs' !! 2%nat = Some S /\
    (forall b, b ∈ all_blocks D ->
       load_ptr lp64 h' b = None /\ forall q, deallocate lp64 b h' q = Undefined).
Proof.
  intros h D heldD S objs.
  assert (Hre : reachable lp64 demo_malloc h D heldD).
  { apply (demo_reachable 16 4 [Allocate; Allocate]); [lia|lia|lia|].
    vm_compute. reflexivity. }
  assert (Hne : 2%nat ≠ 1%nat) by discriminate.
  assert (H2 : objs !! 2%nat = Some D) by (vm_compute; reflexivity).
  assert (H1 : objs !! 1%nat = Some S) by (vm_compute; reflexivity).
  split; [exact Hre|]. split; [exact Hne|]. split; [exact H2|]. split; [exact H1|].
  destruct (move_assign_frees_destination lp64 demo_malloc h D heldD S 2%nat 1%nat objs
              Hre Hne H2 H1) as (h' & objs' & Hm & Hd & Hdead & _).
  exists h', objs'. split; [exact Hm|]. split; [exact Hd|exact Hdead].
Defined.

Lemma operator_new_block_extent_witness :
  let h := demo_heap 16 4 [Allocate; Allocate] in
  let pool := demo_pool 16 4 [Allocate; Allocate] in
  let held := demo_held 16 4 [Allocate; Allocate] in
  let h' := demo_heap 16 4 (repeat Allocate 3) in
  let pool' := demo_pool 16 4 (repeat Allocate 3) in
  reachable lp64 demo_malloc h pool held /\
  Test_operator_new lp64 demo_malloc 24 1 h pool = Ok 4112 h' pool' /\
  valid_access (live h') 4112 (blockSize pool') = true /\
  (blockSize pool' < 24 ->
     (exists b2, b2 ∈ all_blocks pool' /\ b2 ≠ 4112 /\ 4112 < b2 < 4112 + 24) \/
     (exists c, c ∈ allocatedChunks pool' /\
                (c, blockSize pool' * blockCount pool') ∈ live h' /\
                c <= 4112 /\ c + blockSize pool' * blockCount pool' < 4112 + 24)).
Proof.
  intros h pool held h' pool'.
  assert (Hre : reachable lp64 demo_malloc h pool held).
  { apply (demo_reachable 16 4 [Allocate; Allocate]); [lia|lia|lia|].
    vm_compute. reflexivity. }
  assert (Hn : Test_operator_new lp64 demo_malloc 24 1 h pool = Ok 4112 h' pool')
    by (vm_compute; reflexivity).
  split; [exact Hre|]. split; [exact Hn|].
  exact (operator_new_block_extent lp64 demo_malloc h pool held 24 1 4112 h' pool' Hre Hn).
Defined.

Lemma program_outcome_witness :
  sane_start lp64 demo_malloc (sizeof_Test 4) 10 empty_heap /\
  demo_malloc (live empty_heap) (sizeof_Test 4 * 10) ≠ 0 /\
  sizeof_Node lp64 <= sizeof_Test 4 /\
  exists h1 p1 h2 p2 h3 fl,
    Test_pool lp64 demo_malloc (sizeof_Test 4) empty_heap = Ok tt h1 p1 /\
    main lp64 demo_malloc 4 1 h1 p1 =
      Ok [Line_Test 1 2; Line_Test 3 4; Line_completed] h2 p2 /\
    allocatedChunks p2 = [demo_malloc (live empty_heap) (sizeof_Test 4 * 10)] /\
    FreeList lp64 h2 (freeList p2)
      (demo_malloc (live empty_heap) (sizeof_Test 4 * 10) + 8 * sizeof_Test 4
       :: demo_malloc (live empty_heap) (sizeof_Test 4 * 10) + 9 * sizeof_Test 4 :: fl) /\
    length fl = 8%nat /\
    program lp64 demo_malloc 4 1 empty_heap =
      Ok [Line_Test 1 2; Line_Test 3 4; Line_completed] h3 p2 /\
    (forall x, x ∈ live h3 <->
               x ∈ live empty_heap /\
               x.1 ≠ demo_malloc (live empty_heap) (sizeof_Test 4 * 10)) /\
    ((forall x, x ∈ live empty_heap ->
                x.1 ≠ demo_malloc (live empty_heap) (sizeof_Test 4 * 10)) ->
     forall x, x ∈ live h3 <-> x ∈ live empty_heap).
Proof.
  assert (Hs : sane_start lp64 demo_malloc (sizeof_Test 4) 10 empty_heap)
    by (apply demo_sane_start; [reflexivity|lia|reflexivity]).
  assert (Hr : demo_malloc (live empty_heap) (sizeof_Test 4 * 10) ≠ 0)
    by (vm_compute; discriminate).
  assert (HW : sizeof_Node lp64 <= sizeof_Test 4) by (vm_compute; discriminate).
  split; [exact Hs|]. split; [exact Hr|]. split; [exact HW|].
  destruct (program_outcome lp64 demo_malloc 4 0 empty_heap Hs) as (_ & _ & Hok).
  exact (Hok Hr HW).
Defined.

Lemma concurrent_deallocate_safe_witness :
  let h := demo_heap 16 4 (repeat Allocate 3) in
  let p := demo_pool 16 4 (repeat Allocate 3) in
  let held := demo_held 16 4 (repeat Allocate 3) in
  let ts := [mkThread [Deallocate 4128] Idle [4112; 4128];
             mkThread [Deallocate 4144] Idle [4144]] in
  let sched := [0; 1; 0; 1; 0; 1; 1; 1; 0; 0; 0; 1]%nat in
  reachable lp64 demo_malloc h p held /\
  Forall returning ts /\
  Permutation (concat (map holds ts)) held /\
  Forall (fun i => (i < length ts)%nat) sched /\
  exists ts' h' p' fl',
    run lp64 demo_malloc sched ts h p = Some (ts', h', p') /\
    allocatedChunks p' = allocatedChunks p /\ live h' = live h /\
    FreeList lp64 h' (freeList p') fl' /\
    NoDup (fl' ++ concat (map owned ts')) /\
    Permutation (fl' ++ concat (map owned ts')) (all_blocks p) /\
    (Forall (fun t => finished t = true) ts' ->
       map holds ts' = map keeps ts /\
       (length fl' + length (concat (map holds ts')) =
        length (allocatedChunks p) * Z.to_nat (blockCount p))%nat).
Proof.
  intros h p held ts sched.
  assert (Hre : reachable lp64 demo_malloc h p held).
  { apply (demo_reachable 16 4 (repeat Allocate 3)); [lia|lia|lia|].
    vm_compute. reflexivity. }
  assert (Hret : Forall returning ts).
  { apply Forall_cons. split; [|apply Forall_cons; split; [|apply Forall_nil; exact I]];
      apply returning_one; apply list_elem_of_In; simpl; tauto. }
  assert (Hperm : Permutation (concat (map holds ts)) held).
  { vm_compute. apply Permutation_refl. }
  assert (Hsched : Forall (fun i => (i < length ts)%nat) sched).
  { repeat constructor. }
  split; [exact Hre|]. split; [exact Hret|]. split; [exact Hperm|].
  split; [exact Hsched|].
  exact (concurrent_deallocate_safe lp64 demo_malloc h p held ts sched
           Hre Hret Hperm Hsched).
Defined.

Lemma solo_exec_witness :
  let h := demo_heap 16 4 [] in
  let p := demo_pool 16 4 [] in
  let cs := [Allocate; Allocate; Deallocate 4144; Allocate] in
  0 <= blockCount p /\
  exec lp64 demo_malloc 2 cs h p [] =
    Ok (demo_held 16 4 cs) (demo_heap 16 4 cs) (demo_pool 16 4 cs) /\
  solo lp64 demo_malloc (mkThread cs Idle []) h p
    (mkThread [] Idle (demo_held 16 4 cs)) (demo_heap 16 4 cs) (demo_pool 16 4 cs).
Proof.
  intros h p cs.
  assert (Hbc : 0 <= blockCount p) by (vm_compute; discriminate).
  assert (He : exec lp64 demo_malloc 2 cs h p [] =
               Ok (demo_held 16 4 cs) (demo_heap 16 4 cs) (demo_pool 16 4 cs))
    by (vm_compute; reflexivity).
  split; [exact Hbc|]. split; [exact He|].
  exact (solo_exec lp64 demo_malloc 2 cs h p [] _ _ _ Hbc He).
Defined.

Lemma concurrent_allocate_safe_witness :
  let h := demo_heap 16 4 [Allocate] in
  let p := demo_pool 16 4 [Allocate] in
  let held := demo_held 16 4 [Allocate] in
  let ts := [mkThread [Allocate; Allocate] Idle [4144]; mkThread [Allocate] Idle []] in
  let sched := [0; 0; 0; 0; 1; 1; 1; 1; 1; 0; 0; 0; 0; 1; 0; 0; 0; 0; 0; 0]%nat in
  reachable lp64 demo_malloc h p held /\
  Forall allocating ts /\
  Permutation (concat (map holds ts)) held /\
  (sum_list_with due ts + length held <=
   length (allocatedChunks p) * Z.to_nat (blockCount p))%nat /\
  Forall (fun i => (i < length ts)%nat) sched /\
  exists ts' p' fl',
    run lp64 demo_malloc sched ts h p = Some (ts', h, p') /\
    allocatedChunks p' = allocatedChunks p /\
    FreeList lp64 h (freeList p') fl' /\
    NoDup (fl' ++ concat (map holds ts')) /\
    Permutation (fl' ++ concat (map holds ts')) (all_blocks p) /\
    (Forall (fun t => finished t = true) ts' ->
       map (fun t => length (holds t)) ts' =
       map (fun t => (length (holds t) + allocs (script t))%nat) ts).
Proof.
  intros h p held ts sched.
  assert (Hre : reachable lp64 demo_malloc h p held).
  { apply (demo_reachable 16 4 [Allocate]); [lia|lia|lia|]. vm_compute. reflexivity. }
  assert (Hall : Forall allocating ts).
  { apply Forall_cons. split; [|apply Forall_cons; split; [|apply Forall_nil; exact I]];
      split; reflexivity. }
  assert (Hperm : Permutation (concat (map holds ts)) held).
  { vm_compute. apply Permutation_refl. }
  assert (Hroom : (sum_list_with due ts + length held <=
                   length (allocatedChunks p) * Z.to_nat (blockCount p))%nat).
  { vm_compute. lia. }
  assert (Hsched : Forall (fun i => (i < length ts)%nat) sched).
  { repeat constructor. }
  split; [exact Hre|]. split; [exact Hall|]. split; [exact Hperm|].
  split; [exact Hroom|]. split; [exact Hsched|].
  exact (concurrent_allocate_safe lp64 demo_malloc h p held ts sched
           Hre Hall Hperm Hroom Hsched).
Defined.
